(** * Market microstructure core of the agent-based market simulator

    A shallow embedding of
      - [project/core/timeline.py]     (the period/round scheduler),
      - [project/core/state.py]        (the per-trader account ledger),
      - [project/regulation/rules.py]  (price band and transaction tax),
      - [project/market/orderbook.py]  (the price-time priority book, with
                                        the [heapq] routines it calls),
      - [project/market/cda.py]        (the continuous double auction),
    followed by the properties of these programs.

    Conventions of the embedding.
      - Python [int] is [Z]; Python [str] is [string].
      - Python [float] is [Q]: arithmetic and comparisons are the exact
        ones of the rationals, rounding is not modelled.  [==] on floats
        compares values, hence [Qeq_bool], never Leibniz equality.
      - A method of a mutable object is a function from the object's
        state to an outcome and the state the call leaves behind; an
        exception leaves the state as mutated so far. *)

From Stdlib Require Import ZArith QArith Lqa String List Bool Lia Permutation.
From stdpp Require Import base list.
Import ListNotations.

Local Open Scope string_scope.
Local Open Scope list_scope.
Local Open Scope Z_scope.

(** ** Outcomes and the state-and-exception monad *)

(** The exceptions the modelled code can raise.  [ValueError] is raised by
    the ledger, [IndexError] by [list.pop] on an empty list, [TypeError] by
    [<] between two [BookEntry] objects (the dataclass is declared with
    [order=False]). *)
Inductive exn : Type :=
  | ValueError
  | IndexError
  | TypeError.

(** [OutOfFuel] is not a Python outcome: it marks a loop of the model that
    was cut by its iteration budget.  The lemmas on the loops show that,
    on a heap and on a well-formed book, the budgets passed below are
    never exhausted. *)
Inductive outcome (A : Type) : Type :=
  | Returns (a : A)
  | Raises (e : exn)
  | OutOfFuel.

Arguments Returns {A} a.
Arguments Raises {A} e.
Arguments OutOfFuel {A}.

Definition M (S A : Type) : Type := S -> outcome A * S.

Definition ret {S A} (a : A) : M S A := fun s => (Returns a, s).

Definition raise {S A} (e : exn) : M S A := fun s => (Raises e, s).

Definition bind {S A B} (m : M S A) (k : A -> M S B) : M S B :=
  fun s =>
    match m s with
    | (Returns a, s') => k a s'
    | (Raises e, s') => (Raises e, s')
    | (OutOfFuel, s') => (OutOfFuel, s')
    end.

Definition get {S} : M S S := fun s => (Returns s, s).

Definition put {S} (s : S) : M S unit := fun _ => (Returns tt, s).

Definition modify {S} (f : S -> S) : M S unit := fun s => (Returns tt, f s).

Declare Scope py_scope.
Delimit Scope py_scope with py.
Notation "'let*' x ':=' m 'in' k" := (bind m (fun x => k))
  (at level 10, x name, m at level 100, k at level 200) : py_scope.
Notation "'do*' m 'in' k" := (bind m (fun _ => k))
  (at level 10, m at level 100, k at level 200) : py_scope.

(** ** [core/timeline.py] *)

Module Timeline.

Record t : Type := mk {
  total_periods : Z;
  rounds_per_period : Z;
  current_period : Z;
  current_round : Z;
  finished : bool
}.

(** [Timeline.__init__] *)
Definition init (total_periods rounds_per_period : Z) : t :=
  {| total_periods := total_periods;
     rounds_per_period := rounds_per_period;
     current_period := 1;
     current_round := -1;
     finished := false |}.

Definition set_round (r : Z) (s : t) : t :=
  mk (total_periods s) (rounds_per_period s) (current_period s) r (finished s).

Definition set_period (p : Z) (s : t) : t :=
  mk (total_periods s) (rounds_per_period s) p (current_round s) (finished s).

Definition set_finished (b : bool) (s : t) : t :=
  mk (total_periods s) (rounds_per_period s) (current_period s)
     (current_round s) b.

(** [Timeline.step]: the returned string and the state left behind. *)
Definition step (s : t) : string * t :=
  if finished s then ("finished", s)
  else if current_round s =? 0 then
    ("trading", set_round 1 s)
  else if (1 <=? current_round s) && (current_round s <? rounds_per_period s) then
    ("trading", set_round (current_round s + 1) s)
  else if current_round s =? rounds_per_period s then
    ("period_end", set_round (current_round s + 1) s)
  else if current_round s >? rounds_per_period s then
    if current_period s >=? total_periods s then
      ("finished", set_finished true s)
    else
      ("settlement", set_round 0 (set_period (current_period s + 1) s))
  else ("finished", s).

(** [Timeline.is_evolution_time].  For [evolve_interval = 0] the code
    raises [ZeroDivisionError] when the first conjunct holds; this
    function returns a boolean there, and the properties below are
    stated for a non-zero interval. *)
Definition is_evolution_time (evolve_interval : Z) (s : t) : bool :=
  (current_round s >? rounds_per_period s)
  && (current_period s mod evolve_interval =? 0).

(** The values returned by [n] successive calls of [step]. *)
Fixpoint trace (n : nat) (s : t) : list string :=
  match n with
  | O => []
  | S n' => let '(ev, s') := step s in ev :: trace n' s'
  end.

(** The state after [n] successive calls of [step]. *)
Fixpoint run (n : nat) (s : t) : t :=
  match n with
  | O => s
  | S n' => run n' (snd (step s))
  end.

End Timeline.

(** ** [core/state.py] *)

Record PendingTransfer : Type := mkPendingTransfer {
  release_time : Z;
  cash_delta : Q;
  stock_delta : Z
}.

Record AccountState : Type := mkAccountState {
  cash : Q;
  stock : Z;
  pending_transfers : list PendingTransfer;
  budget_policy : string;
  equity_includes_pending : bool;
  exposure_includes_pending : bool;
  last_wealth : option Q
}.

Definition set_cash (c : Q) (a : AccountState) : AccountState :=
  mkAccountState c (stock a) (pending_transfers a) (budget_policy a)
    (equity_includes_pending a) (exposure_includes_pending a) (last_wealth a).

Definition set_stock (k : Z) (a : AccountState) : AccountState :=
  mkAccountState (cash a) k (pending_transfers a) (budget_policy a)
    (equity_includes_pending a) (exposure_includes_pending a) (last_wealth a).

Definition set_pending_transfers (l : list PendingTransfer) (a : AccountState)
  : AccountState :=
  mkAccountState (cash a) (stock a) l (budget_policy a)
    (equity_includes_pending a) (exposure_includes_pending a) (last_wealth a).

Definition set_last_wealth (w : option Q) (a : AccountState) : AccountState :=
  mkAccountState (cash a) (stock a) (pending_transfers a) (budget_policy a)
    (equity_includes_pending a) (exposure_includes_pending a) w.

(** Python's [sum(...)] over a generator: a left fold that starts at [0].
    The additions are the exact ones of the rationals, in the order in
    which the code performs its rounded ones. *)
Definition sum_cash (l : list PendingTransfer) : Q :=
  fold_left (fun acc t => (acc + cash_delta t)%Q) l 0%Q.

Definition sum_stock (l : list PendingTransfer) : Z :=
  fold_left (fun acc t => acc + stock_delta t) l 0.

(** The float literal [-1e-9], as the rational it denotes in decimal. *)
Definition cash_tolerance : Q := (-1 # 1000000000)%Q.

Module Account.

Local Open Scope py_scope.

(** [AccountState.__init__].  The body is a sequence of attribute
    assignments; it contains no [raise]. *)
Definition init (initial_cash : Q) (initial_stock : Z)
    (budget_policy : string)
    (equity_includes_pending exposure_includes_pending : bool)
  : outcome AccountState :=
  Returns
    {| cash := initial_cash;
       stock := initial_stock;
       pending_transfers := [];
       budget_policy := budget_policy;
       equity_includes_pending := equity_includes_pending;
       exposure_includes_pending := exposure_includes_pending;
       last_wealth := None |}.

(** Step 1 of [check_budget_constraint]: the baseline per policy. *)
Definition baseline : M AccountState (Q * Z) :=
  let* self := get in
  if String.eqb (budget_policy self) "strict_available" then
    ret (cash self, stock self)
  else if String.eqb (budget_policy self) "include_pending" then
    ret ((cash self + sum_cash (pending_transfers self))%Q,
         stock self + sum_stock (pending_transfers self))
  else raise ValueError.

(** [AccountState.check_budget_constraint] *)
Definition check_budget_constraint (cash_delta : Q) (stock_delta : Z)
  : M AccountState bool :=
  let* base := baseline in
  let final_cash := (fst base + cash_delta)%Q in
  let final_stock := snd base + stock_delta in
  ret (Qle_bool cash_tolerance final_cash && (final_stock >=? 0)).

(** [AccountState.apply_trade] *)
Definition apply_trade (cash_delta : Q) (stock_delta : Z)
    (current_time settlement_lag : Z) (enforce_budget : bool)
  : M AccountState unit :=
  do* (if enforce_budget then
     let* ok := check_budget_constraint cash_delta stock_delta in
     if negb ok then raise ValueError else ret tt
   else ret tt) in
  if settlement_lag =? 0 then
    do* modify (fun self => set_cash (cash self + cash_delta)%Q self) in
    modify (fun self => set_stock (stock self + stock_delta) self)
  else
    let release_time := current_time + settlement_lag in
    let transfer := mkPendingTransfer release_time cash_delta stock_delta in
    modify (fun self =>
      set_pending_transfers (pending_transfers self ++ [transfer]) self).

(** The [for] loop of [process_settlements]: the object and the local
    list [remaining] after the transfers of [l] have been visited. *)
Fixpoint settle_loop (current_time : Z) (l : list PendingTransfer)
    (self : AccountState) (remaining : list PendingTransfer)
  : AccountState * list PendingTransfer :=
  match l with
  | [] => (self, remaining)
  | transfer :: l' =>
      if current_time >=? release_time transfer then
        settle_loop current_time l'
          (set_stock (stock self + stock_delta transfer)
             (set_cash (cash self + cash_delta transfer)%Q self))
          remaining
      else
        settle_loop current_time l' self (remaining ++ [transfer])
  end.

(** [AccountState.process_settlements] *)
Definition process_settlements (current_time : Z) : M AccountState unit :=
  let* self := get in
  match pending_transfers self with
  | [] => ret tt
  | _ :: _ =>
      let '(self', remaining) :=
        settle_loop current_time (pending_transfers self) self [] in
      put (set_pending_transfers remaining self')
  end.

(** [AccountState.update_wealth_stats] *)
Definition update_wealth_stats (current_price : Q) : M AccountState Q :=
  let* self := get in
  let eff_cash :=
    if equity_includes_pending self
    then (cash self + sum_cash (pending_transfers self))%Q else cash self in
  let eff_stock :=
    if equity_includes_pending self
    then stock self + sum_stock (pending_transfers self) else stock self in
  let w := (eff_cash + inject_Z eff_stock * current_price)%Q in
  do* put (set_last_wealth (Some w) self) in
  ret w.

(** [AccountState.is_bankrupt] *)
Definition is_bankrupt (threshold : Q) (self : AccountState) : bool :=
  match last_wealth self with
  | None => false
  | Some w => Qle_bool w threshold
  end.

(** [AccountState.get_holdings] *)
Definition get_holdings (self : AccountState) : Z :=
  if exposure_includes_pending self
  then stock self + sum_stock (pending_transfers self)
  else stock self.

End Account.

(** ** [agents/base.py]: the order record *)

Module Order.

Record t : Type := mk {
  agent_id : Z;
  direction : Z;
  order_type : string;
  price : Q;
  quantity : Z
}.

(** [order._replace(quantity=q)] *)
Definition replace_quantity (q : Z) (o : t) : t :=
  mk (agent_id o) (direction o) (order_type o) (price o) q.

(** [==] of the named tuple: componentwise [==]. *)
Definition eqb (a b : t) : bool :=
  (agent_id a =? agent_id b)
  && (direction a =? direction b)
  && String.eqb (order_type a) (order_type b)
  && Qeq_bool (price a) (price b)
  && (quantity a =? quantity b).

End Order.

(** ** The [heapq] routines used by the book

    [heappush], [heappop] and their helpers [_siftdown] and [_siftup] as
    written in the standard library's [heapq.py], over a Python list
    modelled as a Rocq list read and written by index.  [lt] is Python's
    [<] on the stored items; it may raise.  The interpreter may run the
    C versions of these routines instead, which return the same values
    and leave the same list whenever no comparison raises; the list left
    behind by a comparison that raises in the middle of a sift is the
    one of [heapq.py] here, and no property below depends on it. *)

Section Heapq.

Context {A : Type}.
Variable lt : A -> A -> outcome bool.

Local Open Scope py_scope.
Local Open Scope nat_scope.

(** [heap[i]] *)
Definition getitem (i : nat) : M (list A) A :=
  fun heap =>
    match heap !! i with
    | Some x => (Returns x, heap)
    | None => (Raises IndexError, heap)
    end.

(** [heap[i] = x] *)
Definition setitem (i : nat) (x : A) : M (list A) unit :=
  fun heap =>
    if i <? length heap then (Returns tt, <[i := x]> heap)
    else (Raises IndexError, heap).

(** [a < b], evaluated for its value and its exception only. *)
Definition compare (a b : A) : M (list A) bool :=
  fun heap => (lt a b, heap).

(** The [while pos > startpos] loop of [_siftdown]; returns the final
    [pos]. *)
Fixpoint siftdown_loop (fuel : nat) (startpos pos : nat) (newitem : A)
  : M (list A) nat :=
  if startpos <? pos then
    match fuel with
    | O => fun heap => (OutOfFuel, heap)
    | S fuel' =>
        let parentpos := (pos - 1) / 2 in
        let* parent := getitem parentpos in
        let* b := compare newitem parent in
        if b then
          do* setitem pos parent in
          siftdown_loop fuel' startpos parentpos newitem
        else ret pos
    end
  else ret pos.

(** [_siftdown(heap, startpos, pos)] *)
Definition siftdown (startpos pos : nat) : M (list A) unit :=
  let* newitem := getitem pos in
  let* pos' := siftdown_loop pos startpos pos newitem in
  setitem pos' newitem.

(** The [while childpos < endpos] loop of [_siftup]; returns the final
    [pos]. *)
Fixpoint siftup_loop (fuel : nat) (endpos pos childpos : nat)
  : M (list A) nat :=
  if childpos <? endpos then
    match fuel with
    | O => fun heap => (OutOfFuel, heap)
    | S fuel' =>
        let rightpos := childpos + 1 in
        let* childpos' :=
          (if rightpos <? endpos then
             let* c := getitem childpos in
             let* r := getitem rightpos in
             let* b := compare c r in
             ret (if negb b then rightpos else childpos)
           else ret childpos) in
        let* c := getitem childpos' in
        do* setitem pos c in
        siftup_loop fuel' endpos childpos' (2 * childpos' + 1)
    end
  else ret pos.

(** [_siftup(heap, pos)] *)
Definition siftup (pos : nat) : M (list A) unit :=
  let* heap := get in
  let endpos := length heap in
  let startpos := pos in
  let* newitem := getitem pos in
  let* pos' := siftup_loop endpos endpos pos (2 * pos + 1) in
  do* setitem pos' newitem in
  siftdown startpos pos'.

(** [heap.append(item)] *)
Definition append (item : A) : M (list A) unit :=
  modify (fun heap => (heap ++ [item])%list).

(** [heap.pop()] *)
Definition pop_last : M (list A) A :=
  fun heap =>
    match last heap with
    | Some x => (Returns x, take (length heap - 1) heap)
    | None => (Raises IndexError, heap)
    end.

(** [heapq.heappush(heap, item)] *)
Definition heappush (item : A) : M (list A) unit :=
  do* append item in
  let* heap := get in
  siftdown 0 (length heap - 1).

(** [heapq.heappop(heap)] *)
Definition heappop : M (list A) A :=
  let* lastelt := pop_last in
  let* heap := get in
  match heap with
  | _ :: _ =>
      let* returnitem := getitem 0 in
      do* setitem 0 lastelt in
      do* siftup 0 in
      ret returnitem
  | [] => ret lastelt
  end.

End Heapq.

(** ** [market/orderbook.py] *)

Module BookEntry.

Record t : Type := mk {
  price : Q;
  timestamp : Z;
  order : Order.t;
  remaining : Z
}.

Definition set_remaining (r : Z) (e : t) : t :=
  mk (price e) (timestamp e) (order e) r.

(** [==] generated by [@dataclass]: the field tuples are compared. *)
Definition eqb (a b : t) : bool :=
  Qeq_bool (price a) (price b)
  && (timestamp a =? timestamp b)
  && Order.eqb (order a) (order b)
  && (remaining a =? remaining b).

End BookEntry.

(** A heap element: the tuple [(priority_price, timestamp, entry)]. *)
Definition item : Type := Q * Z * BookEntry.t.

Definition Qlt_bool (x y : Q) : bool := negb (Qle_bool y x).

(** [<] on heap elements is Python's tuple comparison: the first position
    where the two tuples differ (by [==]) decides.  At the third position
    it would be [<] between two [BookEntry] objects, which the dataclass
    ([order=False]) does not define: a [TypeError]. *)
Definition item_lt (a b : item) : outcome bool :=
  let '(pa, ta, ea) := a in
  let '(pb, tb, eb) := b in
  if negb (Qeq_bool pa pb) then Returns (Qlt_bool pa pb)
  else if negb (ta =? tb) then Returns (ta <? tb)
  else if BookEntry.eqb ea eb then Returns false
  else Raises TypeError.

Record OrderBook : Type := mkOrderBook {
  bids : list item;
  asks : list item;
  _counter : Z
}.

(** Runs a list computation on one attribute of a larger object. *)
Definition on_field {S F A} (proj : S -> F) (upd : F -> S -> S)
    (m : M F A) : M S A :=
  fun s => let '(r, f') := m (proj s) in (r, upd f' s).

Module Book.

Local Open Scope py_scope.

Definition set_bids (l : list item) (b : OrderBook) : OrderBook :=
  mkOrderBook l (asks b) (_counter b).

Definition set_asks (l : list item) (b : OrderBook) : OrderBook :=
  mkOrderBook (bids b) l (_counter b).

Definition set_counter (c : Z) (b : OrderBook) : OrderBook :=
  mkOrderBook (bids b) (asks b) c.

Definition on_bids {A} (m : M (list item) A) : M OrderBook A :=
  on_field bids set_bids m.

Definition on_asks {A} (m : M (list item) A) : M OrderBook A :=
  on_field asks set_asks m.

(** [OrderBook.__init__] *)
Definition init : OrderBook :=
  {| bids := []; asks := []; _counter := 0 |}.

(** [OrderBook.clear] *)
Definition clear : M OrderBook unit :=
  put init.

(** [OrderBook._next_ts] *)
Definition _next_ts : M OrderBook Z :=
  do* modify (fun self => set_counter (_counter self + 1) self) in
  let* self := get in
  ret (_counter self).

(** The two [heappush] branches shared by [add_limit] and [reinsert]. *)
Definition push_entry (direction : Z) (entry : BookEntry.t)
  : M OrderBook unit :=
  if direction =? 1 then
    on_bids (heappush item_lt
      ((- BookEntry.price entry)%Q, BookEntry.timestamp entry, entry))
  else
    on_asks (heappush item_lt
      (BookEntry.price entry, BookEntry.timestamp entry, entry)).

(** [OrderBook.add_limit] *)
Definition add_limit (order : Order.t) : M OrderBook unit :=
  if Order.quantity order <=? 0 then ret tt
  else if Qle_bool (Order.price order) 0 then ret tt
  else
    let* ts := _next_ts in
    let entry :=
      BookEntry.mk (Order.price order) ts order (Order.quantity order) in
    push_entry (Order.direction order) entry.

(** [OrderBook.reinsert] *)
Definition reinsert (entry : BookEntry.t) : M OrderBook unit :=
  if BookEntry.remaining entry <=? 0 then ret tt
  else push_entry (Order.direction (BookEntry.order entry)) entry.

(** [OrderBook.best_bid] *)
Definition best_bid (self : OrderBook) : option Q :=
  match bids self with
  | (p, _, _) :: _ => Some (- p)%Q
  | [] => None
  end.

(** [OrderBook.best_ask] *)
Definition best_ask (self : OrderBook) : option Q :=
  match asks self with
  | (p, _, _) :: _ => Some p
  | [] => None
  end.

(** [OrderBook.peek_best_bid] *)
Definition peek_best_bid (self : OrderBook) : option BookEntry.t :=
  match bids self with
  | (_, _, e) :: _ => Some e
  | [] => None
  end.

(** [OrderBook.peek_best_ask] *)
Definition peek_best_ask (self : OrderBook) : option BookEntry.t :=
  match asks self with
  | (_, _, e) :: _ => Some e
  | [] => None
  end.

(** [OrderBook.pop_best_bid] *)
Definition pop_best_bid : M OrderBook BookEntry.t :=
  let* it := on_bids (heappop item_lt) in
  ret (snd it).

(** [OrderBook.pop_best_ask] *)
Definition pop_best_ask : M OrderBook BookEntry.t :=
  let* it := on_asks (heappop item_lt) in
  ret (snd it).

(** [OrderBook.snapshot]: the pair [(best_bid, best_ask)]. *)
Definition snapshot (self : OrderBook) : option Q * option Q :=
  (best_bid self, best_ask self).

End Book.

(** ** [regulation/rules.py] *)

Record PriceLimitRule : Type := mkPriceLimitRule {
  pl_enabled : bool;
  pl_threshold : Q
}.

Record TransactionTaxRule : Type := mkTransactionTaxRule {
  tt_enabled : bool;
  tt_rate : Q
}.

(** [PriceLimitRule.is_valid_price].  The two ends of the band are
    computed exactly; the code rounds them. *)
Definition is_valid_price (self : PriceLimitRule) (price : Q)
    (ref_price : option Q) : bool :=
  if negb (pl_enabled self) then true
  else
    match ref_price with
    | None => true
    | Some ref =>
        let lower := (ref * (1 - pl_threshold self))%Q in
        let upper := (ref * (1 + pl_threshold self))%Q in
        Qle_bool lower price && Qle_bool price upper
    end.

(** [TransactionTaxRule.calculate_tax] *)
Definition calculate_tax (self : TransactionTaxRule) (price : Q)
    (quantity : Z) : Q :=
  if negb (tt_enabled self) then 0%Q
  else (price * inject_Z quantity * tt_rate self)%Q.

(** ** [market/cda.py] *)

Module Trade.

Record t : Type := mk {
  price : Q;
  quantity : Z;
  buyer_id : Z;
  seller_id : Z;
  tax_amount : Q;
  timestamp : Z
}.

End Trade.

Record CDAEngine : Type := mkCDAEngine {
  book : OrderBook;
  pl_rule : PriceLimitRule;
  tt_rule : TransactionTaxRule;
  last_close_price : option Q;
  _trade_counter : Z;
  last_transaction_price : option Q;
  trades_this_period : list Trade.t
}.

Module CDA.

Local Open Scope py_scope.

Definition set_book (b : OrderBook) (s : CDAEngine) : CDAEngine :=
  mkCDAEngine b (pl_rule s) (tt_rule s) (last_close_price s)
    (_trade_counter s) (last_transaction_price s) (trades_this_period s).

Definition on_book {A} (m : M OrderBook A) : M CDAEngine A :=
  on_field book set_book m.

(** [CDAEngine.__init__]; [initial_price] is
    [config.get("market", {}).get("initial_price", None)]. *)
Definition init (initial_price : option Q) (pl : PriceLimitRule)
    (tt : TransactionTaxRule) : CDAEngine :=
  {| book := Book.init;
     pl_rule := pl;
     tt_rule := tt;
     last_close_price := initial_price;
     _trade_counter := 0;
     last_transaction_price := None;
     trades_this_period := [] |}.

(** [CDAEngine.set_reference_price_and_reset_book] *)
Definition set_reference_price_and_reset_book (last_close : Q)
  : M CDAEngine unit :=
  do* modify (fun self =>
        mkCDAEngine (book self) (pl_rule self) (tt_rule self)
          (Some last_close) (_trade_counter self)
          (last_transaction_price self) (trades_this_period self)) in
  do* on_book Book.clear in
  modify (fun self =>
    mkCDAEngine (book self) (pl_rule self) (tt_rule self)
      (last_close_price self) (_trade_counter self) None []).

(** The state changes of one execution, between the computation of
    [tax] and the update of the book: the trade counter, the trade
    record, [last_transaction_price] and [trades_this_period]. *)
Definition record_trade (order : Order.t) (best_entry : BookEntry.t)
    (match_price : Q) (qty : Z) : M CDAEngine Trade.t :=
  let* self0 := get in
  let tax := calculate_tax (tt_rule self0) match_price qty in
  do* modify (fun self =>
        mkCDAEngine (book self) (pl_rule self) (tt_rule self)
          (last_close_price self) (_trade_counter self + 1)
          (last_transaction_price self) (trades_this_period self)) in
  let* self := get in
  let buyer_id :=
    if Order.direction order =? 1 then Order.agent_id order
    else Order.agent_id (BookEntry.order best_entry) in
  let seller_id :=
    if Order.direction order =? 1
    then Order.agent_id (BookEntry.order best_entry)
    else Order.agent_id order in
  let trade :=
    Trade.mk match_price qty buyer_id seller_id tax (_trade_counter self) in
  do* modify (fun self =>
        mkCDAEngine (book self) (pl_rule self) (tt_rule self)
          (last_close_price self) (_trade_counter self)
          (Some match_price) (trades_this_period self ++ [trade])) in
  ret trade.

(** The matching loop, [while remaining > 0]; returns the locals
    [remaining] and [trades] at loop exit. *)
Fixpoint match_loop (fuel : nat) (order : Order.t) (remaining : Z)
    (trades : list Trade.t) : M CDAEngine (Z * list Trade.t) :=
  if remaining >? 0 then
    match fuel with
    | O => fun self => (OutOfFuel, self)
    | S fuel' =>
        let* self := get in
        let best_entry :=
          if Order.direction order =? 1
          then Book.peek_best_ask (book self)
          else Book.peek_best_bid (book self) in
        let match_price :=
          if Order.direction order =? 1
          then Book.best_ask (book self)
          else Book.best_bid (book self) in
        match best_entry, match_price with
        | Some best_entry, Some match_price =>
            if String.eqb (Order.order_type order) "limit"
               && (((Order.direction order =? 1)
                    && Qlt_bool (Order.price order) match_price)
                   || ((Order.direction order =? -1)
                       && Qlt_bool match_price (Order.price order)))
            then ret (remaining, trades)
            else if negb (is_valid_price (pl_rule self) match_price
                            (last_close_price self))
            then ret (remaining, trades)
            else
              let qty := Z.min remaining (BookEntry.remaining best_entry) in
              let* trade := record_trade order best_entry match_price qty in
              let trades := (trades ++ [trade])%list in
              let remaining := remaining - qty in
              let* popped :=
                on_book (if Order.direction order =? 1
                         then Book.pop_best_ask else Book.pop_best_bid) in
              let popped :=
                BookEntry.set_remaining (BookEntry.remaining popped - qty)
                  popped in
              do* (if BookEntry.remaining popped >? 0
                   then on_book (Book.reinsert popped) else ret tt) in
              match_loop fuel' order remaining trades
        | _, _ => ret (remaining, trades)
        end
    end
  else ret (remaining, trades).

(** The number of entries resting on the side opposite to [order]. *)
Definition opposite_depth (order : Order.t) (self : CDAEngine) : nat :=
  if Order.direction order =? 1 then length (asks (book self))
  else length (bids (book self)).

(** Step 4 of [process_order]: the remainder is offered to the book. *)
Definition rest_remainder (order : Order.t) (remaining : Z)
  : M CDAEngine unit :=
  let* self := get in
  if is_valid_price (pl_rule self) (Order.price order)
       (last_close_price self)
  then on_book (Book.add_limit (Order.replace_quantity remaining order))
  else ret tt.

(** [CDAEngine.process_order] *)
Definition process_order (order : Order.t) : M CDAEngine (list Trade.t) :=
  if Order.quantity order <=? 0 then ret []
  else if negb (String.eqb (Order.order_type order) "market"
                || String.eqb (Order.order_type order) "limit")
  then ret []
  else if negb ((Order.direction order =? 1)
                || (Order.direction order =? -1))
  then ret []
  else if String.eqb (Order.order_type order) "limit"
          && Qle_bool (Order.price order) 0
  then ret []
  else
    let* self := get in
    if String.eqb (Order.order_type order) "limit"
       && negb (is_valid_price (pl_rule self) (Order.price order)
                  (last_close_price self))
    then ret []
    else
      let* rt :=
        match_loop (S (opposite_depth order self)) order
          (Order.quantity order) [] in
      do* rest_remainder order (fst rt) in
      ret (snd rt).

End CDA.

(** ** Vocabulary of the properties *)

(** The position above position [i] in the implicit binary tree of a
    heap list. *)
Definition parent (i : nat) : nat := ((i - 1) / 2)%nat.

Section HeapPredicates.

Context {A : Type}.
Variable lt : A -> A -> outcome bool.
Variable le : A -> A -> Prop.

(** The value at [i] is not below the value at its parent. *)
Definition edge_ok (h : list A) (i : nat) : Prop :=
  forall x p, h !! i = Some x -> h !! parent i = Some p -> le p x.

(** The heap invariant of [heapq]: [heap[(k-1)//2] <= heap[k]] for all
    [k > 0]. *)
Definition heap_inv (h : list A) : Prop :=
  forall i, (0 < i)%nat -> edge_ok h i.

(** The heap invariant around a hole at [pos]: every edge that does not
    touch [pos] is in order, and the parent of [pos] is not above the
    children of [pos]. *)
Definition hole_inv (h : list A) (pos : nat) : Prop :=
  (forall i, (0 < i)%nat -> i <> pos -> parent i <> pos -> edge_ok h i)
  /\ (forall c x g, (0 < pos)%nat -> (0 < c)%nat -> parent c = pos ->
        h !! c = Some x -> h !! parent pos = Some g -> le g x).

(** The heap invariant except possibly between [pos] and its parent. *)
Definition up_inv (h : list A) (pos : nat) : Prop :=
  hole_inv h pos
  /\ (forall c, (0 < c)%nat -> parent c = pos -> edge_ok h c).

(** Two elements of [l] whose comparison raises. *)
Definition clash (l : list A) : Prop :=
  exists a b, a ∈ l /\ b ∈ l /\ lt a b = Raises TypeError.

End HeapPredicates.

(** The order of [heapq] on the book's tuples, as far as it is decided by
    the first two components: smaller priority price first, then smaller
    arrival number. *)
Definition item_le (a b : item) : Prop :=
  (fst (fst a) < fst (fst b))%Q
  \/ ((fst (fst a) == fst (fst b))%Q /\ snd (fst a) <= snd (fst b)).

(** The arrival number stored in a heap element. *)
Definition item_ts (it : item) : Z := snd (fst it).

(** The entries resting on one side of the book. *)
Definition resting (side : list item) : list BookEntry.t := map snd side.

(** The tuples pushed for an entry on the bid side and on the ask side. *)
Definition bid_item (e : BookEntry.t) : item :=
  ((- BookEntry.price e)%Q, BookEntry.timestamp e, e).

Definition ask_item (e : BookEntry.t) : item :=
  (BookEntry.price e, BookEntry.timestamp e, e).

(** A tuple on the bid side is [(-entry.price, entry.timestamp, entry)]
    for a buy entry; a tuple on the ask side is
    [(entry.price, entry.timestamp, entry)] for an entry that is not a
    buy. *)
Definition bid_item_ok (it : item) : Prop :=
  fst (fst it) = (- BookEntry.price (snd it))%Q
  /\ snd (fst it) = BookEntry.timestamp (snd it)
  /\ Order.direction (BookEntry.order (snd it)) = 1.

Definition ask_item_ok (it : item) : Prop :=
  fst (fst it) = BookEntry.price (snd it)
  /\ snd (fst it) = BookEntry.timestamp (snd it)
  /\ Order.direction (BookEntry.order (snd it)) <> 1.

(** What every sequence of book operations maintains: both sides are
    heaps for [item_le] and their tuples are built from their entries. *)
Definition book_inv (b : OrderBook) : Prop :=
  heap_inv item_le (bids b) /\ heap_inv item_le (asks b)
  /\ Forall bid_item_ok (bids b) /\ Forall ask_item_ok (asks b).

(** What the book of a matching engine satisfies in addition: on each
    side the arrival numbers are pairwise distinct and were all issued by
    the book's counter. *)
Definition book_wf (b : OrderBook) : Prop :=
  book_inv b
  /\ NoDup (map item_ts (bids b)) /\ NoDup (map item_ts (asks b))
  /\ Forall (fun it => item_ts it <= _counter b) (bids b)
  /\ Forall (fun it => item_ts it <= _counter b) (asks b).




(** [it] is the tuple [it0] after zero or more fills: the same key, the
    same price, arrival number and order, and no more remaining
    quantity. *)
Definition same_entry_filled (it0 it : item) : Prop :=
  fst it = fst it0
  /\ BookEntry.price (snd it) = BookEntry.price (snd it0)
  /\ BookEntry.timestamp (snd it) = BookEntry.timestamp (snd it0)
  /\ BookEntry.order (snd it) = BookEntry.order (snd it0)
  /\ BookEntry.remaining (snd it) <= BookEntry.remaining (snd it0).

(** Every tuple of [side] is a tuple of [side0] after zero or more
    fills. *)
Definition descends (side0 side : list item) : Prop :=
  forall it, it ∈ side -> exists it0, it0 ∈ side0 /\ same_entry_filled it0 it.

(** Steps 1 and 2 of [process_order]: the order is not rejected before
    the matching loop. *)
Definition passes_validation (order : Order.t) (eng : CDAEngine) : bool :=
  negb (Order.quantity order <=? 0)
  && (String.eqb (Order.order_type order) "market"
      || String.eqb (Order.order_type order) "limit")
  && ((Order.direction order =? 1) || (Order.direction order =? -1))
  && negb (String.eqb (Order.order_type order) "limit"
           && Qle_bool (Order.price order) 0)
  && negb (String.eqb (Order.order_type order) "limit"
           && negb (is_valid_price (pl_rule eng) (Order.price order)
                      (last_close_price eng))).

(** The remainder [remaining] of [order] rests on the book: between the
    book [b1] left by the matching loop and the final book [b'] the next
    arrival number was issued and one tuple was added to the side the
    order names, for an entry at the order's price with that arrival
    number and the remaining quantity. *)
Definition rests (order : Order.t) (remaining : Z) (b1 b' : OrderBook)
  : Prop :=
  let e := BookEntry.mk (Order.price order) (_counter b1 + 1)
             (Order.replace_quantity remaining order) remaining in
  _counter b' = _counter b1 + 1
  /\ if Order.direction order =? 1
     then bids b' ≡ₚ bid_item e :: bids b1 /\ asks b' = asks b1
     else asks b' ≡ₚ ask_item e :: asks b1 /\ bids b' = bids b1.

(** [process_order] called on each order of a list in turn, as the
    trading round does; returns all the trades. *)
Fixpoint process_orders (orders : list Order.t) : M CDAEngine (list Trade.t) :=
  match orders with
  | [] => ret []
  | order :: orders' =>
      bind (CDA.process_order order) (fun trades =>
      bind (process_orders orders') (fun trades' =>
      ret (trades ++ trades')))
  end.





(** ** Further functions of the same files and of their callers *)

(** [regulation/rules.py]: the settlement cycle. *)
Record SettlementCycleRule : Type := mkSettlementCycleRule {
  sc_enabled : bool;
  sc_cycle_type : string
}.

(** [SettlementCycleRule.settlement_lag] *)
Definition settlement_lag (self : SettlementCycleRule) : Z :=
  if sc_enabled self && String.eqb (sc_cycle_type self) "T+1" then 1 else 0.

(** [CDAEngine.get_market_snapshot] *)
Definition get_market_snapshot (self : CDAEngine) : option Q * option Q :=
  Book.snapshot (book self).

(** [AgentBase._make_cda_decision]; [id] and [order_size] are the
    attributes [self.id] and [self.order_size].  Every path of the
    function returns an [Order]. *)
Definition _make_cda_decision (id order_size : Z) (pr : Q)
    (bb ba : option Q) : Order.t :=
  if match ba with Some a => Qlt_bool a pr | None => false end then
    Order.mk id 1 "market" 0 order_size
  else if match bb with Some b => Qlt_bool pr b | None => false end then
    Order.mk id (-1) "market" 0 order_size
  else
    let mid :=
      match bb, ba with
      | Some b, Some a => ((1 # 2) * (b + a))%Q
      | _, _ => pr
      end in
    let direction := if Qle_bool mid pr then 1 else -1 in
    Order.mk id direction "limit" pr order_size.

(** [AgentBase.on_period_start], on the agent's account. *)
Definition on_period_start (current_period : Z) : M AccountState unit :=
  Account.process_settlements current_period.

(** *** Vocabulary of the further properties *)

(** The trace of a scheduler that starts a period at the settlement
    marker, [periods] periods before the end of the run: per period
    [rounds] times "trading", then "period_end", then "settlement", or
    "finished" after the last period. *)
Fixpoint expected_trace (rounds periods : nat) : list string :=
  match periods with
  | O => []
  | S m =>
      repeat "trading" rounds
      ++ "period_end"
         :: (match m with O => "finished" | S _ => "settlement" end)
         :: expected_trace rounds m
  end.

(** The calls a caller makes on an account between two valuations, and
    the account after a sequence of them.  A call that raises leaves the
    account as the exception left it, and the sequence goes on. *)
Inductive ledger_op : Type :=
  | ApplyTrade (cash_delta : Q) (stock_delta : Z)
      (current_time settlement_lag : Z) (enforce_budget : bool)
  | ProcessSettlements (current_time : Z).

Definition run_ledger_op (op : ledger_op) (st : AccountState) : AccountState :=
  match op with
  | ApplyTrade cd sd t lag enforce =>
      snd (Account.apply_trade cd sd t lag enforce st)
  | ProcessSettlements t => snd (Account.process_settlements t st)
  end.

Definition run_ledger (ops : list ledger_op) (st : AccountState)
  : AccountState :=
  fold_left (fun s op => run_ledger_op op s) ops st.

(** A transfer is due at [current_time]. *)
Definition due (current_time : Z) (tr : PendingTransfer) : bool :=
  current_time >=? release_time tr.

(** Settled plus pending stock: the stock baseline of the
    pending-inclusive budget basis. *)
Definition projected_stock (st : AccountState) : Z :=
  stock st + sum_stock (pending_transfers st).

(** Every [apply_trade] of the sequence enforces the budget. *)
Definition enforced (op : ledger_op) : Prop :=
  match op with
  | ApplyTrade _ _ _ _ enforce => enforce = true
  | ProcessSettlements _ => True
  end.

(** Every [apply_trade] of the sequence enforces the budget and settles
    at once. *)
Definition enforced_immediate (op : ledger_op) : Prop :=
  match op with
  | ApplyTrade _ _ _ lag enforce => enforce = true /\ lag = 0
  | ProcessSettlements _ => True
  end.

(** The side of the book an incoming order is matched against, and the
    side on which its remainder would rest. *)
Definition opposite_side (order : Order.t) (b : OrderBook) : list item :=
  if Order.direction order =? 1 then asks b else bids b.

Definition own_side (order : Order.t) (b : OrderBook) : list item :=
  if Order.direction order =? 1 then bids b else asks b.

(** The price [best_ask()] / [best_bid()] reads from the tuple at the
    root of the opposite side. *)
Definition quote_price (order : Order.t) (it : item) : Q :=
  if Order.direction order =? 1 then fst (fst it) else (- fst (fst it))%Q.

(** The crossing check of the matching loop stops the loop. *)
Definition does_not_cross (order : Order.t) (match_price : Q) : bool :=
  String.eqb (Order.order_type order) "limit"
  && (((Order.direction order =? 1)
       && Qlt_bool (Order.price order) match_price)
      || ((Order.direction order =? -1)
          && Qlt_bool match_price (Order.price order))).

(** The trade record built by one iteration of the matching loop. *)
Definition trade_of (order : Order.t) (eng : CDAEngine) (it : item)
    (qty : Z) : Trade.t :=
  Trade.mk (quote_price order it) qty
    (if Order.direction order =? 1 then Order.agent_id order
     else Order.agent_id (BookEntry.order (snd it)))
    (if Order.direction order =? 1
     then Order.agent_id (BookEntry.order (snd it))
     else Order.agent_id order)
    (calculate_tax (tt_rule eng) (quote_price order it) qty)
    (_trade_counter eng + 1).

(** Total quantity resting on a side, and total quantity of a list of
    trades. *)
Definition total_remaining (side : list item) : Z :=
  fold_right (fun it acc => BookEntry.remaining (snd it) + acc) 0 side.

Definition sum_quantity (trades : list Trade.t) : Z :=
  fold_right (fun t acc => Trade.quantity t + acc) 0 trades.

(** Every resting entry has a positive remaining quantity. *)
Definition book_pos (b : OrderBook) : Prop :=
  Forall (fun it => 0 < BookEntry.remaining (snd it)) (bids b)
  /\ Forall (fun it => 0 < BookEntry.remaining (snd it)) (asks b).

(** Every resting price passes the engine's price-limit check. *)
Definition prices_valid (eng : CDAEngine) : Prop :=
  Forall (fun it =>
            is_valid_price (pl_rule eng) (BookEntry.price (snd it))
              (last_close_price eng) = true) (bids (book eng))
  /\ Forall (fun it =>
               is_valid_price (pl_rule eng) (BookEntry.price (snd it))
                 (last_close_price eng) = true) (asks (book eng)).

(** No resting bid is at or above a resting ask. *)
Definition uncrossed (b : OrderBook) : Prop :=
  forall eb ea, eb ∈ resting (bids b) -> ea ∈ resting (asks b) ->
                (BookEntry.price eb < BookEntry.price ea)%Q.

(** What holds of a trade executed for [order] by an engine with the
    rules of [eng] against the resting tuples [side0]: its price passed
    the price-limit check and the crossing check, its tax is the rule's
    tax on its price and quantity, and it was executed at the quote of a
    tuple of [side0], for no more than that tuple's quantity, between
    the order's agent and that tuple's agent. *)
Definition trade_ok (order : Order.t) (eng : CDAEngine) (side0 : list item)
    (t : Trade.t) : Prop :=
  is_valid_price (pl_rule eng) (Trade.price t) (last_close_price eng) = true
  /\ does_not_cross order (Trade.price t) = false
  /\ Trade.tax_amount t
     = calculate_tax (tt_rule eng) (Trade.price t) (Trade.quantity t)
  /\ exists it,
       it ∈ side0
       /\ Trade.price t = quote_price order it
       /\ Trade.quantity t <= BookEntry.remaining (snd it)
       /\ Trade.buyer_id t
          = (if Order.direction order =? 1 then Order.agent_id order
             else Order.agent_id (BookEntry.order (snd it)))
       /\ Trade.seller_id t
          = (if Order.direction order =? 1
             then Order.agent_id (BookEntry.order (snd it))
             else Order.agent_id order).

(** The loop has stopped on the book [b] although quantity is left: the
    opposite side is empty, or its best quote is not crossed or fails
    the price-limit check. *)
Definition loop_blocked (order : Order.t) (eng : CDAEngine) : Prop :=
  match opposite_side order (book eng) with
  | [] => True
  | it :: _ =>
      does_not_cross order (quote_price order it)
      || negb (is_valid_price (pl_rule eng) (quote_price order it)
                 (last_close_price eng)) = true
  end.

(** The relation between the engine [eng] and quantity [rem] at the
    start of the matching loop and the engine [eng'], the quantity
    [rem'] and the trades [new] it leaves. *)
Definition loop_post (order : Order.t) (eng : CDAEngine) (rem rem' : Z)
    (new : list Trade.t) (eng' : CDAEngine) : Prop :=
  book_wf (book eng')
  /\ _counter (book eng') = _counter (book eng)
  /\ pl_rule eng' = pl_rule eng
  /\ tt_rule eng' = tt_rule eng
  /\ last_close_price eng' = last_close_price eng
  /\ own_side order (book eng') = own_side order (book eng)
  /\ descends (opposite_side order (book eng))
       (opposite_side order (book eng'))
  /\ _trade_counter eng' = _trade_counter eng + Z.of_nat (length new)
  /\ trades_this_period eng' = trades_this_period eng ++ new
  /\ last_transaction_price eng'
     = match last new with
       | Some t => Some (Trade.price t)
       | None => last_transaction_price eng
       end
  /\ (forall i t, new !! i = Some t ->
        Trade.timestamp t = _trade_counter eng + 1 + Z.of_nat i)
  /\ rem' = rem - sum_quantity new
  /\ total_remaining (opposite_side order (book eng'))
     = total_remaining (opposite_side order (book eng)) - sum_quantity new
  /\ Forall (trade_ok order eng (opposite_side order (book eng))) new
  /\ (0 < rem' -> loop_blocked order eng')
  /\ (book_pos (book eng) ->
      book_pos (book eng')
      /\ Forall (fun t => 0 < Trade.quantity t) new
      /\ (0 <= rem -> 0 <= rem')).

(** The invariant of the engine's book during a trading period. *)
Definition market_inv (eng : CDAEngine) : Prop :=
  book_wf (book eng) /\ book_pos (book eng)
  /\ prices_valid eng /\ uncrossed (book eng).

(** The remainder of [order] rests after the trades [trades]. *)
Definition remainder_rests (order : Order.t) (eng : CDAEngine)
    (trades : list Trade.t) : bool :=
  passes_validation order eng
  && (sum_quantity trades <? Order.quantity order)
  && Qlt_bool 0 (Order.price order)
  && is_valid_price (pl_rule eng) (Order.price order) (last_close_price eng).

(** The prices of successive trades never improve for the incoming
    order: they do not fall for a buy order and do not rise for any
    other. *)
Definition prices_walk (order : Order.t) (trades : list Trade.t) : Prop :=
  forall i t t',
    trades !! i = Some t -> trades !! S i = Some t' ->
    if Order.direction order =? 1
    then (Trade.price t <= Trade.price t')%Q
    else (Trade.price t' <= Trade.price t)%Q.

(** * Properties *)

(** ** The scheduler *)

Local Open Scope string_scope.
Local Open Scope list_scope.
Local Open Scope Z_scope.

(** With a non-negative number of rounds the pre-run value [-1] of
    [current_round] matches none of the four guarded cases of [step]: the
    call falls through to the last [return] and changes nothing. *)
Lemma step_initial_state (total_periods rounds_per_period : Z) :
  0 <= rounds_per_period ->
  Timeline.step (Timeline.init total_periods rounds_per_period)
  = ("finished", Timeline.init total_periods rounds_per_period).
Proof.
  intros Hr. destruct rounds_per_period as [|r|r]; [reflexivity|reflexivity|lia].
Qed.

Lemma trace_initial_state (total_periods rounds_per_period : Z) (n : nat) :
  0 <= rounds_per_period ->
  Timeline.trace n (Timeline.init total_periods rounds_per_period)
  = repeat "finished" n.
Proof.
  intros Hr. induction n as [|n IH]; [reflexivity|].
  cbn [Timeline.trace repeat]. rewrite step_initial_state by exact Hr.
  now rewrite IH.
Qed.

(** C1.  What the code does on the scheduler trace of the claim: with
    [total_periods = 2] and [rounds_per_period = 3], each of the eleven
    successive calls of [step] on a freshly constructed scheduler returns
    "finished" -- the first call included -- and the [finished] flag is
    never set.  No "settlement", "trading" or "period_end" is emitted. *)
Theorem timeline_trace_2_3 :
  Timeline.trace 11 (Timeline.init 2 3)
  = ["finished"; "finished"; "finished"; "finished"; "finished"; "finished";
     "finished"; "finished"; "finished"; "finished"; "finished"]
  /\ fst (Timeline.step (Timeline.init 2 3)) = "finished"
  /\ Timeline.finished (Timeline.run 11 (Timeline.init 2 3)) = false
  /\ Timeline.trace 11 (Timeline.init 2 3)
     <> ["settlement"; "trading"; "trading"; "trading"; "period_end";
         "settlement"; "trading"; "trading"; "trading"; "period_end";
         "finished"].
Proof.
  repeat split; try reflexivity. discriminate.
Qed.

(** ** The account ledger *)

Lemma baseline_state (st : AccountState) :
  snd (Account.baseline st) = st.
Proof.
  unfold Account.baseline, bind, get, ret, raise.
  destruct (String.eqb (budget_policy st) "strict_available"); [reflexivity|].
  destruct (String.eqb (budget_policy st) "include_pending"); reflexivity.
Qed.

(** [check_budget_constraint] never changes the account, whatever its
    outcome. *)
Lemma check_budget_constraint_pure (cd : Q) (sd : Z) (st : AccountState) :
  snd (Account.check_budget_constraint cd sd st) = st.
Proof.
  unfold Account.check_budget_constraint, bind.
  pose proof (baseline_state st) as H.
  destruct (Account.baseline st) as [[b| |] s]; cbn in *; subst; reflexivity.
Qed.

Lemma baseline_unknown_policy (st : AccountState) :
  budget_policy st <> "strict_available" ->
  budget_policy st <> "include_pending" ->
  Account.baseline st = (Raises ValueError, st).
Proof.
  intros H1 H2. unfold Account.baseline, bind, get, raise.
  apply String.eqb_neq in H1. apply String.eqb_neq in H2.
  now rewrite H1, H2.
Qed.

(** C4, counterexample.  Building an account with the unrecognised policy
    name "margin" returns an account; nothing is raised. *)
Lemma account_init_unknown_policy_returns :
  "margin" <> "strict_available" /\ "margin" <> "include_pending"
  /\ Account.init 100 10 "margin" true true
     = Returns (mkAccountState 100 10 [] "margin" true true None)
  /\ ~ (exists e, Account.init 100 10 "margin" true true = Raises e).
Proof.
  repeat split; try discriminate.
  intros [e He]. discriminate He.
Qed.

Lemma settle_loop_budget_policy ct l : forall self rem,
  budget_policy (fst (Account.settle_loop ct l self rem)) = budget_policy self.
Proof.
  induction l as [|tr l IH]; intros self rem; cbn; [reflexivity|].
  destruct (ct >=? release_time tr); now rewrite IH.
Qed.

Lemma check_unknown_policy (cd : Q) (sd : Z) (st : AccountState) :
  budget_policy st <> "strict_available" ->
  budget_policy st <> "include_pending" ->
  Account.check_budget_constraint cd sd st = (Raises ValueError, st).
Proof.
  intros H1 H2. unfold Account.check_budget_constraint, bind.
  now rewrite baseline_unknown_policy.
Qed.

(** C4, as the code has it.  For every budget-policy name that is neither
    "strict_available" nor "include_pending", construction returns an
    account that stores the name unchecked; the [ValueError] is raised
    later, by every call of [check_budget_constraint] and by every call of
    [apply_trade] that enforces the budget, and such a call leaves the
    account unchanged.  This holds of every account that carries the
    name, not only of the one just built: no method changes the name, so
    after any trades applied without the budget check, settlements and
    valuations the same calls still raise. *)
Theorem unknown_policy_error_is_deferred
    (initial_cash : Q) (initial_stock : Z) (name : string)
    (equity exposure : bool) :
  name <> "strict_available" ->
  name <> "include_pending" ->
  exists st,
    Account.init initial_cash initial_stock name equity exposure = Returns st
    /\ budget_policy st = name
    /\ (forall cd sd,
          Account.check_budget_constraint cd sd st = (Raises ValueError, st))
    /\ (forall cd sd t lag,
          Account.apply_trade cd sd t lag true st = (Raises ValueError, st))
    /\ (forall st' : AccountState,
          budget_policy st' = name ->
          (forall cd sd,
              Account.check_budget_constraint cd sd st'
              = (Raises ValueError, st'))
          /\ (forall cd sd t lag,
                Account.apply_trade cd sd t lag true st'
                = (Raises ValueError, st'))
          /\ (forall cd sd t lag,
                exists st'',
                  Account.apply_trade cd sd t lag false st'
                  = (Returns tt, st'')
                  /\ budget_policy st'' = name)
          /\ (forall ct,
                exists st'',
                  Account.process_settlements ct st' = (Returns tt, st'')
                  /\ budget_policy st'' = name)
          /\ (forall price,
                exists w st'',
                  Account.update_wealth_stats price st' = (Returns w, st'')
                  /\ budget_policy st'' = name)).
Proof.
  intros H1 H2.
  assert (Hc : forall cd sd st,
             budget_policy st = name ->
             Account.check_budget_constraint cd sd st = (Raises ValueError, st)).
  { intros cd sd st Hst. apply check_unknown_policy; now rewrite Hst. }
  assert (Ha : forall cd sd t lag st,
             budget_policy st = name ->
             Account.apply_trade cd sd t lag true st = (Raises ValueError, st)).
  { intros cd sd t lag st Hst. unfold Account.apply_trade, bind.
    now rewrite Hc. }
  eexists. split; [reflexivity|]. split; [reflexivity|].
  split; [intros cd sd; now apply Hc|].
  split; [intros cd sd t lag; now apply Ha|].
  intros st' Hst'.
  split; [intros cd sd; now apply Hc|].
  split; [intros cd sd t lag; now apply Ha|].
  split; [|split].
  - intros cd sd t lag. unfold Account.apply_trade, bind, modify, ret.
    destruct (lag =? 0); eexists; (split; [reflexivity|exact Hst']).
  - intros ct. unfold Account.process_settlements, bind, get, put, ret.
    destruct (pending_transfers st') as [|tr l] eqn:E.
    + eexists. split; [reflexivity|exact Hst'].
    + destruct (Account.settle_loop ct (tr :: l) st' []) as [self' rem] eqn:El.
      eexists. split; [reflexivity|].
      cbn [budget_policy set_pending_transfers].
      pose proof (settle_loop_budget_policy ct (tr :: l) st' []) as Hp.
      rewrite El in Hp. cbn [fst] in Hp. now rewrite Hp.
  - intros price. unfold Account.update_wealth_stats, bind, get, put, ret.
    eexists _, _. split; [reflexivity|exact Hst'].
Qed.

Lemma unknown_policy_error_is_deferred_witness :
  "margin" <> "strict_available" /\ "margin" <> "include_pending"
  /\ exists st,
       Account.init 100 10 "margin" true true = Returns st
       /\ budget_policy st = "margin"
       /\ (forall cd sd,
             Account.check_budget_constraint cd sd st
             = (Raises ValueError, st))
       /\ (forall cd sd t lag,
             Account.apply_trade cd sd t lag true st
             = (Raises ValueError, st))
       /\ Account.check_budget_constraint 0 0
            (snd (Account.update_wealth_stats 10
                    (snd (Account.apply_trade (-50) 1 3 1 false st))))
          = (Raises ValueError,
             snd (Account.update_wealth_stats 10
                    (snd (Account.apply_trade (-50) 1 3 1 false st)))).
Proof.
  split; [discriminate|]. split; [discriminate|].
  destruct (unknown_policy_error_is_deferred 100 10 "margin" true true)
    as (st & Hinit & Hname & Hchk & Happ & Hall);
    [discriminate|discriminate|].
  exists st. split; [exact Hinit|]. split; [exact Hname|].
  split; [exact Hchk|]. split; [exact Happ|].
  destruct (proj1 (proj2 (proj2 (Hall st Hname))) (-50)%Q 1 3 1)
    as (st1 & Hrun1 & Hname1).
  rewrite Hrun1. cbn [snd].
  destruct (proj2 (proj2 (proj2 (proj2 (Hall st1 Hname1)))) 10%Q)
    as (w & st2 & Hrun2 & Hname2).
  rewrite Hrun2. cbn [snd]. apply (proj1 (Hall st2 Hname2)).
Defined.

(** C5.  [apply_trade] with [enforce_budget = true]: when the budget check
    is false the call raises and cash, stock and the pending list are
    unchanged (the whole account is); when the check is true, a zero lag
    adds the deltas to cash and stock at once and leaves the pending list
    alone, and a positive lag leaves cash and stock alone and appends the
    single transfer [(current_time + lag, cash_delta, stock_delta)]. *)
Theorem apply_trade_enforced
    (st : AccountState) (cd : Q) (sd : Z) (t lag : Z) :
  (fst (Account.check_budget_constraint cd sd st) = Returns false ->
   Account.apply_trade cd sd t lag true st = (Raises ValueError, st))
  /\ (fst (Account.check_budget_constraint cd sd st) = Returns true ->
      lag = 0 ->
      Account.apply_trade cd sd t lag true st
      = (Returns tt,
         mkAccountState (cash st + cd)%Q (stock st + sd)
           (pending_transfers st) (budget_policy st)
           (equity_includes_pending st) (exposure_includes_pending st)
           (last_wealth st)))
  /\ (fst (Account.check_budget_constraint cd sd st) = Returns true ->
      0 < lag ->
      Account.apply_trade cd sd t lag true st
      = (Returns tt,
         mkAccountState (cash st) (stock st)
           (pending_transfers st ++ [mkPendingTransfer (t + lag) cd sd])
           (budget_policy st)
           (equity_includes_pending st) (exposure_includes_pending st)
           (last_wealth st))).
Proof.
  pose proof (check_budget_constraint_pure cd sd st) as Hp.
  unfold Account.apply_trade, bind.
  destruct (Account.check_budget_constraint cd sd st) as [o s].
  cbn in Hp. subst s. cbn [fst].
  split; [|split].
  - intros ->. reflexivity.
  - intros -> ->. reflexivity.
  - intros -> Hlag. cbn.
    destruct (lag =? 0) eqn:E; [apply Z.eqb_eq in E; lia|]. reflexivity.
Qed.

Lemma apply_trade_enforced_witness :
  Account.apply_trade (-50) 1 3 0 true
    (mkAccountState 10 0 [] "strict_available" true true None)
  = (Raises ValueError, mkAccountState 10 0 [] "strict_available" true true None)
  /\ Account.apply_trade (-50) 1 3 0 true
       (mkAccountState 100 0 [] "strict_available" true true None)
     = (Returns tt,
        mkAccountState (100 + -50)%Q (0 + 1) [] "strict_available"
          true true None)
  /\ Account.apply_trade (-50) 1 3 1 true
       (mkAccountState 100 0 [] "include_pending" true true None)
     = (Returns tt,
        mkAccountState 100 0 ([] ++ [mkPendingTransfer (3 + 1) (-50) 1])
          "include_pending" true true None).
Proof.
  split; [|split].
  - apply (apply_trade_enforced
             (mkAccountState 10 0 [] "strict_available" true true None)
             (-50) 1 3 0).
    reflexivity.
  - apply (apply_trade_enforced
             (mkAccountState 100 0 [] "strict_available" true true None)
             (-50) 1 3 0); reflexivity.
  - apply (apply_trade_enforced
             (mkAccountState 100 0 [] "include_pending" true true None)
             (-50) 1 3 1); reflexivity.
Defined.





(** *** Deferred settlement *)

(** The loop of [process_settlements] touches cash and stock only. *)
Lemma settle_loop_policy ct l : forall self rem,
  budget_policy (fst (Account.settle_loop ct l self rem)) = budget_policy self
  /\ equity_includes_pending (fst (Account.settle_loop ct l self rem))
     = equity_includes_pending self
  /\ exposure_includes_pending (fst (Account.settle_loop ct l self rem))
     = exposure_includes_pending self
  /\ last_wealth (fst (Account.settle_loop ct l self rem)) = last_wealth self.
Proof.
  induction l as [|tr l IH]; intros self rem; cbn; [tauto|].
  destruct (ct >=? release_time tr); [|apply IH].
  destruct (IH (set_stock (stock self + stock_delta tr)
                  (set_cash (cash self + cash_delta tr)%Q self)) rem)
    as (H1 & H2 & H3 & H4).
  cbn in *. tauto.
Qed.

Lemma settle_loop_app ct l1 : forall l2 self rem,
  Account.settle_loop ct (l1 ++ l2) self rem
  = Account.settle_loop ct l2
      (fst (Account.settle_loop ct l1 self rem))
      (snd (Account.settle_loop ct l1 self rem)).
Proof.
  induction l1 as [|tr l1 IH]; intros l2 self rem; cbn; [reflexivity|].
  destruct (ct >=? release_time tr); apply IH.
Qed.

(** The balances computed by the loop depend neither on the pending list
    stored in the object nor on the accumulator [remaining]. *)
Lemma settle_loop_balances ct l : forall self self' rem rem',
  cash self = cash self' -> stock self = stock self' ->
  cash (fst (Account.settle_loop ct l self rem))
  = cash (fst (Account.settle_loop ct l self' rem'))
  /\ stock (fst (Account.settle_loop ct l self rem))
     = stock (fst (Account.settle_loop ct l self' rem')).
Proof.
  induction l as [|tr l IH]; intros self self' rem rem' Hc Hs; cbn; [tauto|].
  destruct (ct >=? release_time tr); apply IH; cbn; congruence.
Qed.

Lemma settle_loop_remaining ct l : forall self self' rem,
  snd (Account.settle_loop ct l self rem)
  = rem ++ snd (Account.settle_loop ct l self' []).
Proof.
  induction l as [|tr l IH]; intros self self' rem; cbn.
  - now rewrite app_nil_r.
  - destruct (ct >=? release_time tr).
    + apply IH.
    + rewrite (IH self self' (rem ++ [tr])), (IH self' self' [tr]).
      now rewrite <- app_assoc.
Qed.

(** Every transfer the loop keeps is one that is not yet due. *)
Lemma settle_loop_keeps_undue ct l : forall self rem,
  Forall (fun tr => (ct >=? release_time tr) = false) rem ->
  Forall (fun tr => (ct >=? release_time tr) = false)
    (snd (Account.settle_loop ct l self rem)).
Proof.
  induction l as [|tr l IH]; intros self rem Hrem; cbn; [exact Hrem|].
  destruct (ct >=? release_time tr) eqn:E; apply IH; [exact Hrem|].
  apply Forall_app. split; [exact Hrem|]. constructor; [exact E|constructor].
Qed.

(** On a list none of whose transfers is due, the loop changes nothing. *)
Lemma settle_loop_undue ct l : forall self rem,
  Forall (fun tr => (ct >=? release_time tr) = false) l ->
  Account.settle_loop ct l self rem = (self, rem ++ l).
Proof.
  induction l as [|tr l IH]; intros self rem Hl; cbn.
  - now rewrite app_nil_r.
  - inversion Hl as [|? ? Htr Hl']; subst. rewrite Htr.
    rewrite IH by exact Hl'. now rewrite <- app_assoc.
Qed.

Lemma settle_loop_one_undue ct tr self rem :
  (ct >=? release_time tr) = false ->
  Account.settle_loop ct [tr] self rem = (self, rem ++ [tr]).
Proof. intros H. cbn. now rewrite H. Qed.

Lemma settle_loop_one_due ct tr self rem :
  (ct >=? release_time tr) = true ->
  Account.settle_loop ct [tr] self rem
  = (set_stock (stock self + stock_delta tr)
       (set_cash (cash self + cash_delta tr)%Q self), rem).
Proof. intros H. cbn. now rewrite H. Qed.

Lemma set_pending_transfers_id (st : AccountState) :
  set_pending_transfers (pending_transfers st) st = st.
Proof. now destruct st. Qed.

(** [process_settlements] always returns, and its effect is that of the
    loop run from an empty [remaining]; the early [return] on an empty
    pending list is the same effect. *)
Lemma process_settlements_eq ct (st : AccountState) :
  Account.process_settlements ct st
  = (Returns tt,
     set_pending_transfers
       (snd (Account.settle_loop ct (pending_transfers st) st []))
       (fst (Account.settle_loop ct (pending_transfers st) st []))).
Proof.
  unfold Account.process_settlements, bind, get, ret, put.
  destruct (pending_transfers st) as [|tr l] eqn:E.
  - cbn. rewrite <- E. now rewrite set_pending_transfers_id.
  - now destruct (Account.settle_loop ct (tr :: l) st []).
Qed.

(** C7.  A transfer created by [apply_trade] with lag [1] at period [t]
    is settled exactly once.  The call changes no balance and appends the
    transfer.  [process_settlements t] then applies nothing of it and
    keeps it: the account is what settling at [t] without the transfer
    gives, with the transfer still last in the pending list (on an account
    with no other pending transfer the call changes nothing at all).
    [process_settlements (t + 1)] adds its two deltas once to what
    settling at [t + 1] without it gives, and drops it from the pending
    list.  A second [process_settlements (t + 1)] changes nothing. *)
Theorem pending_transfer_settled_once
    (st st1 : AccountState) (cd : Q) (sd : Z) (t : Z) (enforce : bool) :
  Account.apply_trade cd sd t 1 enforce st = (Returns tt, st1) ->
  let tr := mkPendingTransfer (t + 1) cd sd in
  let sA := snd (Account.process_settlements t st) in
  let sA1 := snd (Account.process_settlements t st1) in
  let sB := snd (Account.process_settlements (t + 1) st) in
  let sB1 := snd (Account.process_settlements (t + 1) st1) in
  (cash st1 = cash st /\ stock st1 = stock st
   /\ pending_transfers st1 = pending_transfers st ++ [tr])
  /\ (fst (Account.process_settlements t st1) = Returns tt
      /\ cash sA1 = cash sA /\ stock sA1 = stock sA
      /\ pending_transfers sA1 = pending_transfers sA ++ [tr])
  /\ (pending_transfers st = [] -> sA1 = st1)
  /\ (fst (Account.process_settlements (t + 1) st1) = Returns tt
      /\ cash sB1 = (cash sB + cd)%Q /\ stock sB1 = stock sB + sd
      /\ pending_transfers sB1 = pending_transfers sB)
  /\ (pending_transfers st = [] -> pending_transfers sB1 = [])
  /\ Account.process_settlements (t + 1) sB1 = (Returns tt, sB1).
Proof.
  intros Happly tr sA sA1 sB sB1.
  assert (Hst1 : st1 = set_pending_transfers (pending_transfers st ++ [tr]) st).
  { unfold Account.apply_trade, bind in Happly.
    destruct enforce.
    - pose proof (check_budget_constraint_pure cd sd st) as Hp.
      destruct (Account.check_budget_constraint cd sd st) as [[b| |] s];
        cbn in Hp; subst s; try discriminate.
      destruct b; cbn in Happly; [|discriminate]. now inversion Happly.
    - cbn in Happly. now inversion Happly. }
  assert (Hdue : (t + 1 >=? release_time tr) = true).
  { cbn. apply Z.geb_le. lia. }
  assert (Hundue : (t >=? release_time tr) = false).
  { cbn. rewrite Z.geb_leb. apply Z.leb_gt. lia. }
  subst sA sA1 sB sB1. rewrite !process_settlements_eq. cbn [fst snd].
  subst st1. cbn [pending_transfers set_pending_transfers cash stock].
  rewrite !settle_loop_app.
  set (P := pending_transfers st).
  set (st' := set_pending_transfers (P ++ [tr]) st).
  assert (HbalA := settle_loop_balances t P st' st [] [] eq_refl eq_refl).
  assert (HbalB := settle_loop_balances (t + 1) P st' st [] [] eq_refl eq_refl).
  assert (HremA := settle_loop_remaining t P st' st []).
  assert (HremB := settle_loop_remaining (t + 1) P st' st []).
  cbn [app] in HremA, HremB.
  split; [auto|].
  split.
  { rewrite (settle_loop_one_undue t tr) by exact Hundue. cbn.
    rewrite HremA. tauto. }
  split.
  { intros HP. rewrite (settle_loop_one_undue t tr) by exact Hundue.
    unfold st'. rewrite HP. reflexivity. }
  split.
  { rewrite (settle_loop_one_due (t + 1) tr) by exact Hdue. cbn.
    destruct HbalB as [-> ->]. rewrite HremB. tauto. }
  split.
  { intros HP. rewrite (settle_loop_one_due (t + 1) tr) by exact Hdue.
    rewrite HP. reflexivity. }
  rewrite (settle_loop_one_due (t + 1) tr) by exact Hdue.
  cbn [fst snd pending_transfers set_pending_transfers set_stock set_cash].
  set (R := snd (Account.settle_loop (t + 1) P st' [])).
  assert (HR : Forall (fun x => (t + 1 >=? release_time x) = false) R).
  { apply settle_loop_keeps_undue. constructor. }
  rewrite settle_loop_undue by exact HR. reflexivity.
Qed.

Lemma pending_transfer_settled_once_witness :
  let st := mkAccountState 100 0 [] "include_pending" true true None in
  let st1 :=
    mkAccountState 100 0 [mkPendingTransfer 4 (-50) 1]
      "include_pending" true true None in
  Account.apply_trade (-50) 1 3 1 true st = (Returns tt, st1)
  /\ snd (Account.process_settlements 3 st1) = st1
  /\ pending_transfers (snd (Account.process_settlements 4 st1)) = []
  /\ Account.process_settlements 4 (snd (Account.process_settlements 4 st1))
     = (Returns tt, snd (Account.process_settlements 4 st1)).
Proof.
  intros st st1.
  assert (H : Account.apply_trade (-50) 1 3 1 true st = (Returns tt, st1))
    by reflexivity.
  split; [exact H|].
  pose proof (pending_transfer_settled_once st st1 (-50) 1 3 true H)
    as (_ & _ & HA & _ & HB & HC).
  split; [apply HA; reflexivity|].
  split; [apply HB; reflexivity|exact HC].
Defined.

(** ** The order book: popping an empty side *)

(** C10.  On a book whose bid side is empty [pop_best_bid] raises (the
    [IndexError] of [list.pop] on an empty list) and leaves the book as it
    was, whereas [best_bid] and [peek_best_bid] return [None]; the same on
    the ask side with [pop_best_ask], [best_ask] and [peek_best_ask]. *)
Theorem pop_on_empty_side_raises (b : OrderBook) :
  (bids b = [] ->
   Book.pop_best_bid b = (Raises IndexError, b)
   /\ Book.best_bid b = None /\ Book.peek_best_bid b = None)
  /\ (asks b = [] ->
      Book.pop_best_ask b = (Raises IndexError, b)
      /\ Book.best_ask b = None /\ Book.peek_best_ask b = None).
Proof.
  destruct b as [bs as_ c].
  unfold Book.pop_best_bid, Book.pop_best_ask, Book.best_bid, Book.best_ask,
    Book.peek_best_bid, Book.peek_best_ask, Book.on_bids, Book.on_asks,
    on_field, bind.
  split; cbn; intros ->; cbn; auto.
Qed.

Lemma pop_on_empty_side_raises_witness :
  (Book.pop_best_bid Book.init = (Raises IndexError, Book.init)
   /\ Book.best_bid Book.init = None /\ Book.peek_best_bid Book.init = None)
  /\ (Book.pop_best_ask Book.init = (Raises IndexError, Book.init)
      /\ Book.best_ask Book.init = None /\ Book.peek_best_ask Book.init = None).
Proof.
  split.
  - apply (proj1 (pop_on_empty_side_raises Book.init)). reflexivity.
  - apply (proj2 (pop_on_empty_side_raises Book.init)). reflexivity.
Defined.

(** ** The matching engine on the three-order scenario *)

(** C3.  On an engine whose book is empty and whose price-limit rule
    accepts the prices 10 and 9: a buy limit of 5 at 10 returns no trade
    and leaves [best_bid = 10]; a sell limit of 3 at 9 then returns one
    trade at price 10 for quantity 3 and leaves the bid at the top with
    remaining quantity 2 under the arrival number it was given when it
    was first inserted; a sell limit of 4 at 10 then returns one trade at
    price 10 for quantity 2, empties the bid side and leaves one resting
    ask of quantity 2 at price 10. *)
Theorem three_order_scenario (eng : CDAEngine) (a1 a2 a3 : Z) :
  bids (book eng) = [] ->
  asks (book eng) = [] ->
  is_valid_price (pl_rule eng) 10 (last_close_price eng) = true ->
  is_valid_price (pl_rule eng) 9 (last_close_price eng) = true ->
  let buy := Order.mk a1 1 "limit" 10 5 in
  let sell1 := Order.mk a2 (-1) "limit" 9 3 in
  let sell2 := Order.mk a3 (-1) "limit" 10 4 in
  exists eng1 eng2 eng3 first_entry trade1 trade2,
    CDA.process_order buy eng = (Returns [], eng1)
    /\ Book.best_bid (book eng1) = Some 10%Q
    /\ Book.peek_best_bid (book eng1) = Some first_entry
    /\ BookEntry.remaining first_entry = 5
    /\ CDA.process_order sell1 eng1 = (Returns [trade1], eng2)
    /\ Trade.price trade1 = 10%Q /\ Trade.quantity trade1 = 3
    /\ Book.best_bid (book eng2) = Some 10%Q
    /\ Book.peek_best_bid (book eng2)
       = Some (BookEntry.set_remaining 2 first_entry)
    /\ bids (book eng2)
       = [((-10)%Q, BookEntry.timestamp first_entry,
           BookEntry.set_remaining 2 first_entry)]
    /\ asks (book eng2) = []
    /\ CDA.process_order sell2 eng2 = (Returns [trade2], eng3)
    /\ Trade.price trade2 = 10%Q /\ Trade.quantity trade2 = 2
    /\ bids (book eng3) = []
    /\ Book.best_ask (book eng3) = Some 10%Q
    /\ (exists ts,
          asks (book eng3)
          = [(10%Q, ts, BookEntry.mk 10 ts (Order.mk a3 (-1) "limit" 10 2) 2)]).
Proof.
  destruct eng as [[bs as_ c] pl tt lc tc ltp tp]. cbn [book bids asks pl_rule last_close_price].
  intros -> -> H10 H9.
  do 6 eexists.
  split.
  { cbv -[is_valid_price]. rewrite H10. cbv -[is_valid_price]. rewrite H10.
    reflexivity. }
  split; [reflexivity|]. split; [reflexivity|]. split; [reflexivity|].
  split.
  { cbv -[is_valid_price]. rewrite H9. cbv -[is_valid_price]. rewrite H10.
    cbv -[is_valid_price]. rewrite H9. reflexivity. }
  split; [reflexivity|]. split; [reflexivity|]. split; [reflexivity|].
  split; [reflexivity|]. split; [reflexivity|]. split; [reflexivity|].
  split.
  { cbv -[is_valid_price]. rewrite H10. cbv -[is_valid_price]. rewrite H10.
    cbv -[is_valid_price]. rewrite H10. reflexivity. }
  split; [reflexivity|]. split; [reflexivity|]. split; [reflexivity|].
  split; [reflexivity|]. eexists. reflexivity.
Qed.

Lemma three_order_scenario_witness :
  exists eng1 eng2 eng3 first_entry trade1 trade2,
    CDA.process_order (Order.mk 1 1 "limit" 10 5)
      (CDA.init (Some 10%Q) (mkPriceLimitRule true (1 # 10))
         (mkTransactionTaxRule true (1 # 1000)))
    = (Returns [], eng1)
    /\ Book.best_bid (book eng1) = Some 10%Q
    /\ Book.peek_best_bid (book eng1) = Some first_entry
    /\ BookEntry.remaining first_entry = 5
    /\ CDA.process_order (Order.mk 2 (-1) "limit" 9 3) eng1
       = (Returns [trade1], eng2)
    /\ Trade.price trade1 = 10%Q /\ Trade.quantity trade1 = 3
    /\ Book.best_bid (book eng2) = Some 10%Q
    /\ Book.peek_best_bid (book eng2)
       = Some (BookEntry.set_remaining 2 first_entry)
    /\ bids (book eng2)
       = [((-10)%Q, BookEntry.timestamp first_entry,
           BookEntry.set_remaining 2 first_entry)]
    /\ asks (book eng2) = []
    /\ CDA.process_order (Order.mk 3 (-1) "limit" 10 4) eng2
       = (Returns [trade2], eng3)
    /\ Trade.price trade2 = 10%Q /\ Trade.quantity trade2 = 2
    /\ bids (book eng3) = []
    /\ Book.best_ask (book eng3) = Some 10%Q
    /\ (exists ts,
          asks (book eng3)
          = [(10%Q, ts, BookEntry.mk 10 ts (Order.mk 3 (-1) "limit" 10 2) 2)]).
Proof.
  apply (three_order_scenario
           (CDA.init (Some 10%Q) (mkPriceLimitRule true (1 # 10))
              (mkTransactionTaxRule true (1 # 1000))) 1 2 3);
    reflexivity.
Defined.

(** ** The [heapq] routines keep the heap invariant *)

Lemma parent_cases (i : nat) :
  (0 < i)%nat -> (i = 2 * parent i + 1 \/ i = 2 * parent i + 2)%nat.
Proof.
  unfold parent. intros H.
  pose proof (Nat.div_mod_eq (i - 1) 2) as E.
  pose proof (Nat.mod_upper_bound (i - 1) 2) as B.
  lia.
Qed.

Lemma parent_lt (i : nat) : (0 < i)%nat -> (parent i < i)%nat.
Proof. intros H. pose proof (parent_cases i H). lia. Qed.

Lemma parent_child_cases (c pos : nat) :
  (0 < c)%nat -> parent c = pos -> (c = 2 * pos + 1 \/ c = 2 * pos + 2)%nat.
Proof. intros H <-. now apply parent_cases. Qed.

Lemma parent_left (pos : nat) : parent (2 * pos + 1) = pos.
Proof.
  pose proof (parent_cases (2 * pos + 1)%nat ltac:(lia)). lia.
Qed.

Lemma parent_right (pos : nat) : parent (2 * pos + 2) = pos.
Proof.
  pose proof (parent_cases (2 * pos + 2)%nat ltac:(lia)). lia.
Qed.

Section HeapqTheory.

Context {A : Type}.
Variable lt : A -> A -> outcome bool.
Variable le : A -> A -> Prop.

Hypothesis le_refl : forall a, le a a.
Hypothesis le_trans : forall a b c, le a b -> le b c -> le a c.
Hypothesis lt_outcome :
  forall a b, (exists r, lt a b = Returns r) \/ lt a b = Raises TypeError.
Hypothesis lt_true : forall a b, lt a b = Returns true -> le a b.
Hypothesis lt_false : forall a b, lt a b = Returns false -> le b a.

Local Open Scope nat_scope.

(** One iteration of the loops, with the monad unfolded. *)
Lemma siftdown_loop_unfold fuel startpos pos newitem (h : list A) :
  siftdown_loop lt fuel startpos pos newitem h
  = if startpos <? pos then
      match fuel with
      | O => (OutOfFuel, h)
      | S fuel' =>
          match h !! parent pos with
          | None => (Raises IndexError, h)
          | Some p =>
              match lt newitem p with
              | Returns true =>
                  if pos <? length h
                  then siftdown_loop lt fuel' startpos (parent pos) newitem
                         (<[pos := p]> h)
                  else (Raises IndexError, h)
              | Returns false => (Returns pos, h)
              | Raises e => (Raises e, h)
              | OutOfFuel => (OutOfFuel, h)
              end
          end
      end
    else (Returns pos, h).
Proof.
  destruct fuel; cbn [siftdown_loop]; destruct (startpos <? pos);
    try reflexivity.
  unfold bind, getitem, compare, setitem, ret. fold (parent pos).
  destruct (h !! parent pos) as [p|]; [|reflexivity].
  destruct (lt newitem p) as [[|]| |]; try reflexivity.
  destruct (pos <? length h); reflexivity.
Qed.

Lemma siftup_loop_unfold fuel endpos pos childpos (h : list A) :
  siftup_loop lt fuel endpos pos childpos h
  = if childpos <? endpos then
      match fuel with
      | O => (OutOfFuel, h)
      | S fuel' =>
          let step c :=
            match h !! c with
            | None => (Raises IndexError, h)
            | Some y =>
                if pos <? length h
                then siftup_loop lt fuel' endpos c (2 * c + 1)
                       (<[pos := y]> h)
                else (Raises IndexError, h)
            end in
          if childpos + 1 <? endpos then
            match h !! childpos with
            | None => (Raises IndexError, h)
            | Some cv =>
                match h !! (childpos + 1) with
                | None => (Raises IndexError, h)
                | Some rv =>
                    match lt cv rv with
                    | Returns b =>
                        step (if negb b then childpos + 1 else childpos)
                    | Raises e => (Raises e, h)
                    | OutOfFuel => (OutOfFuel, h)
                    end
                end
            end
          else step childpos
      end
    else (Returns pos, h).
Proof.
  destruct fuel; cbn [siftup_loop]; destruct (childpos <? endpos);
    try reflexivity.
  unfold bind, getitem, compare, setitem, ret.
  destruct (childpos + 1 <? endpos).
  - destruct (h !! childpos) as [cv|]; [|reflexivity].
    destruct (h !! (childpos + 1)) as [rv|]; [|reflexivity].
    destruct (lt cv rv) as [b| |]; try reflexivity.
    destruct (h !! (if negb b then childpos + 1 else childpos));
      [|reflexivity].
    destruct (pos <? length h); reflexivity.
  - destruct (h !! childpos); [|reflexivity].
    destruct (pos <? length h); reflexivity.
Qed.

(** The root of a heap is a least element. *)
Lemma heap_inv_root_least (h : list A) (r : A) :
  heap_inv le h -> h !! 0 = Some r ->
  forall i x, h !! i = Some x -> le r x.
Proof.
  intros Hh Hr i. induction i as [i IH] using lt_wf_ind. intros x Hx.
  destruct (decide (i = 0)) as [->|Hi].
  - rewrite Hr in Hx. inversion Hx; subst. apply le_refl.
  - assert (Hpi : parent i < i) by (apply parent_lt; lia).
    destruct (lookup_lt_is_Some_2 h (parent i)) as [p Hp].
    { apply lookup_lt_Some in Hx. lia. }
    apply le_trans with p.
    + now apply (IH (parent i)).
    + apply (Hh i); [lia|exact Hx|exact Hp].
Qed.

Lemma heap_inv_root_least_elem (h : list A) (r : A) :
  heap_inv le h -> h !! 0 = Some r -> forall x, x ∈ h -> le r x.
Proof.
  intros Hh Hr x [i Hi]%list_elem_of_lookup.
  eapply heap_inv_root_least; eauto.
Qed.

(** The hole invariant does not read the value stored in the hole. *)
Lemma hole_inv_insert (h : list A) (pos : nat) (y : A) :
  hole_inv le h pos -> hole_inv le (<[pos := y]> h) pos.
Proof.
  intros [H1 H2]. split.
  - intros i Hi Hne Hpne x p Hx Hp.
    rewrite list_lookup_insert_ne in Hx by congruence.
    rewrite list_lookup_insert_ne in Hp by congruence.
    eapply H1; eauto.
  - intros c x g Hpos Hc Hpc Hx Hg.
    assert (parent pos < pos) by now apply parent_lt.
    assert (parent c < c) by now apply parent_lt.
    rewrite list_lookup_insert_ne in Hx by lia.
    rewrite list_lookup_insert_ne in Hg by lia.
    eapply H2; eauto.
Qed.

Lemma up_inv_root (v : list A) : up_inv le v 0 -> heap_inv le v.
Proof.
  intros [[H1 _] H2] i Hi.
  destruct (decide (parent i = 0)) as [E|E].
  - now apply H2.
  - apply H1; [exact Hi|lia|exact E].
Qed.

Lemma up_inv_settled (v : list A) (pos : nat) :
  up_inv le v pos -> edge_ok le v pos -> heap_inv le v.
Proof.
  intros [[H1 _] H2] He i Hi.
  destruct (decide (i = pos)) as [->|Hne]; [exact He|].
  destruct (decide (parent i = pos)) as [E|E].
  - now apply H2.
  - now apply H1.
Qed.

(** Moving the hole one level up keeps the invariant of [_siftdown]. *)
Lemma up_inv_step (v : list A) (pos : nat) (x p : A) :
  0 < pos ->
  v !! pos = Some x -> v !! parent pos = Some p ->
  le x p ->
  up_inv le v pos ->
  up_inv le (<[parent pos := x]> (<[pos := p]> v)) (parent pos).
Proof.
  intros Hpos Hx Hp Hxp [[H1 H2] H3].
  assert (Hlt : parent pos < pos) by now apply parent_lt.
  assert (Hlen : pos < length v) by eauto using lookup_lt_Some.
  set (v' := <[parent pos := x]> (<[pos := p]> v)).
  assert (Lpp : v' !! parent pos = Some x).
  { unfold v'. apply list_lookup_insert_eq. rewrite length_insert. lia. }
  assert (Lp : v' !! pos = Some p).
  { unfold v'. rewrite list_lookup_insert_ne by lia.
    now apply list_lookup_insert_eq. }
  assert (Lo : forall k, k <> pos -> k <> parent pos -> v' !! k = v !! k).
  { intros k K1 K2. unfold v'.
    now rewrite !list_lookup_insert_ne by congruence. }
  (* the old parent is not above what hangs below the old hole *)
  assert (Hpar_sib : forall s y, 0 < s -> parent s = parent pos -> s <> pos ->
                                 v !! s = Some y -> le p y).
  { intros s y Hs Hps Hne Hy. apply (H1 s Hs Hne); [lia|exact Hy|].
    now rewrite Hps. }
  split; [split|].
  - intros i Hi Hne Hpne y q Hy Hq.
    destruct (decide (i = pos)) as [->|Hip]; [congruence|].
    assert (Hpi : parent i < i) by now apply parent_lt.
    rewrite Lo in Hy by assumption.
    destruct (decide (parent i = pos)) as [E|E].
    + rewrite E, Lp in Hq. inversion Hq; subst q.
      eapply H2; eauto.
    + rewrite Lo in Hq by assumption. eapply H1; eauto.
  - intros c y g Hpp Hc Hpc Hy Hg.
    assert (Hgp : parent (parent pos) < parent pos) by now apply parent_lt.
    rewrite Lo in Hg by lia.
    assert (Hgle : le g p).
    { apply (H1 (parent pos) Hpp); [lia|lia|exact Hp|exact Hg]. }
    destruct (decide (c = pos)) as [->|Hcp].
    + rewrite Lp in Hy. inversion Hy; subst y. exact Hgle.
    + assert (parent c < c) by now apply parent_lt.
      rewrite Lo in Hy by lia.
      apply le_trans with p; [exact Hgle|]. eapply Hpar_sib; eauto.
  - intros c Hc Hpc y q Hy Hq.
    rewrite Hpc, Lpp in Hq. inversion Hq; subst q.
    destruct (decide (c = pos)) as [->|Hcp].
    + rewrite Lp in Hy. inversion Hy; subst y. exact Hxp.
    + assert (parent c < c) by now apply parent_lt.
      rewrite Lo in Hy by lia.
      apply le_trans with p; [exact Hxp|]. eapply Hpar_sib; eauto.
Qed.

Lemma clash_perm (l l' : list A) : l ≡ₚ l' -> clash lt l -> clash lt l'.
Proof.
  intros Hp (a & b & Ha & Hb & Hab). exists a, b.
  rewrite <- Hp. auto.
Qed.

(** The loop of [_siftdown], called with [startpos = 0] on a list that
    is a heap except between [pos] and its parent: either it returns,
    and writing [newitem] at the position returned gives a heap with
    the same elements, or a comparison between two elements raised. *)
Lemma siftdown_loop_spec fuel : forall pos (h : list A) newitem,
  pos <= fuel -> pos < length h ->
  up_inv le (<[pos := newitem]> h) pos ->
  (exists pos' h',
      siftdown_loop lt fuel 0 pos newitem h = (Returns pos', h')
      /\ pos' < length h' /\ length h' = length h
      /\ <[pos' := newitem]> h' ≡ₚ <[pos := newitem]> h
      /\ heap_inv le (<[pos' := newitem]> h'))
  \/ ((exists h', siftdown_loop lt fuel 0 pos newitem h
                  = (Raises TypeError, h'))
      /\ clash lt (<[pos := newitem]> h)).
Proof.
  induction fuel as [|fuel IH]; intros pos h newitem Hfuel Hlen Hinv;
    rewrite siftdown_loop_unfold; destruct (0 <? pos) eqn:E.
  - apply Nat.ltb_lt in E. lia.
  - left. exists pos, h. repeat split; auto.
    apply Nat.ltb_ge in E. assert (pos = 0) by lia. subst.
    now apply up_inv_root.
  - apply Nat.ltb_lt in E.
    assert (Hpl : parent pos < pos) by now apply parent_lt.
    destruct (lookup_lt_is_Some_2 h (parent pos)) as [p Hp]; [lia|].
    rewrite Hp.
    set (v := <[pos := newitem]> h) in *.
    assert (Vpos : v !! pos = Some newitem)
      by now apply list_lookup_insert_eq.
    assert (Vpar : v !! parent pos = Some p)
      by (unfold v; now rewrite list_lookup_insert_ne by lia).
    destruct (lt_outcome newitem p) as [[[|] Hr]|Hr]; rewrite Hr.
    + apply Nat.ltb_lt in Hlen as Hlb. rewrite Hlb.
      assert (Hsw : <[parent pos := newitem]> (<[pos := p]> h)
                    = <[parent pos := newitem]> (<[pos := p]> v)).
      { unfold v. now rewrite list_insert_insert_eq. }
      destruct (IH (parent pos) (<[pos := p]> h) newitem) as
        [(pos' & h' & Hrun & Hl1 & Hl2 & Hperm & Hheap)|[Hrun Hcl]].
      * lia.
      * rewrite length_insert. lia.
      * rewrite Hsw. apply up_inv_step; auto.
      * left. exists pos', h'. rewrite length_insert in Hl2.
        repeat split; auto.
        rewrite Hperm, Hsw.
        now apply Permutation_insert_swap.
      * right. split; [exact Hrun|].
        eapply clash_perm; [|exact Hcl]. rewrite Hsw.
        now apply Permutation_insert_swap.
    + left. exists pos, h. repeat split; auto.
      apply (up_inv_settled v pos Hinv).
      intros x q Hx Hq. rewrite Vpos in Hx. rewrite Vpar in Hq.
      inversion Hx; inversion Hq; subst. now apply lt_false.
    + right. split; [now exists h|].
      exists newitem, p. repeat split; auto.
      * eapply list_elem_of_lookup_2; eauto.
      * eapply list_elem_of_lookup_2; eauto.
  - left. exists pos, h. repeat split; auto.
    apply Nat.ltb_ge in E. assert (pos = 0) by lia. subst.
    now apply up_inv_root.
Qed.

(** [_siftdown(heap, 0, pos)] *)
Lemma siftdown_spec (h : list A) (pos : nat) :
  pos < length h -> up_inv le h pos ->
  (exists h', siftdown lt 0 pos h = (Returns tt, h')
              /\ h' ≡ₚ h /\ heap_inv le h')
  \/ ((exists h', siftdown lt 0 pos h = (Raises TypeError, h'))
      /\ clash lt h).
Proof.
  intros Hlen Hinv. unfold siftdown, bind, getitem.
  destruct (lookup_lt_is_Some_2 h pos Hlen) as [x Hx]. rewrite Hx.
  assert (Hid : <[pos := x]> h = h) by now apply list_insert_id.
  destruct (siftdown_loop_spec pos pos h x) as
    [(pos' & h' & Hrun & Hl1 & Hl2 & Hperm & Hheap)|[[h' Hrun] Hcl]];
    auto.
  - now rewrite Hid.
  - left. rewrite Hrun. unfold setitem.
    apply Nat.ltb_lt in Hl1 as Hlb. rewrite Hlb.
    eexists. split; [reflexivity|]. rewrite Hid in Hperm. auto.
  - right. rewrite Hrun. rewrite Hid in Hcl. split; [now exists h'|auto].
Qed.

(** [heapq.heappush] on a heap. *)
Lemma heappush_spec (h : list A) (x : A) :
  heap_inv le h ->
  (exists h', heappush lt x h = (Returns tt, h')
              /\ h' ≡ₚ x :: h /\ heap_inv le h')
  \/ ((exists h', heappush lt x h = (Raises TypeError, h'))
      /\ clash lt (x :: h)).
Proof.
  intros Hh. unfold heappush, bind, append, modify, get.
  replace (length (h ++ [x]) - 1) with (length h)
    by (rewrite length_app; cbn; lia).
  assert (Hperm : h ++ [x] ≡ₚ x :: h).
  { rewrite Permutation_app_comm. reflexivity. }
  assert (Hnone : forall c, parent c = length h -> 0 < c ->
                            (h ++ [x]) !! c = None).
  { intros c Hc Hc0. apply lookup_ge_None. rewrite length_app. cbn.
    pose proof (parent_child_cases c _ Hc0 Hc). lia. }
  destruct (siftdown_spec (h ++ [x]) (length h)) as
    [(h' & Hrun & Hp & Hheap)|[Hrun Hcl]].
  - rewrite length_app. cbn. lia.
  - split; [split|].
    + intros i Hi Hne Hpne y q Hy Hq.
      assert (Hil : i < length h).
      { apply lookup_lt_Some in Hy. rewrite length_app in Hy. cbn in Hy.
        lia. }
      assert (parent i < i) by now apply parent_lt.
      rewrite lookup_app_l in Hy by lia.
      rewrite lookup_app_l in Hq by lia.
      eapply Hh; eauto.
    + intros c y g _ Hc Hpc Hy _. rewrite Hnone in Hy by auto. discriminate.
    + intros c Hc Hpc y q Hy _. rewrite Hnone in Hy by auto. discriminate.
  - left. exists h'. repeat split; auto. now rewrite Hp.
  - right. split; [exact Hrun|]. eapply clash_perm; eauto.
Qed.

(** Moving the hole one level down, to a child that is not above its
    sibling, keeps the invariant of [_siftup]. *)
Lemma hole_inv_step (h : list A) (pos c : nat) (y : A) :
  0 < c -> parent c = pos -> h !! c = Some y ->
  (forall s z, 0 < s -> parent s = pos -> s <> c -> h !! s = Some z ->
               le y z) ->
  hole_inv le h pos ->
  hole_inv le (<[pos := y]> h) c.
Proof.
  intros Hc Hpc Hy Hsib [H1 H2].
  assert (Hlt : pos < c) by (subst pos; now apply parent_lt).
  assert (Hlen : pos < length h)
    by (apply lookup_lt_Some in Hy; lia).
  split.
  - intros i Hi Hne Hpne x q Hx Hq.
    assert (Hpi : parent i < i) by now apply parent_lt.
    destruct (decide (i = pos)) as [->|Hip].
    + rewrite list_lookup_insert_eq in Hx by exact Hlen.
      inversion Hx; subst x.
      rewrite list_lookup_insert_ne in Hq by lia.
      eapply (H2 c); eauto.
    + rewrite list_lookup_insert_ne in Hx by congruence.
      destruct (decide (parent i = pos)) as [E|E].
      * rewrite E, list_lookup_insert_eq in Hq by exact Hlen.
        inversion Hq; subst q. eapply Hsib; eauto.
      * rewrite list_lookup_insert_ne in Hq by congruence.
        eapply H1; eauto.
  - intros d x g _ Hd Hpd Hx Hg.
    assert (parent d < d) by now apply parent_lt.
    rewrite Hpc, list_lookup_insert_eq in Hg by exact Hlen.
    inversion Hg; subst g.
    rewrite list_lookup_insert_ne in Hx by lia.
    apply (H1 d Hd); [lia|lia|exact Hx|]. now rewrite Hpd.
Qed.

(** The loop of [_siftup] on a list that is a heap around a hole at
    [pos]: either it returns a leaf position, and writing any [newitem]
    there gives a list with the elements of the start list with
    [newitem] in the hole, in heap order except above that leaf; or a
    comparison between two elements raised. *)
Lemma siftup_loop_spec fuel : forall pos (h : list A) newitem,
  length h - pos <= fuel -> pos < length h ->
  hole_inv le h pos ->
  (exists pos' h',
      siftup_loop lt fuel (length h) pos (2 * pos + 1) h
      = (Returns pos', h')
      /\ pos' < length h' /\ length h' = length h
      /\ <[pos' := newitem]> h' ≡ₚ <[pos := newitem]> h
      /\ up_inv le (<[pos' := newitem]> h') pos')
  \/ ((exists h', siftup_loop lt fuel (length h) pos (2 * pos + 1) h
                  = (Raises TypeError, h'))
      /\ clash lt (<[pos := newitem]> h)).
Proof.
  induction fuel as [|fuel IH]; intros pos h newitem Hfuel Hlen Hinv;
    rewrite siftup_loop_unfold;
    destruct (2 * pos + 1 <? length h) eqn:E;
    try (apply Nat.ltb_lt in E; lia).
  1, 3:
    left; exists pos, h; apply Nat.ltb_ge in E;
    (split; [reflexivity|]); (split; [exact Hlen|]);
    (split; [reflexivity|]); (split; [reflexivity|]);
    (split; [now apply hole_inv_insert|]);
    intros c Hc Hpc x q Hx _;
    apply lookup_lt_Some in Hx; rewrite length_insert in Hx;
    pose proof (parent_child_cases c _ Hc Hpc); lia.
  apply Nat.ltb_lt in E.
  set (w := <[pos := newitem]> h).
  (* what happens once the child [c] has been chosen *)
  assert (Hcont : forall c y,
    0 < c -> parent c = pos -> h !! c = Some y ->
    (forall s z, 0 < s -> parent s = pos -> s <> c -> h !! s = Some z ->
                 le y z) ->
    (exists pos' h',
        siftup_loop lt fuel (length h) c (2 * c + 1) (<[pos := y]> h)
        = (Returns pos', h')
        /\ pos' < length h' /\ length h' = length h
        /\ <[pos' := newitem]> h' ≡ₚ w
        /\ up_inv le (<[pos' := newitem]> h') pos')
    \/ ((exists h',
            siftup_loop lt fuel (length h) c (2 * c + 1) (<[pos := y]> h)
            = (Raises TypeError, h'))
        /\ clash lt w)).
  { intros c y Hc Hpc Hy Hsib.
    assert (Hlt : pos < c) by (subst pos; now apply parent_lt).
    assert (Hcl : c < length h) by eauto using lookup_lt_Some.
    assert (Hsw : <[c := newitem]> (<[pos := y]> h) ≡ₚ w).
    { replace (<[pos := y]> h) with (<[pos := y]> w)
        by (unfold w; now rewrite list_insert_insert_eq).
      apply Permutation_insert_swap.
      - unfold w. now apply list_lookup_insert_eq.
      - unfold w. now rewrite list_lookup_insert_ne by lia. }
    destruct (IH c (<[pos := y]> h) newitem) as
      [(pos' & h' & Hrun & Hl1 & Hl2 & Hperm & Hup)|[Hrun Hclash]].
    - rewrite length_insert. lia.
    - rewrite length_insert. lia.
    - now apply hole_inv_step.
    - left. exists pos', h'. rewrite length_insert in Hrun, Hl2.
      split; [exact Hrun|]. split; [exact Hl1|]. split; [exact Hl2|].
      split; [now rewrite Hperm|exact Hup].
    - right. rewrite length_insert in Hrun. split; [exact Hrun|].
      eapply clash_perm; eauto. }
  destruct (lookup_lt_is_Some_2 h (2 * pos + 1) E) as [cv Hcv].
  assert (Hw : forall k, k <> pos -> w !! k = h !! k).
  { intros k Hk. unfold w. now rewrite list_lookup_insert_ne by congruence. }
  apply Nat.ltb_lt in Hlen as Hlb.
  assert (Hstep : forall c y, h !! c = Some y ->
    match h !! c with
    | None => (Raises IndexError, h)
    | Some y =>
        if pos <? length h
        then siftup_loop lt fuel (length h) c (2 * c + 1) (<[pos := y]> h)
        else (Raises IndexError, h)
    end
    = siftup_loop lt fuel (length h) c (2 * c + 1) (<[pos := y]> h)).
  { intros c y Hy. now rewrite Hy, Hlb. }
  cbv zeta.
  destruct (2 * pos + 1 + 1 <? length h) eqn:E2.
  - apply Nat.ltb_lt in E2.
    destruct (lookup_lt_is_Some_2 h (2 * pos + 1 + 1) E2) as [rv Hrv].
    rewrite Hcv, Hrv.
    destruct (lt_outcome cv rv) as [[b Hb]|Hb]; rewrite Hb.
    + assert (Hchoice :
        exists c y, (if negb b then 2 * pos + 1 + 1 else 2 * pos + 1) = c
           /\ 0 < c /\ parent c = pos /\ h !! c = Some y
           /\ (forall s z, 0 < s -> parent s = pos -> s <> c ->
                           h !! s = Some z -> le y z)).
      { destruct b; cbn [negb].
        - exists (2 * pos + 1), cv.
          repeat split; auto using parent_left; [lia|].
          intros s z Hs Hps Hne Hz.
          pose proof (parent_child_cases s _ Hs Hps).
          assert (s = 2 * pos + 1 + 1) by lia. subst s.
          rewrite Hrv in Hz. inversion Hz; subst. now apply lt_true.
        - exists (2 * pos + 1 + 1), rv.
          replace (2 * pos + 1 + 1) with (2 * pos + 2) in * by lia.
          repeat split; auto using parent_right; [lia|].
          intros s z Hs Hps Hne Hz.
          pose proof (parent_child_cases s _ Hs Hps).
          assert (s = 2 * pos + 1) by lia. subst s.
          rewrite Hcv in Hz. inversion Hz; subst. now apply lt_false. }
      destruct Hchoice as (c & y & -> & Hc & Hpc & Hy & Hsib).
      rewrite (Hstep c y Hy). now apply Hcont.
    + right. split; [now exists h|].
      exists cv, rv. repeat split; auto.
      * apply list_elem_of_lookup_2 with (2 * pos + 1).
        rewrite Hw by lia. exact Hcv.
      * apply list_elem_of_lookup_2 with (2 * pos + 1 + 1).
        rewrite Hw by lia. exact Hrv.
  - apply Nat.ltb_ge in E2.
    rewrite (Hstep _ cv Hcv).
    apply Hcont; auto using parent_left; [lia|].
    intros s z Hs Hps Hne Hz.
    pose proof (parent_child_cases s _ Hs Hps).
    apply lookup_lt_Some in Hz. lia.
Qed.

(** [_siftup(heap, 0)] on a list that is a heap below its root. *)
Lemma siftup_spec (h : list A) :
  0 < length h -> hole_inv le h 0 ->
  (exists h', siftup lt 0 h = (Returns tt, h')
              /\ h' ≡ₚ h /\ heap_inv le h')
  \/ ((exists h', siftup lt 0 h = (Raises TypeError, h'))
      /\ clash lt h).
Proof.
  intros Hlen Hinv. unfold siftup, bind, get, getitem.
  destruct (lookup_lt_is_Some_2 h 0 Hlen) as [x Hx]. rewrite Hx.
  assert (Hid : <[0 := x]> h = h) by now apply list_insert_id.
  destruct (siftup_loop_spec (length h) 0 h x) as
    [(pos' & h1 & Hrun & Hl1 & Hl2 & Hperm & Hup)|[[h1 Hrun] Hcl]];
    auto; try lia; rewrite Hrun, Hid in *.
  - unfold setitem. apply Nat.ltb_lt in Hl1 as Hlb. rewrite Hlb.
    destruct (siftdown_spec (<[pos' := x]> h1) pos') as
      [(h' & Hrun' & Hperm' & Hheap)|[Hrun' Hcl]]; auto.
    + now rewrite length_insert.
    + left. exists h'. split; [exact Hrun'|].
      split; [now rewrite Hperm'|exact Hheap].
    + right. split; [exact Hrun'|]. eapply clash_perm; eauto.
  - right. split; [now exists h1|exact Hcl].
Qed.

(** [heapq.heappop] on a heap: on the empty list it raises
    [IndexError]; otherwise either it returns the root, which is what
    [heap[0]] was, and leaves a heap of the other elements, or a
    comparison between two elements raised. *)
Lemma heappop_spec (h : list A) :
  heap_inv le h ->
  (h = [] /\ heappop lt h = (Raises IndexError, h))
  \/ (exists x h', heappop lt h = (Returns x, h')
                   /\ h !! 0 = Some x /\ h ≡ₚ x :: h' /\ heap_inv le h')
  \/ ((exists h', heappop lt h = (Raises TypeError, h'))
      /\ clash lt h).
Proof.
  intros Hh. unfold heappop, bind, pop_last.
  destruct (last h) as [l|] eqn:El.
  2: { left. apply last_None in El. subst. auto. }
  right. apply last_Some in El as [h0 ->].
  replace (take (length (h0 ++ [l]) - 1) (h0 ++ [l])) with h0.
  2: { rewrite length_app. cbn.
       replace (length h0 + 1 - 1) with (length h0) by lia.
       now rewrite take_app_length. }
  unfold get. destruct h0 as [|r t].
  - left. exists l, []. repeat split; auto.
    intros i Hi x p Hx. destruct i; discriminate.
  - unfold getitem, setitem. cbn [lookup list_lookup length Nat.ltb Nat.leb].
    change (<[0 := l]> (r :: t)) with (l :: t).
    assert (Hperm : (r :: t) ++ [l] ≡ₚ r :: l :: t).
    { cbn. constructor. rewrite Permutation_app_comm. reflexivity. }
    destruct (siftup_spec (l :: t)) as
      [(h' & Hrun & Hperm' & Hheap)|[[h' Hrun] Hcl]].
    + cbn. lia.
    + split.
      * intros i Hi Hne Hpne x p Hx Hp.
        assert (Hpi : 0 < parent i) by lia.
        apply (Hh i Hi).
        -- destruct i; [lia|]. cbn in *.
           apply lookup_app_l_Some. exact Hx.
        -- destruct (parent i); [lia|]. cbn in *.
           apply lookup_app_l_Some. exact Hp.
      * intros c x g Hpos. lia.
    + left. exists r, h'. rewrite Hrun.
      split; [reflexivity|]. split; [reflexivity|].
      split; [|exact Hheap]. now rewrite Hperm, Hperm'.
    + right. rewrite Hrun. split; [now exists h'|].
      destruct Hcl as (a & b & Ha & Hb & Hab). exists a, b.
      rewrite Hperm. split; [|split; [|exact Hab]].
      * right. exact Ha.
      * right. exact Hb.
Qed.

End HeapqTheory.

(** ** The book's tuples under [heapq] *)

Lemma Qlt_bool_iff (x y : Q) : Qlt_bool x y = true <-> (x < y)%Q.
Proof.
  unfold Qlt_bool. rewrite negb_true_iff.
  split.
  - intros H. apply Qnot_le_lt. intros Hle.
    apply Qle_bool_iff in Hle. congruence.
  - intros H. destruct (Qle_bool y x) eqn:E; [|reflexivity].
    apply Qle_bool_iff in E. exfalso. exact (Qlt_not_le _ _ H E).
Qed.

Lemma Qeq_bool_refl (x : Q) : Qeq_bool x x = true.
Proof. apply Qeq_bool_iff. reflexivity. Qed.

Lemma Order_eqb_refl (o : Order.t) : Order.eqb o o = true.
Proof.
  unfold Order.eqb.
  now rewrite !Z.eqb_refl, String.eqb_refl, Qeq_bool_refl.
Qed.

Lemma BookEntry_eqb_refl (e : BookEntry.t) : BookEntry.eqb e e = true.
Proof.
  unfold BookEntry.eqb.
  now rewrite !Z.eqb_refl, Order_eqb_refl, Qeq_bool_refl.
Qed.

Lemma item_le_refl (a : item) : item_le a a.
Proof. right. split; [reflexivity|lia]. Qed.

Lemma item_le_trans (a b c : item) : item_le a b -> item_le b c -> item_le a c.
Proof.
  unfold item_le. intros [H1|[H1 H1']] [H2|[H2 H2']].
  - left. eapply Qlt_trans; eauto.
  - left. now rewrite <- H2.
  - left. now rewrite H1.
  - right. split; [now rewrite H1|lia].
Qed.

Lemma item_lt_outcome (a b : item) :
  (exists r, item_lt a b = Returns r) \/ item_lt a b = Raises TypeError.
Proof.
  destruct a as [[pa ta] ea], b as [[pb tb] eb]. unfold item_lt.
  destruct (negb (Qeq_bool pa pb)); [left; eauto|].
  destruct (negb (ta =? tb)); [left; eauto|].
  destruct (BookEntry.eqb ea eb); [left; eauto|now right].
Qed.

Lemma item_lt_true (a b : item) : item_lt a b = Returns true -> item_le a b.
Proof.
  destruct a as [[pa ta] ea], b as [[pb tb] eb]. unfold item_lt, item_le.
  cbn [fst snd].
  destruct (Qeq_bool pa pb) eqn:Ep; cbn [negb].
  - apply Qeq_bool_iff in Ep.
    destruct (ta =? tb) eqn:Et; cbn [negb].
    + destruct (BookEntry.eqb ea eb); discriminate.
    + intros H. inversion H as [H']. apply Z.ltb_lt in H'. right. split; [exact Ep|lia].
  - intros H. inversion H as [H']. apply Qlt_bool_iff in H'. now left.
Qed.

Lemma item_lt_false (a b : item) : item_lt a b = Returns false -> item_le b a.
Proof.
  destruct a as [[pa ta] ea], b as [[pb tb] eb]. unfold item_lt, item_le.
  cbn [fst snd].
  destruct (Qeq_bool pa pb) eqn:Ep; cbn [negb].
  - apply Qeq_bool_iff in Ep. symmetry in Ep.
    destruct (ta =? tb) eqn:Et; cbn [negb].
    + apply Z.eqb_eq in Et. intros _. right. split; [exact Ep|lia].
    + intros H. inversion H as [H']. apply Z.ltb_ge in H'.
      right. split; [exact Ep|lia].
  - intros H. inversion H as [H'].
    left. apply Qnot_le_lt. intros Hle.
    apply Qle_lteq in Hle as [Hlt|Heq].
    + apply Qlt_bool_iff in Hlt. congruence.
    + apply Qeq_bool_iff in Heq. congruence.
Qed.

(** A comparison raises only between two tuples with the same arrival
    number. *)
Lemma item_lt_raises (a b : item) :
  item_lt a b = Raises TypeError -> item_ts a = item_ts b /\ a <> b.
Proof.
  destruct a as [[pa ta] ea], b as [[pb tb] eb]. unfold item_lt, item_ts.
  cbn [fst snd].
  destruct (negb (Qeq_bool pa pb)); [discriminate|].
  destruct (ta =? tb) eqn:Et; cbn [negb]; [|discriminate].
  apply Z.eqb_eq in Et.
  destruct (BookEntry.eqb ea eb) eqn:Ee; [discriminate|].
  intros _. split; [exact Et|].
  intros H. inversion H; subst. rewrite BookEntry_eqb_refl in Ee. discriminate.
Qed.

Lemma NoDup_map_inj {X Y} (f : X -> Y) (l : list X) (a b : X) :
  NoDup (map f l) -> a ∈ l -> b ∈ l -> f a = f b -> a = b.
Proof.
  induction l as [|x l IH]; intros Hnd Ha Hb Hf.
  - inversion Ha.
  - cbn in Hnd. apply NoDup_cons in Hnd as [Hx Hnd].
    apply elem_of_cons in Ha as [->|Ha];
      apply elem_of_cons in Hb as [->|Hb]; auto.
    + exfalso. apply Hx. rewrite Hf.
      now apply list_elem_of_In, in_map, list_elem_of_In.
    + exfalso. apply Hx. rewrite <- Hf.
      now apply list_elem_of_In, in_map, list_elem_of_In.
Qed.

(** With pairwise distinct arrival numbers no comparison raises. *)
Lemma no_clash (l : list item) : NoDup (map item_ts l) -> ~ clash item_lt l.
Proof.
  intros Hnd (a & b & Ha & Hb & Hab).
  apply item_lt_raises in Hab as [Hts Hne].
  apply Hne. eapply NoDup_map_inj; eauto.
Qed.

(** ** The book operations keep the book invariant *)

Lemma item_heappush_spec (h : list item) (x : item) :
  heap_inv item_le h ->
  (exists h', heappush item_lt x h = (Returns tt, h')
              /\ h' ≡ₚ x :: h /\ heap_inv item_le h')
  \/ ((exists h', heappush item_lt x h = (Raises TypeError, h'))
      /\ clash item_lt (x :: h)).
Proof.
  apply heappush_spec.
  - exact item_le_trans.
  - exact item_lt_outcome.
  - exact item_lt_true.
  - exact item_lt_false.
Qed.

Lemma item_heappop_spec (h : list item) :
  heap_inv item_le h ->
  (h = [] /\ heappop item_lt h = (Raises IndexError, h))
  \/ (exists x h', heappop item_lt h = (Returns x, h')
                   /\ h !! 0%nat = Some x /\ h ≡ₚ x :: h'
                   /\ heap_inv item_le h')
  \/ ((exists h', heappop item_lt h = (Raises TypeError, h'))
      /\ clash item_lt h).
Proof.
  apply heappop_spec.
  - exact item_le_trans.
  - exact item_lt_outcome.
  - exact item_lt_true.
  - exact item_lt_false.
Qed.

Lemma item_root_least (h : list item) (r x : item) :
  heap_inv item_le h -> h !! 0%nat = Some r -> x ∈ h -> item_le r x.
Proof.
  intros Hh Hr Hx.
  eapply (heap_inv_root_least_elem item_le); eauto.
  - exact item_le_refl.
  - exact item_le_trans.
Qed.

(** The two branches of [add_limit] and [reinsert] that push a tuple:
    the entry goes to the side its own order names, with the key read
    from the entry; the counter is not touched. *)
Lemma push_entry_spec (b : OrderBook) (e : BookEntry.t) :
  book_inv b ->
  (exists b',
      Book.push_entry (Order.direction (BookEntry.order e)) e b
      = (Returns tt, b')
      /\ book_inv b' /\ _counter b' = _counter b
      /\ if Order.direction (BookEntry.order e) =? 1
         then bids b' ≡ₚ bid_item e :: bids b /\ asks b' = asks b
         else asks b' ≡ₚ ask_item e :: asks b /\ bids b' = bids b)
  \/ ((exists b',
          Book.push_entry (Order.direction (BookEntry.order e)) e b
          = (Raises TypeError, b'))
      /\ if Order.direction (BookEntry.order e) =? 1
         then clash item_lt (bid_item e :: bids b)
         else clash item_lt (ask_item e :: asks b)).
Proof.
  intros (Hb & Ha & Kb & Ka). unfold Book.push_entry.
  destruct (Order.direction (BookEntry.order e) =? 1) eqn:Ed.
  - apply Z.eqb_eq in Ed.
    unfold Book.on_bids, on_field. fold (bid_item e).
    destruct (item_heappush_spec (bids b) (bid_item e) Hb) as
      [(h' & Hrun & Hperm & Hheap)|[[h' Hrun] Hcl]]; rewrite Hrun.
    + left. eexists. split; [reflexivity|].
      unfold book_inv, Book.set_bids. cbn [bids asks _counter].
      repeat split; auto.
      rewrite Hperm. constructor; [|exact Kb]. repeat split; auto.
    + right. split; [eauto|exact Hcl].
  - apply Z.eqb_neq in Ed.
    unfold Book.on_asks, on_field. fold (ask_item e).
    destruct (item_heappush_spec (asks b) (ask_item e) Ha) as
      [(h' & Hrun & Hperm & Hheap)|[[h' Hrun] Hcl]]; rewrite Hrun.
    + left. eexists. split; [reflexivity|].
      unfold book_inv, Book.set_asks. cbn [bids asks _counter].
      repeat split; auto.
      rewrite Hperm. constructor; [|exact Ka]. repeat split; auto.
    + right. split; [eauto|exact Hcl].
Qed.

Lemma book_inv_counter (b : OrderBook) (c : Z) :
  book_inv b -> book_inv (Book.set_counter c b).
Proof. intros H. exact H. Qed.



(** [pop_best_bid]: on an empty side an [IndexError]; otherwise the
    entry returned is the one [peek_best_bid] shows, and the other
    tuples stay. *)
Lemma pop_best_bid_spec (b : OrderBook) :
  book_inv b ->
  (bids b = [] /\ Book.pop_best_bid b = (Raises IndexError, b))
  \/ (exists it b',
         Book.pop_best_bid b = (Returns (snd it), b')
         /\ bids b !! 0%nat = Some it
         /\ bids b ≡ₚ it :: bids b' /\ asks b' = asks b
         /\ _counter b' = _counter b /\ book_inv b')
  \/ ((exists b', Book.pop_best_bid b = (Raises TypeError, b'))
      /\ clash item_lt (bids b)).
Proof.
  intros (Hb & Ha & Kb & Ka).
  unfold Book.pop_best_bid, bind, Book.on_bids, on_field.
  destruct (item_heappop_spec (bids b) Hb) as
    [[He Hrun]|[(x & h' & Hrun & Hx & Hperm & Hheap)|[[h' Hrun] Hcl]]];
    rewrite Hrun.
  - left. split; [exact He|]. destruct b; cbn in *. now subst.
  - right. left. exists x. eexists. split; [reflexivity|].
    unfold book_inv, Book.set_bids. cbn [bids asks _counter].
    repeat split; auto.
    rewrite Hperm in Kb. now inversion Kb.
  - right. right. split; [eauto|exact Hcl].
Qed.

Lemma pop_best_ask_spec (b : OrderBook) :
  book_inv b ->
  (asks b = [] /\ Book.pop_best_ask b = (Raises IndexError, b))
  \/ (exists it b',
         Book.pop_best_ask b = (Returns (snd it), b')
         /\ asks b !! 0%nat = Some it
         /\ asks b ≡ₚ it :: asks b' /\ bids b' = bids b
         /\ _counter b' = _counter b /\ book_inv b')
  \/ ((exists b', Book.pop_best_ask b = (Raises TypeError, b'))
      /\ clash item_lt (asks b)).
Proof.
  intros (Hb & Ha & Kb & Ka).
  unfold Book.pop_best_ask, bind, Book.on_asks, on_field.
  destruct (item_heappop_spec (asks b) Ha) as
    [[He Hrun]|[(x & h' & Hrun & Hx & Hperm & Hheap)|[[h' Hrun] Hcl]]];
    rewrite Hrun.
  - left. split; [exact He|]. destruct b; cbn in *. now subst.
  - right. left. exists x. eexists. split; [reflexivity|].
    unfold book_inv, Book.set_asks. cbn [bids asks _counter].
    repeat split; auto.
    rewrite Hperm in Ka. now inversion Ka.
  - right. right. split; [eauto|exact Hcl].
Qed.

Lemma book_inv_init : book_inv Book.init.
Proof.
  unfold book_inv. cbn.
  repeat split; try apply Forall_nil_2;
    intros i Hi x p Hx; destruct i; discriminate.
Qed.



(** ** Best quotes *)

Lemma Qopp_opp (q : Q) : (- - q)%Q = q.
Proof. destruct q as [n d]. unfold Qopp. cbn. now rewrite Z.opp_involutive. Qed.

Lemma resting_elem (side : list item) (e : BookEntry.t) :
  e ∈ resting side -> exists it, it ∈ side /\ snd it = e.
Proof.
  unfold resting. intros H. apply list_elem_of_In, in_map_iff in H.
  destruct H as (it & Hit & Hin). exists it. split; [|exact Hit].
  now apply list_elem_of_In.
Qed.




(** ** Books with pairwise distinct arrival numbers *)

Lemma same_entry_filled_refl (it : item) : same_entry_filled it it.
Proof. unfold same_entry_filled. repeat split; auto. lia. Qed.

Lemma same_entry_filled_trans (a b c : item) :
  same_entry_filled a b -> same_entry_filled b c -> same_entry_filled a c.
Proof.
  unfold same_entry_filled.
  intros (A1 & A2 & A3 & A4 & A5) (B1 & B2 & B3 & B4 & B5).
  repeat split; try congruence. lia.
Qed.

Lemma descends_refl (side : list item) : descends side side.
Proof. intros it Hit. exists it. auto using same_entry_filled_refl. Qed.

Lemma descends_trans (s0 s1 s2 : list item) :
  descends s0 s1 -> descends s1 s2 -> descends s0 s2.
Proof.
  intros H01 H12 it Hit.
  destruct (H12 it Hit) as (it1 & Hit1 & F12).
  destruct (H01 it1 Hit1) as (it0 & Hit0 & F01).
  exists it0. eauto using same_entry_filled_trans.
Qed.

Lemma book_wf_init : book_wf Book.init.
Proof.
  split; [apply book_inv_init|]. cbn.
  repeat split; constructor.
Qed.

Lemma item_le_antisym_ts (a b : item) :
  item_le a b -> item_le b a -> item_ts a = item_ts b.
Proof.
  unfold item_le, item_ts. intros [H1|[H1 H1']] [H2|[H2 H2']]; try lra. lia.
Qed.

Lemma map_item_ts_perm (l l' : list item) :
  l ≡ₚ l' -> map item_ts l ≡ₚ map item_ts l'.
Proof. intros H. now apply Permutation_map. Qed.

Lemma ts_fresh (side : list item) (c ts : Z) :
  Forall (fun it => item_ts it <= c) side -> c < ts ->
  ts ∉ map item_ts side.
Proof.
  intros Hall Hlt Hin. apply list_elem_of_In, in_map_iff in Hin.
  destruct Hin as (it & Hts & Hin).
  rewrite Forall_forall in Hall. apply list_elem_of_In in Hin.
  specialize (Hall it Hin). lia.
Qed.

(** On a well-formed book [add_limit] returns; it leaves the book alone
    when the quantity or the price is not positive, and otherwise issues
    the next arrival number and adds one tuple, carrying that number, to
    the side the order names. *)
Lemma add_limit_wf (b : OrderBook) (order : Order.t) :
  book_wf b ->
  exists b',
    Book.add_limit order b = (Returns tt, b') /\ book_wf b'
    /\ if (Order.quantity order <=? 0) || Qle_bool (Order.price order) 0
       then b' = b
       else
         let e := BookEntry.mk (Order.price order) (_counter b + 1) order
                    (Order.quantity order) in
         _counter b' = _counter b + 1
         /\ if Order.direction order =? 1
            then bids b' ≡ₚ bid_item e :: bids b /\ asks b' = asks b
            else asks b' ≡ₚ ask_item e :: asks b /\ bids b' = bids b.
Proof.
  intros Hwf. pose proof Hwf as (Hinv & Nb & Na & Cb & Ca).
  unfold Book.add_limit.
  destruct (Order.quantity order <=? 0); cbn [orb].
  { exists b. auto. }
  destruct (Qle_bool (Order.price order) 0).
  { exists b. auto. }
  unfold bind, Book._next_ts, bind, modify, get, ret.
  cbn [_counter Book.set_counter].
  set (e := BookEntry.mk _ _ _ _).
  set (b0 := Book.set_counter (_counter b + 1) b).
  assert (Hfb : item_ts (bid_item e) ∉ map item_ts (bids b)).
  { apply (ts_fresh _ (_counter b)); [exact Cb|]. cbn. lia. }
  assert (Hfa : item_ts (ask_item e) ∉ map item_ts (asks b)).
  { apply (ts_fresh _ (_counter b)); [exact Ca|]. cbn. lia. }
  destruct (push_entry_spec b0 e (book_inv_counter _ _ Hinv)) as
    [(b' & Hrun & Hinv' & Hc & Hside)|[_ Hcl]];
    cbn [BookEntry.order e] in *.
  - exists b'. split; [exact Hrun|].
    cbn [_counter b0 Book.set_counter bids asks] in Hc, Hside.
    destruct (Order.direction order =? 1).
    + destruct Hside as [Hp Heq]. split; [|auto].
      split; [exact Hinv'|]. rewrite Heq, Hc.
      split; [|split; [exact Na|split]].
      * rewrite (map_item_ts_perm _ _ Hp). cbn [map].
        apply NoDup_cons. auto.
      * rewrite Hp. constructor; [cbn; lia|].
        eapply Forall_impl; [exact Cb|]. cbn. intros; lia.
      * eapply Forall_impl; [exact Ca|]. cbn. intros; lia.
    + destruct Hside as [Hp Heq]. split; [|auto].
      split; [exact Hinv'|]. rewrite Heq, Hc.
      split; [exact Nb|split; [|split]].
      * rewrite (map_item_ts_perm _ _ Hp). cbn [map].
        apply NoDup_cons. auto.
      * eapply Forall_impl; [exact Cb|]. cbn. intros; lia.
      * rewrite Hp. constructor; [cbn; lia|].
        eapply Forall_impl; [exact Ca|]. cbn. intros; lia.
  - exfalso. cbn [bids asks b0 Book.set_counter] in Hcl.
    destruct (Order.direction order =? 1);
      eapply no_clash; try exact Hcl; cbn [map]; apply NoDup_cons; auto.
Qed.

Lemma item_le_fst (a a' b : item) : fst a = fst a' -> item_le a b -> item_le a' b.
Proof. unfold item_le. now intros ->. Qed.

Lemma item_le_fst_r (a b b' : item) : fst b = fst b' -> item_le a b -> item_le a b'.
Proof. unfold item_le. now intros ->. Qed.

(** One execution against the best ask of a well-formed book: the pop
    returns the entry at the root; when the entry still has quantity
    after the fill, [reinsert] puts it back under its own arrival number
    and it is again the entry at the root, ahead of every other resting
    ask; the counter and the bid side are not touched. *)
Lemma fill_best_ask (b : OrderBook) (it : item) (rest : list item) (qty : Z) :
  book_wf b -> asks b = it :: rest ->
  let popped :=
    BookEntry.set_remaining (BookEntry.remaining (snd it) - qty) (snd it) in
  exists b1 b2,
    Book.pop_best_ask b = (Returns (snd it), b1)
    /\ (if BookEntry.remaining popped >? 0
        then Book.reinsert popped b1 else ret tt b1) = (Returns tt, b2)
    /\ book_wf b2 /\ _counter b2 = _counter b /\ bids b2 = bids b
    /\ asks b ≡ₚ it :: asks b1
    /\ (if BookEntry.remaining popped >? 0
        then asks b2 ≡ₚ ask_item popped :: asks b1
             /\ Book.peek_best_ask b2 = Some popped
        else asks b2 = asks b1).
Proof.
  intros Hwf Hside popped. pose proof Hwf as (Hinv & Nb & Na & Cb & Ca).
  pose proof Hinv as (Hhb & Hha & Kb & Ka).
  assert (Hok : ask_item_ok it).
  { rewrite Hside in Ka. now inversion Ka. }
  destruct Hok as (Hkp & Hkt & Hdir).
  destruct (pop_best_ask_spec b Hinv) as
    [[He _]|[(it' & b1 & Hpop & Hroot & Hperm & Hother & Hc1 & Hinv1)
            |[_ Hcl]]].
  { congruence. }
  2: { exfalso. now apply (no_clash (asks b)). }
  rewrite Hside in Hroot. cbn in Hroot. inversion Hroot; subst it'.
  assert (Hts : map item_ts (asks b) ≡ₚ item_ts it :: map item_ts (asks b1)).
  { now rewrite (map_item_ts_perm _ _ Hperm). }
  assert (Na' : NoDup (item_ts it :: map item_ts (asks b1))).
  { now rewrite <- Hts. }
  apply NoDup_cons in Na' as [Hfresh Na1].
  assert (Ca' : Forall (fun x => item_ts x <= _counter b) (it :: asks b1)).
  { now rewrite <- Hperm. }
  apply Forall_cons in Ca' as [Cit Ca1].
  assert (Hwf1 : book_wf b1).
  { split; [exact Hinv1|]. rewrite Hother, Hc1. auto. }
  exists b1.
  destruct (BookEntry.remaining popped >? 0) eqn:Erem.
  - assert (Erem' : (BookEntry.remaining popped <=? 0) = false).
    { rewrite Z.gtb_ltb in Erem. apply Z.ltb_lt in Erem.
      apply Z.leb_gt. exact Erem. }
    unfold Book.reinsert. rewrite Erem'.
    assert (Hd : (Order.direction (BookEntry.order popped) =? 1) = false).
    { apply Z.eqb_neq. exact Hdir. }
    assert (Hkey : fst (ask_item popped) = fst it).
    { destruct it as [[p t] e]. cbn in *. now subst. }
    assert (Hts' : item_ts (ask_item popped) = item_ts it).
    { unfold item_ts. now rewrite Hkey. }
    destruct (push_entry_spec b1 popped Hinv1) as
      [(b2 & Hrun & Hinv2 & Hc2 & Hside2)|[_ Hcl]]; rewrite Hd in *.
    2: { exfalso. eapply no_clash; [|exact Hcl]. cbn [map].
         rewrite Hts'. apply NoDup_cons. auto. }
    destruct Hside2 as [Hp2 Hb2].
    exists b2. split; [exact Hpop|]. split; [exact Hrun|].
    assert (Hts2 : map item_ts (asks b2)
                   ≡ₚ item_ts it :: map item_ts (asks b1)).
    { rewrite (map_item_ts_perm _ _ Hp2). cbn [map]. now rewrite Hts'. }
    split; [|split; [congruence|split; [congruence|split; [exact Hperm|]]]].
    { split; [exact Hinv2|]. rewrite Hb2, Hother, Hc2, Hc1.
      split; [exact Nb|]. split; [|split; [exact Cb|]].
      - rewrite Hts2. apply NoDup_cons. auto.
      - rewrite Hp2. constructor; [|exact Ca1].
        unfold item_ts in *. rewrite Hkey. exact Cit. }
    split; [exact Hp2|].
    unfold Book.peek_best_ask.
    destruct (asks b2) as [|r rest2] eqn:E2.
    { apply Permutation_nil_cons in Hp2. contradiction. }
    assert (Hr : r ∈ ask_item popped :: asks b1).
    { rewrite <- Hp2. now left. }
    apply elem_of_cons in Hr as [->|Hr]; [reflexivity|].
    exfalso. apply Hfresh.
    assert (Hle1 : item_le r (ask_item popped)).
    { destruct Hinv2 as (_ & Hha2 & _).
      apply (item_root_least (r :: rest2));
        [rewrite <- E2; exact Hha2|reflexivity|rewrite Hp2; now left]. }
    assert (Hle2 : item_le it r).
    { apply (item_root_least (asks b)); auto.
      - now rewrite Hside.
      - rewrite Hperm. now right. }
    apply (item_le_fst_r _ _ it Hkey) in Hle1.
    rewrite (item_le_antisym_ts _ _ Hle2 Hle1).
    now apply list_elem_of_In, in_map, list_elem_of_In.
  - exists b1. split; [exact Hpop|]. split; [reflexivity|].
    split; [exact Hwf1|]. auto.
Qed.

(** One execution against the best bid of a well-formed book: the pop
    returns the entry at the root; when the entry still has quantity
    after the fill, [reinsert] puts it back under its own arrival number
    and it is again the entry at the root, ahead of every other resting
    bid; the counter and the ask side are not touched. *)
Lemma fill_best_bid (b : OrderBook) (it : item) (rest : list item) (qty : Z) :
  book_wf b -> bids b = it :: rest ->
  let popped :=
    BookEntry.set_remaining (BookEntry.remaining (snd it) - qty) (snd it) in
  exists b1 b2,
    Book.pop_best_bid b = (Returns (snd it), b1)
    /\ (if BookEntry.remaining popped >? 0
        then Book.reinsert popped b1 else ret tt b1) = (Returns tt, b2)
    /\ book_wf b2 /\ _counter b2 = _counter b /\ asks b2 = asks b
    /\ bids b ≡ₚ it :: bids b1
    /\ (if BookEntry.remaining popped >? 0
        then bids b2 ≡ₚ bid_item popped :: bids b1
             /\ Book.peek_best_bid b2 = Some popped
        else bids b2 = bids b1).
Proof.
  intros Hwf Hside popped. pose proof Hwf as (Hinv & Nb & Na & Cb & Ca).
  pose proof Hinv as (Hhb & Hha & Kb & Ka).
  assert (Hok : bid_item_ok it).
  { rewrite Hside in Kb. now inversion Kb. }
  destruct Hok as (Hkp & Hkt & Hdir).
  destruct (pop_best_bid_spec b Hinv) as
    [[He _]|[(it' & b1 & Hpop & Hroot & Hperm & Hother & Hc1 & Hinv1)
            |[_ Hcl]]].
  { congruence. }
  2: { exfalso. now apply (no_clash (bids b)). }
  rewrite Hside in Hroot. cbn in Hroot. inversion Hroot; subst it'.
  assert (Hts : map item_ts (bids b) ≡ₚ item_ts it :: map item_ts (bids b1)).
  { now rewrite (map_item_ts_perm _ _ Hperm). }
  assert (Nb' : NoDup (item_ts it :: map item_ts (bids b1))).
  { now rewrite <- Hts. }
  apply NoDup_cons in Nb' as [Hfresh Nb1].
  assert (Cb' : Forall (fun x => item_ts x <= _counter b) (it :: bids b1)).
  { now rewrite <- Hperm. }
  apply Forall_cons in Cb' as [Cit Cb1].
  assert (Hwf1 : book_wf b1).
  { split; [exact Hinv1|]. rewrite Hother, Hc1. auto. }
  exists b1.
  destruct (BookEntry.remaining popped >? 0) eqn:Erem.
  - assert (Erem' : (BookEntry.remaining popped <=? 0) = false).
    { rewrite Z.gtb_ltb in Erem. apply Z.ltb_lt in Erem.
      apply Z.leb_gt. exact Erem. }
    unfold Book.reinsert. rewrite Erem'.
    assert (Hd : (Order.direction (BookEntry.order popped) =? 1) = true).
    { apply Z.eqb_eq. exact Hdir. }
    assert (Hkey : fst (bid_item popped) = fst it).
    { destruct it as [[p t] e]. cbn in *. now subst. }
    assert (Hts' : item_ts (bid_item popped) = item_ts it).
    { unfold item_ts. now rewrite Hkey. }
    destruct (push_entry_spec b1 popped Hinv1) as
      [(b2 & Hrun & Hinv2 & Hc2 & Hside2)|[_ Hcl]]; rewrite Hd in *.
    2: { exfalso. eapply no_clash; [|exact Hcl]. cbn [map].
         rewrite Hts'. apply NoDup_cons. auto. }
    destruct Hside2 as [Hp2 Hb2].
    exists b2. split; [exact Hpop|]. split; [exact Hrun|].
    assert (Hts2 : map item_ts (bids b2)
                   ≡ₚ item_ts it :: map item_ts (bids b1)).
    { rewrite (map_item_ts_perm _ _ Hp2). cbn [map]. now rewrite Hts'. }
    split; [|split; [congruence|split; [congruence|split; [exact Hperm|]]]].
    { split; [exact Hinv2|]. rewrite Hb2, Hother, Hc2, Hc1.
      split; [|split; [exact Na|split; [|exact Ca]]].
      - rewrite Hts2. apply NoDup_cons. auto.
      - rewrite Hp2. constructor; [|exact Cb1].
        unfold item_ts in *. rewrite Hkey. exact Cit. }
    split; [exact Hp2|].
    unfold Book.peek_best_bid.
    destruct (bids b2) as [|r rest2] eqn:E2.
    { apply Permutation_nil_cons in Hp2. contradiction. }
    assert (Hr : r ∈ bid_item popped :: bids b1).
    { rewrite <- Hp2. now left. }
    apply elem_of_cons in Hr as [->|Hr]; [reflexivity|].
    exfalso. apply Hfresh.
    assert (Hle1 : item_le r (bid_item popped)).
    { destruct Hinv2 as (Hhb2 & _).
      apply (item_root_least (r :: rest2));
        [rewrite <- E2; exact Hhb2|reflexivity|rewrite Hp2; now left]. }
    assert (Hle2 : item_le it r).
    { apply (item_root_least (bids b)); auto.
      - now rewrite Hside.
      - rewrite Hperm. now right. }
    apply (item_le_fst_r _ _ it Hkey) in Hle1.
    rewrite (item_le_antisym_ts _ _ Hle2 Hle1).
    now apply list_elem_of_In, in_map, list_elem_of_In.
  - exists b1. split; [exact Hpop|]. split; [reflexivity|].
    split; [exact Hwf1|]. auto.
Qed.

(** ** The matching loop on a well-formed book *)

Lemma descends_fill_ask (side side1 side2 : list item) (it : item) (r : Z) :
  ask_item_ok it ->
  side ≡ₚ it :: side1 ->
  side2 ≡ₚ ask_item (BookEntry.set_remaining r (snd it)) :: side1 ->
  r <= BookEntry.remaining (snd it) ->
  descends side side2.
Proof.
  intros (Hp & Ht & _) Hperm Hperm2 Hr x Hx.
  rewrite Hperm2 in Hx. apply elem_of_cons in Hx as [->|Hx].
  - exists it. split; [rewrite Hperm; now left|].
    destruct it as [[p t] e]. cbn in *. subst.
    unfold same_entry_filled. cbn. auto.
  - exists x. split; [rewrite Hperm; now right|].
    apply same_entry_filled_refl.
Qed.

Lemma descends_fill_bid (side side1 side2 : list item) (it : item) (r : Z) :
  bid_item_ok it ->
  side ≡ₚ it :: side1 ->
  side2 ≡ₚ bid_item (BookEntry.set_remaining r (snd it)) :: side1 ->
  r <= BookEntry.remaining (snd it) ->
  descends side side2.
Proof.
  intros (Hp & Ht & _) Hperm Hperm2 Hr x Hx.
  rewrite Hperm2 in Hx. apply elem_of_cons in Hx as [->|Hx].
  - exists it. split; [rewrite Hperm; now left|].
    destruct it as [[p t] e]. cbn in *. subst.
    unfold same_entry_filled. cbn. auto.
  - exists x. split; [rewrite Hperm; now right|].
    apply same_entry_filled_refl.
Qed.

Lemma descends_pop (side side1 : list item) (it : item) :
  side ≡ₚ it :: side1 -> descends side side1.
Proof.
  intros Hperm x Hx. exists x. split; [rewrite Hperm; now right|].
  apply same_entry_filled_refl.
Qed.

(** On a well-formed book the matching loop returns within its budget of
    iterations.  It leaves a well-formed book, the counter of arrival
    numbers, the rules and the reference price as they were, does not
    touch the side of the incoming order, and every tuple left on the
    opposite side is a tuple that was there, after zero or more fills
    and under the same arrival number. *)
Lemma match_loop_spec (order : Order.t) (fuel : nat) :
  forall (eng : CDAEngine) (remaining : Z) (trades : list Trade.t),
    book_wf (book eng) ->
    (0 < remaining -> (CDA.opposite_depth order eng < fuel)%nat) ->
    exists remaining' trades' eng',
      CDA.match_loop fuel order remaining trades eng
      = (Returns (remaining', trades'), eng')
      /\ book_wf (book eng')
      /\ _counter (book eng') = _counter (book eng)
      /\ pl_rule eng' = pl_rule eng
      /\ tt_rule eng' = tt_rule eng
      /\ last_close_price eng' = last_close_price eng
      /\ if Order.direction order =? 1
         then bids (book eng') = bids (book eng)
              /\ descends (asks (book eng)) (asks (book eng'))
         else asks (book eng') = asks (book eng)
              /\ descends (bids (book eng)) (bids (book eng')).
Proof.
  assert (Hstop : forall (eng : CDAEngine) (remaining : Z)
                         (trades : list Trade.t),
    book_wf (book eng) ->
    exists remaining' trades' eng',
      (@Returns (Z * list Trade.t) (remaining, trades), eng)
      = (Returns (remaining', trades'), eng')
      /\ book_wf (book eng')
      /\ _counter (book eng') = _counter (book eng)
      /\ pl_rule eng' = pl_rule eng
      /\ tt_rule eng' = tt_rule eng
      /\ last_close_price eng' = last_close_price eng
      /\ if Order.direction order =? 1
         then bids (book eng') = bids (book eng)
              /\ descends (asks (book eng)) (asks (book eng'))
         else asks (book eng') = asks (book eng)
              /\ descends (bids (book eng)) (bids (book eng'))).
  { intros eng remaining trades Hwf. exists remaining, trades, eng.
    repeat (split; [first [reflexivity|assumption]|]).
    destruct (Order.direction order =? 1); split;
      auto using descends_refl. }
  induction fuel as [|fuel IH]; intros eng remaining trades Hwf Hfuel;
    cbn [CDA.match_loop]; destruct (remaining >? 0) eqn:Er;
    try (now apply Hstop).
  { rewrite Z.gtb_ltb in Er. apply Z.ltb_lt in Er.
    specialize (Hfuel Er). lia. }
  rewrite Z.gtb_ltb in Er. apply Z.ltb_lt in Er. specialize (Hfuel Er).
  unfold bind at 1. unfold get at 1.
  unfold CDA.opposite_depth in Hfuel.
  unfold Book.peek_best_ask, Book.best_ask, Book.peek_best_bid, Book.best_bid.
  destruct (Order.direction order =? 1) eqn:Ed.
  - (* a buy order meets the asks *)
    destruct (asks (book eng)) as [|it rest] eqn:Hside;
      [rewrite <- Hside; now apply Hstop|].
    destruct it as [[p t] e].
    match goal with |- context [if ?c then ret (remaining, trades) else _] =>
      destruct c; [rewrite <- Hside; now apply Hstop|] end.
    match goal with |- context [if ?c then ret (remaining, trades) else _] =>
      destruct c; [rewrite <- Hside; now apply Hstop|] end.
    set (qty := Z.min remaining (BookEntry.remaining e)).
    destruct (fill_best_ask (book eng) (p, t, e) rest qty Hwf Hside) as
      (b1 & b2 & Hpop & Hre & Hwf2 & Hc2 & Hb2 & Hperm & Hcase).
    cbn [snd] in Hpop, Hre, Hcase.
    unfold bind at 1. unfold CDA.record_trade.
    unfold bind at 1. unfold get at 1.
    unfold bind at 1. unfold modify at 1.
    unfold bind at 1. unfold get at 1.
    unfold bind at 1. unfold modify at 1. unfold ret at 1.
    unfold bind at 1. unfold CDA.on_book at 1. unfold on_field.
    cbn [book]. rewrite Hpop.
    unfold bind at 1.
    set (popped := BookEntry.set_remaining (BookEntry.remaining e - qty) e)
      in *.
    set (eng1 := CDA.set_book b1 _).
    assert (Hre' :
      (if BookEntry.remaining popped >? 0
       then CDA.on_book (Book.reinsert popped) else ret tt) eng1
      = (Returns tt, CDA.set_book b2 eng1)).
    { destruct (BookEntry.remaining popped >? 0).
      - unfold CDA.on_book, on_field. cbn [book eng1 CDA.set_book].
        now rewrite Hre.
      - unfold ret in *. inversion Hre; subst b2. reflexivity. }
    rewrite Hre'.
    set (eng2 := CDA.set_book b2 eng1).
    assert (Hfuel2 : 0 < remaining - qty ->
                     (CDA.opposite_depth order eng2 < fuel)%nat).
    { intros Hpos. unfold CDA.opposite_depth. rewrite Ed.
      cbn [book eng2 eng1 CDA.set_book].
      destruct (BookEntry.remaining popped >? 0) eqn:Erem.
      - rewrite Z.gtb_ltb in Erem. apply Z.ltb_lt in Erem.
        cbn [BookEntry.remaining popped BookEntry.set_remaining] in Erem.
        unfold qty in *. lia.
      - rewrite Hcase. apply Permutation_length in Hperm.
        rewrite Hside in Hperm. cbn [length] in *. lia. }
    epose proof (IH eng2 (remaining - qty) _ Hwf2 Hfuel2) as
      (r' & tr' & eng' & Hrun & Hwf' & Hc' & Hpl & Htt & Hlc & Hsides).
    exists r', tr', eng'. split; [exact Hrun|].
    cbn [book eng2 eng1 CDA.set_book pl_rule tt_rule last_close_price]
      in Hc', Hpl, Htt, Hlc, Hsides.
    destruct Hsides as [Hsame Hdesc]. rewrite <- Hside.
    split; [exact Hwf'|]. repeat (split; [congruence|]).
    eapply descends_trans; [|exact Hdesc].
    pose proof Hwf as ((_ & _ & _ & Ka) & _).
    assert (Hok : ask_item_ok (p, t, e)).
    { rewrite Hside in Ka. now inversion Ka. }
    destruct (BookEntry.remaining popped >? 0) eqn:Erem.
    + destruct Hcase as [Hp2 _].
      eapply (descends_fill_ask _ _ _ (p, t, e)); eauto.
      rewrite Z.gtb_ltb in Erem. apply Z.ltb_lt in Erem.
      cbn [BookEntry.remaining popped BookEntry.set_remaining snd] in *.
      unfold qty in *. lia.
    + rewrite Hcase. eapply descends_pop; eauto.
  - (* any other order meets the bids *)
    destruct (bids (book eng)) as [|it rest] eqn:Hside;
      [rewrite <- Hside; now apply Hstop|].
    destruct it as [[p t] e].
    match goal with |- context [if ?c then ret (remaining, trades) else _] =>
      destruct c; [rewrite <- Hside; now apply Hstop|] end.
    match goal with |- context [if ?c then ret (remaining, trades) else _] =>
      destruct c; [rewrite <- Hside; now apply Hstop|] end.
    set (qty := Z.min remaining (BookEntry.remaining e)).
    destruct (fill_best_bid (book eng) (p, t, e) rest qty Hwf Hside) as
      (b1 & b2 & Hpop & Hre & Hwf2 & Hc2 & Hb2 & Hperm & Hcase).
    cbn [snd] in Hpop, Hre, Hcase.
    unfold bind at 1. unfold CDA.record_trade.
    unfold bind at 1. unfold get at 1.
    unfold bind at 1. unfold modify at 1.
    unfold bind at 1. unfold get at 1.
    unfold bind at 1. unfold modify at 1. unfold ret at 1.
    unfold bind at 1. unfold CDA.on_book at 1. unfold on_field.
    cbn [book]. rewrite Hpop.
    unfold bind at 1.
    set (popped := BookEntry.set_remaining (BookEntry.remaining e - qty) e)
      in *.
    set (eng1 := CDA.set_book b1 _).
    assert (Hre' :
      (if BookEntry.remaining popped >? 0
       then CDA.on_book (Book.reinsert popped) else ret tt) eng1
      = (Returns tt, CDA.set_book b2 eng1)).
    { destruct (BookEntry.remaining popped >? 0).
      - unfold CDA.on_book, on_field. cbn [book eng1 CDA.set_book].
        now rewrite Hre.
      - unfold ret in *. inversion Hre; subst b2. reflexivity. }
    rewrite Hre'.
    set (eng2 := CDA.set_book b2 eng1).
    assert (Hfuel2 : 0 < remaining - qty ->
                     (CDA.opposite_depth order eng2 < fuel)%nat).
    { intros Hpos. unfold CDA.opposite_depth. rewrite Ed.
      cbn [book eng2 eng1 CDA.set_book].
      destruct (BookEntry.remaining popped >? 0) eqn:Erem.
      - rewrite Z.gtb_ltb in Erem. apply Z.ltb_lt in Erem.
        cbn [BookEntry.remaining popped BookEntry.set_remaining] in Erem.
        unfold qty in *. lia.
      - rewrite Hcase. apply Permutation_length in Hperm.
        rewrite Hside in Hperm. cbn [length] in *. lia. }
    epose proof (IH eng2 (remaining - qty) _ Hwf2 Hfuel2) as
      (r' & tr' & eng' & Hrun & Hwf' & Hc' & Hpl & Htt & Hlc & Hsides).
    exists r', tr', eng'. split; [exact Hrun|].
    cbn [book eng2 eng1 CDA.set_book pl_rule tt_rule last_close_price]
      in Hc', Hpl, Htt, Hlc, Hsides.
    destruct Hsides as [Hsame Hdesc]. rewrite <- Hside.
    split; [exact Hwf'|]. repeat (split; [congruence|]).
    eapply descends_trans; [|exact Hdesc].
    pose proof Hwf as ((_ & _ & Kb & _) & _).
    assert (Hok : bid_item_ok (p, t, e)).
    { rewrite Hside in Kb. now inversion Kb. }
    destruct (BookEntry.remaining popped >? 0) eqn:Erem.
    + destruct Hcase as [Hp2 _].
      eapply (descends_fill_bid _ _ _ (p, t, e)); eauto.
      rewrite Z.gtb_ltb in Erem. apply Z.ltb_lt in Erem.
      cbn [BookEntry.remaining popped BookEntry.set_remaining snd] in *.
      unfold qty in *. lia.
    + rewrite Hcase. eapply descends_pop; eauto.
Qed.

(** ** [process_order] on a well-formed book *)

(** On a well-formed book [process_order] returns and leaves a
    well-formed book.  An order that fails validation changes nothing.
    Otherwise the matching loop runs, and then the remainder rests
    exactly when it is positive, the order's price is positive and the
    price passes the price-limit check; if not, the book is the one the
    loop left. *)
Lemma process_order_spec (eng : CDAEngine) (order : Order.t) :
  book_wf (book eng) ->
  exists trades eng',
    CDA.process_order order eng = (Returns trades, eng')
    /\ book_wf (book eng')
    /\ if passes_validation order eng then
         exists remaining eng1,
           CDA.match_loop (S (CDA.opposite_depth order eng)) order
             (Order.quantity order) [] eng
           = (Returns (remaining, trades), eng1)
           /\ book_wf (book eng1)
           /\ _counter (book eng1) = _counter (book eng)
           /\ pl_rule eng1 = pl_rule eng
           /\ last_close_price eng1 = last_close_price eng
           /\ (if Order.direction order =? 1
               then bids (book eng1) = bids (book eng)
                    /\ descends (asks (book eng)) (asks (book eng1))
               else asks (book eng1) = asks (book eng)
                    /\ descends (bids (book eng)) (bids (book eng1)))
           /\ if (0 <? remaining) && Qlt_bool 0 (Order.price order)
                 && is_valid_price (pl_rule eng1) (Order.price order)
                      (last_close_price eng1)
              then rests order remaining (book eng1) (book eng')
              else book eng' = book eng1
       else trades = [] /\ eng' = eng.
Proof.
  intros Hwf. unfold CDA.process_order, passes_validation.
  destruct (Order.quantity order <=? 0); cbn [negb andb];
    [exists [], eng; auto|].
  destruct (String.eqb (Order.order_type order) "market"
            || String.eqb (Order.order_type order) "limit");
    cbn [negb andb]; [|exists [], eng; auto].
  destruct ((Order.direction order =? 1) || (Order.direction order =? -1));
    cbn [negb andb]; [|exists [], eng; auto].
  destruct (String.eqb (Order.order_type order) "limit"
            && Qle_bool (Order.price order) 0);
    cbn [negb andb]; [exists [], eng; auto|].
  unfold bind at 1. unfold get at 1.
  destruct (String.eqb (Order.order_type order) "limit"
            && negb (is_valid_price (pl_rule eng) (Order.price order)
                       (last_close_price eng)));
    cbn [negb andb]; [exists [], eng; auto|].
  destruct (match_loop_spec order (S (CDA.opposite_depth order eng)) eng
              (Order.quantity order) [] Hwf ltac:(lia)) as
    (rem & trades & eng1 & Hrun & Hwf1 & Hc1 & Hpl & Htt & Hlc & Hsides).
  unfold bind at 1. rewrite Hrun. cbn [fst snd].
  unfold bind at 1. unfold CDA.rest_remainder.
  unfold bind at 1. unfold get at 1.
  destruct (add_limit_wf (book eng1) (Order.replace_quantity rem order) Hwf1)
    as (b' & Hadd & Hwf' & Hcase).
  cbn [Order.replace_quantity Order.quantity Order.price Order.direction]
    in Hcase.
  assert (Hcond : (0 <? rem) && Qlt_bool 0 (Order.price order)
                  = negb ((rem <=? 0) || Qle_bool (Order.price order) 0)).
  { unfold Qlt_bool. rewrite negb_orb. f_equal. apply Z.ltb_antisym. }
  destruct (is_valid_price (pl_rule eng1) (Order.price order)
              (last_close_price eng1)) eqn:Ev.
  - unfold CDA.on_book, on_field. rewrite Hadd. unfold ret.
    exists trades, (CDA.set_book b' eng1).
    split; [reflexivity|]. split; [exact Hwf'|].
    exists rem, eng1. repeat (split; [first [reflexivity|assumption]|]).
    rewrite Ev, Hcond, andb_true_r. cbn [book CDA.set_book].
    destruct ((rem <=? 0) || Qle_bool (Order.price order) 0);
      cbn [negb]; [exact Hcase|].
    unfold rests. exact Hcase.
  - unfold ret. exists trades, eng1.
    split; [reflexivity|]. split; [exact Hwf1|].
    exists rem, eng1. repeat (split; [first [reflexivity|assumption]|]).
    now rewrite Ev, andb_false_r.
Qed.

(** ** Resting of the remainder *)

(** C9, counterexample.  A market buy of 5 at nominal price 0 on an
    empty book, with the price-limit rule disabled: the loop leaves the
    whole quantity, which is positive, the price passes the price-limit
    check, and yet nothing rests: the book is unchanged. *)
Lemma market_remainder_passes_check_but_does_not_rest :
  let eng :=
    CDA.init None (mkPriceLimitRule false (1 # 10))
      (mkTransactionTaxRule false (1 # 1000)) in
  let order := Order.mk 7 1 "market" 0 5 in
  CDA.match_loop (S (CDA.opposite_depth order eng)) order
    (Order.quantity order) [] eng
  = (Returns (5, []), eng)
  /\ CDA.process_order order eng = (Returns [], eng)
  /\ ~ (rests order 5 (book eng) (book eng)
        <-> 0 < 5
            /\ is_valid_price (pl_rule eng) (Order.price order)
                 (last_close_price eng) = true).
Proof.
  cbv zeta. split; [reflexivity|]. split; [reflexivity|].
  intros [_ H]. destruct H as [Hc _]; [split; [lia|reflexivity]|].
  cbn in Hc. lia.
Qed.

(** C9, as the code has it.  For an order that reaches the matching loop
    on a well-formed book, [process_order] returns and the remainder
    rests on the book if and only if it is positive, the order's price is
    strictly positive (the guard of [add_limit]) and the price passes
    the price-limit check against the reference price; otherwise the
    book is the one the matching loop left.  In particular the remainder
    of an order whose price is zero -- a market order -- never rests,
    whatever the price-limit rule. *)
Theorem remainder_rests_iff (eng : CDAEngine) (order : Order.t) :
  book_wf (book eng) ->
  passes_validation order eng = true ->
  exists trades eng' remaining eng1,
    CDA.process_order order eng = (Returns trades, eng')
    /\ CDA.match_loop (S (CDA.opposite_depth order eng)) order
         (Order.quantity order) [] eng
       = (Returns (remaining, trades), eng1)
    /\ (rests order remaining (book eng1) (book eng')
        <-> 0 < remaining /\ (0 < Order.price order)%Q
            /\ is_valid_price (pl_rule eng) (Order.price order)
                 (last_close_price eng) = true)
    /\ (~ rests order remaining (book eng1) (book eng') ->
        book eng' = book eng1)
    /\ ((Order.price order == 0)%Q -> book eng' = book eng1).
Proof.
  intros Hwf Hval.
  destruct (process_order_spec eng order Hwf) as
    (trades & eng' & Hrun & Hwf' & Hcase).
  rewrite Hval in Hcase.
  destruct Hcase as
    (rem & eng1 & Hloop & Hwf1 & Hc1 & Hpl & Hlc & Hsides & Hrest).
  rewrite Hpl, Hlc in Hrest.
  exists trades, eng', rem, eng1.
  split; [exact Hrun|]. split; [exact Hloop|].
  assert (Hnot : book eng' = book eng1 ->
                 ~ rests order rem (book eng1) (book eng')).
  { intros Heq [Hc _]. rewrite Heq in Hc. lia. }
  destruct (0 <? rem) eqn:Er; cbn [andb] in Hrest.
  2: { apply Z.ltb_ge in Er.
       split; [split; [intros H; now apply Hnot in H|intros [H _]; lia]|].
       auto. }
  apply Z.ltb_lt in Er.
  destruct (Qlt_bool 0 (Order.price order)) eqn:Ep; cbn [andb] in Hrest.
  2: { assert (~ (0 < Order.price order)%Q).
       { intros H. apply Qlt_bool_iff in H. congruence. }
       split; [split; [intros H'; now apply Hnot in H'|tauto]|]. auto. }
  apply Qlt_bool_iff in Ep.
  destruct (is_valid_price (pl_rule eng) (Order.price order)
              (last_close_price eng)) eqn:Ev.
  - split; [tauto|]. split; [tauto|]. intros H0. lra.
  - split; [split; [intros H'; now apply Hnot in H'|intros (_ & _ & H); discriminate]|].
    auto.
Qed.

Lemma remainder_rests_iff_witness :
  let eng :=
    CDA.init (Some 100%Q) (mkPriceLimitRule true (1 # 10))
      (mkTransactionTaxRule false (1 # 1000)) in
  let order := Order.mk 7 1 "market" 0 5 in
  exists trades eng' remaining eng1,
    CDA.process_order order eng = (Returns trades, eng')
    /\ CDA.match_loop (S (CDA.opposite_depth order eng)) order
         (Order.quantity order) [] eng
       = (Returns (remaining, trades), eng1)
    /\ (rests order remaining (book eng1) (book eng')
        <-> 0 < remaining /\ (0 < Order.price order)%Q
            /\ is_valid_price (pl_rule eng) (Order.price order)
                 (last_close_price eng) = true)
    /\ (~ rests order remaining (book eng1) (book eng') ->
        book eng' = book eng1)
    /\ ((Order.price order == 0)%Q -> book eng' = book eng1).
Proof.
  intros eng order.
  apply (remainder_rests_iff eng order); [apply book_wf_init|reflexivity].
Defined.

(** ** Arrival numbers across fills *)

(** One call of [process_order] on a well-formed book: it returns, the
    counter does not go down, and every tuple left on either side under
    an arrival number issued before the call is a tuple that was on that
    side before the call, after zero or more fills. *)
Lemma process_order_descends (eng : CDAEngine) (order : Order.t) :
  book_wf (book eng) ->
  exists trades eng',
    CDA.process_order order eng = (Returns trades, eng')
    /\ book_wf (book eng')
    /\ _counter (book eng) <= _counter (book eng')
    /\ (forall it, it ∈ bids (book eng') ->
          item_ts it <= _counter (book eng) ->
          exists it0, it0 ∈ bids (book eng) /\ same_entry_filled it0 it)
    /\ (forall it, it ∈ asks (book eng') ->
          item_ts it <= _counter (book eng) ->
          exists it0, it0 ∈ asks (book eng) /\ same_entry_filled it0 it).
Proof.
  intros Hwf.
  destruct (process_order_spec eng order Hwf) as
    (trades & eng' & Hrun & Hwf' & Hcase).
  exists trades, eng'. split; [exact Hrun|]. split; [exact Hwf'|].
  destruct (passes_validation order eng).
  2: { destruct Hcase as [_ ->]. split; [lia|].
       split; intros it Hit _; exists it; auto using same_entry_filled_refl. }
  destruct Hcase as
    (rem & eng1 & _ & _ & Hc1 & _ & _ & Hsides & Hrest).
  assert (Hold : forall (side : list item) (it : item),
             it ∈ side -> exists it0, it0 ∈ side /\ same_entry_filled it0 it).
  { intros side it Hit. exists it. auto using same_entry_filled_refl. }
  destruct ((0 <? rem) && Qlt_bool 0 (Order.price order)
            && is_valid_price (pl_rule eng1) (Order.price order)
                 (last_close_price eng1)).
  - destruct Hrest as [Hc' Hnew]. split; [lia|].
    destruct (Order.direction order =? 1);
      destruct Hsides as [Hsame Hdesc]; destruct Hnew as [Hperm Heq].
    + split.
      * intros it Hit Hts. rewrite Hperm in Hit.
        apply elem_of_cons in Hit as [->|Hit].
        -- cbn in Hts. lia.
        -- rewrite Hsame in Hit. now apply Hold.
      * intros it Hit _. rewrite Heq in Hit. now apply Hdesc.
    + split.
      * intros it Hit _. rewrite Heq in Hit. now apply Hdesc.
      * intros it Hit Hts. rewrite Hperm in Hit.
        apply elem_of_cons in Hit as [->|Hit].
        -- cbn in Hts. lia.
        -- rewrite Hsame in Hit. now apply Hold.
  - rewrite Hrest. split; [lia|].
    destruct (Order.direction order =? 1);
      destruct Hsides as [Hsame Hdesc]; split; intros it Hit _;
      first [now apply Hdesc | rewrite Hsame in Hit; now apply Hold].
Qed.

Lemma same_entry_filled_ts (it0 it : item) :
  same_entry_filled it0 it -> item_ts it0 = item_ts it.
Proof. intros (H & _). unfold item_ts. now rewrite H. Qed.

(** The same over any number of calls. *)
Lemma process_orders_descends (orders : list Order.t) :
  forall eng : CDAEngine,
    book_wf (book eng) ->
    exists trades eng',
      process_orders orders eng = (Returns trades, eng')
      /\ book_wf (book eng')
      /\ _counter (book eng) <= _counter (book eng')
      /\ (forall it, it ∈ bids (book eng') ->
            item_ts it <= _counter (book eng) ->
            exists it0, it0 ∈ bids (book eng) /\ same_entry_filled it0 it)
      /\ (forall it, it ∈ asks (book eng') ->
            item_ts it <= _counter (book eng) ->
            exists it0, it0 ∈ asks (book eng) /\ same_entry_filled it0 it).
Proof.
  induction orders as [|order orders IH]; intros eng Hwf.
  - exists [], eng. split; [reflexivity|]. split; [exact Hwf|].
    split; [lia|].
    split; intros it Hit _; exists it; auto using same_entry_filled_refl.
  - destruct (process_order_descends eng order Hwf) as
      (tr1 & eng1 & Hrun1 & Hwf1 & Hc1 & Hb1 & Ha1).
    destruct (IH eng1 Hwf1) as (tr2 & eng2 & Hrun2 & Hwf2 & Hc2 & Hb2 & Ha2).
    exists (tr1 ++ tr2), eng2.
    split.
    { cbn [process_orders]. unfold bind. now rewrite Hrun1, Hrun2. }
    split; [exact Hwf2|]. split; [lia|].
    split.
    + intros it Hit Hts.
      destruct (Hb2 it Hit ltac:(lia)) as (it1 & Hit1 & F12).
      destruct (Hb1 it1 Hit1) as (it0 & Hit0 & F01).
      { rewrite (same_entry_filled_ts _ _ F12). exact Hts. }
      exists it0. eauto using same_entry_filled_trans.
    + intros it Hit Hts.
      destruct (Ha2 it Hit ltac:(lia)) as (it1 & Hit1 & F12).
      destruct (Ha1 it1 Hit1) as (it0 & Hit0 & F01).
      { rewrite (same_entry_filled_ts _ _ F12). exact Hts. }
      exists it0. eauto using same_entry_filled_trans.
Qed.

(** A popped ask put back by [reinsert] with a positive remaining
    quantity. *)
Lemma reinsert_popped_ask (b b1 : OrderBook) (e : BookEntry.t) (r : Z) :
  book_wf b -> Book.pop_best_ask b = (Returns e, b1) -> 0 < r ->
  exists b2,
    Book.reinsert (BookEntry.set_remaining r e) b1 = (Returns tt, b2)
    /\ book_wf b2 /\ _counter b2 = _counter b
    /\ asks b2
       ≡ₚ (BookEntry.price e, BookEntry.timestamp e,
           BookEntry.set_remaining r e) :: asks b1
    /\ bids b2 = bids b
    /\ Book.peek_best_ask b2 = Some (BookEntry.set_remaining r e).
Proof.
  intros Hwf Hpop Hr. pose proof Hwf as (Hinv & _).
  destruct (pop_best_ask_spec b Hinv) as
    [[_ H1]|[(it & b1' & H1 & Hroot & _)|[[b1' H1] _]]];
    rewrite H1 in Hpop; inversion Hpop; subst.
  destruct (asks b) as [|it' rest] eqn:Hside; [discriminate|].
  cbn in Hroot. inversion Hroot; subst it'.
  destruct (fill_best_ask b it rest (BookEntry.remaining (snd it) - r)
              Hwf Hside) as
    (b1' & b2 & Hpop' & Hre & Hwf2 & Hc2 & Hb2 & _ & Hcase).
  rewrite H1 in Hpop'. inversion Hpop'; subst b1'.
  replace (BookEntry.remaining (snd it) - (BookEntry.remaining (snd it) - r))
    with r in * by lia.
  assert (Hgt : (BookEntry.remaining (BookEntry.set_remaining r (snd it)) >? 0)
                = true).
  { cbn. rewrite Z.gtb_ltb. now apply Z.ltb_lt. }
  rewrite Hgt in Hre, Hcase. destruct Hcase as [Hperm Hpeek].
  exists b2. auto 10.
Qed.

Lemma reinsert_popped_bid (b b1 : OrderBook) (e : BookEntry.t) (r : Z) :
  book_wf b -> Book.pop_best_bid b = (Returns e, b1) -> 0 < r ->
  exists b2,
    Book.reinsert (BookEntry.set_remaining r e) b1 = (Returns tt, b2)
    /\ book_wf b2 /\ _counter b2 = _counter b
    /\ bids b2
       ≡ₚ ((- BookEntry.price e)%Q, BookEntry.timestamp e,
           BookEntry.set_remaining r e) :: bids b1
    /\ asks b2 = asks b
    /\ Book.peek_best_bid b2 = Some (BookEntry.set_remaining r e).
Proof.
  intros Hwf Hpop Hr. pose proof Hwf as (Hinv & _).
  destruct (pop_best_bid_spec b Hinv) as
    [[_ H1]|[(it & b1' & H1 & Hroot & _)|[[b1' H1] _]]];
    rewrite H1 in Hpop; inversion Hpop; subst.
  destruct (bids b) as [|it' rest] eqn:Hside; [discriminate|].
  cbn in Hroot. inversion Hroot; subst it'.
  destruct (fill_best_bid b it rest (BookEntry.remaining (snd it) - r)
              Hwf Hside) as
    (b1' & b2 & Hpop' & Hre & Hwf2 & Hc2 & Hb2 & _ & Hcase).
  rewrite H1 in Hpop'. inversion Hpop'; subst b1'.
  replace (BookEntry.remaining (snd it) - (BookEntry.remaining (snd it) - r))
    with r in * by lia.
  assert (Hgt : (BookEntry.remaining (BookEntry.set_remaining r (snd it)) >? 0)
                = true).
  { cbn. rewrite Z.gtb_ltb. now apply Z.ltb_lt. }
  rewrite Hgt in Hre, Hcase. destruct Hcase as [Hperm Hpeek].
  exists b2. auto 10.
Qed.

(** ** The theorems at concrete books *)

Lemma book_wf_add_limit (b : OrderBook) (order : Order.t) :
  book_wf b -> book_wf (snd (Book.add_limit order b)).
Proof.
  intros Hwf. destruct (add_limit_wf b order Hwf) as (b' & Hrun & Hwf' & _).
  now rewrite Hrun.
Qed.


(** * Further properties *)

(** ** The scheduler from the settlement marker *)

Lemma trace_app (a b : nat) : forall s,
  Timeline.trace (a + b) s
  = Timeline.trace a s ++ Timeline.trace b (Timeline.run a s).
Proof.
  induction a as [|a IH]; intros s; cbn [Nat.add Timeline.trace Timeline.run].
  - reflexivity.
  - destruct (Timeline.step s) as [ev s'] eqn:E. cbn [snd].
    now rewrite IH.
Qed.

Lemma run_app (a b : nat) : forall s,
  Timeline.run (a + b) s = Timeline.run b (Timeline.run a s).
Proof.
  induction a as [|a IH]; intros s; cbn [Nat.add Timeline.run];
    [reflexivity|apply IH].
Qed.

Ltac step_cases :=
  unfold Timeline.step;
  repeat match goal with
    | H : Timeline.finished _ = _ |- _ => rewrite H
    | |- context [if ?c then _ else _] =>
        let E := fresh "E" in
        destruct c eqn:E;
        try (apply andb_true_iff in E; destruct E);
        try (apply andb_false_iff in E; destruct E)
    end;
  repeat match goal with
    | H : (_ =? _) = true |- _ => apply Z.eqb_eq in H
    | H : (_ =? _) = false |- _ => apply Z.eqb_neq in H
    | H : (_ <=? _) = true |- _ => apply Z.leb_le in H
    | H : (_ <=? _) = false |- _ => apply Z.leb_gt in H
    | H : (_ <? _) = true |- _ => apply Z.ltb_lt in H
    | H : (_ <? _) = false |- _ => apply Z.ltb_ge in H
    | H : (_ >? _) = true |- _ => rewrite Z.gtb_ltb in H; apply Z.ltb_lt in H
    | H : (_ >? _) = false |- _ => rewrite Z.gtb_ltb in H; apply Z.ltb_ge in H
    | H : (_ >=? _) = true |- _ => rewrite Z.geb_leb in H; apply Z.leb_le in H
    | H : (_ >=? _) = false |- _ => rewrite Z.geb_leb in H; apply Z.leb_gt in H
    end;
  try lia; try reflexivity.

Lemma step_trading (s : Timeline.t) :
  Timeline.finished s = false ->
  0 <= Timeline.current_round s < Timeline.rounds_per_period s ->
  Timeline.step s
  = ("trading", Timeline.set_round (Timeline.current_round s + 1) s).
Proof.
  intros Hf Hr. step_cases.
  replace (Timeline.current_round s) with 0 by lia. reflexivity.
Qed.

Lemma step_period_end (s : Timeline.t) :
  Timeline.finished s = false ->
  1 <= Timeline.current_round s ->
  Timeline.current_round s = Timeline.rounds_per_period s ->
  Timeline.step s
  = ("period_end", Timeline.set_round (Timeline.current_round s + 1) s).
Proof. intros Hf Hr He. step_cases. Qed.

Lemma step_next_period (s : Timeline.t) :
  Timeline.finished s = false ->
  1 <= Timeline.current_round s ->
  Timeline.rounds_per_period s < Timeline.current_round s ->
  Timeline.step s
  = if Timeline.current_period s >=? Timeline.total_periods s
    then ("finished", Timeline.set_finished true s)
    else ("settlement",
          Timeline.set_round 0
            (Timeline.set_period (Timeline.current_period s + 1) s)).
Proof.
  intros Hf Hr Hgt. unfold Timeline.step. rewrite Hf.
  destruct (Timeline.current_round s =? 0) eqn:E1;
    [apply Z.eqb_eq in E1; lia|].
  destruct ((1 <=? Timeline.current_round s)
            && (Timeline.current_round s <? Timeline.rounds_per_period s))
    eqn:E2.
  { apply andb_true_iff in E2 as [_ E2]. apply Z.ltb_lt in E2. lia. }
  destruct (Timeline.current_round s =? Timeline.rounds_per_period s) eqn:E3;
    [apply Z.eqb_eq in E3; lia|].
  destruct (Timeline.current_round s >? Timeline.rounds_per_period s) eqn:E4;
    [reflexivity|].
  rewrite Z.gtb_ltb in E4. apply Z.ltb_ge in E4. lia.
Qed.

(** [k] trading rounds in a row. *)
Lemma trace_trading (k : nat) : forall s,
  Timeline.finished s = false ->
  0 <= Timeline.current_round s ->
  Timeline.current_round s + Z.of_nat k <= Timeline.rounds_per_period s ->
  Timeline.trace k s = repeat "trading" k
  /\ Timeline.run k s
     = Timeline.set_round (Timeline.current_round s + Z.of_nat k) s.
Proof.
  induction k as [|k IH]; intros s Hf H0 Hk.
  - cbn. split; [reflexivity|]. rewrite Z.add_0_r. now destruct s.
  - cbn [Timeline.trace Timeline.run repeat].
    rewrite step_trading by first [assumption|lia]. cbn [snd].
    destruct (IH (Timeline.set_round (Timeline.current_round s + 1) s))
      as [Ht Hr]; cbn; auto; try lia.
    rewrite Ht, Hr. split; [reflexivity|]. cbn.
    unfold Timeline.set_round. cbn. f_equal. lia.
Qed.

(** One period from the settlement marker: the trading rounds, then
    "period_end"; the round counter is left above the last round. *)
Lemma trace_one_period (r : nat) (s : Timeline.t) :
  (1 <= r)%nat ->
  Timeline.finished s = false ->
  Timeline.current_round s = 0 ->
  Timeline.rounds_per_period s = Z.of_nat r ->
  Timeline.trace (r + 1) s = repeat "trading" r ++ ["period_end"]
  /\ Timeline.run (r + 1) s = Timeline.set_round (Z.of_nat r + 1) s.
Proof.
  intros Hr Hf H0 HR.
  destruct (trace_trading r s) as [Ht Hrun]; auto; try lia.
  rewrite trace_app, run_app, Ht, Hrun. rewrite H0, Z.add_0_l.
  cbn [Timeline.trace Timeline.run].
  rewrite step_period_end by (cbn; first [assumption|lia]).
  split; [reflexivity|]. unfold Timeline.set_round. cbn. reflexivity.
Qed.

(** X1.  A scheduler that stands at the settlement marker of a period
    (round 0, not finished), with at least one round per period, emits
    for every remaining period the configured number of "trading"
    events, then "period_end", then "settlement", and after the last
    period "finished", at which point the [finished] flag is set. *)
Theorem trace_from_settlement_marker (r m : nat) : forall s : Timeline.t,
  (1 <= r)%nat ->
  Timeline.finished s = false ->
  Timeline.current_round s = 0 ->
  Timeline.rounds_per_period s = Z.of_nat r ->
  Z.of_nat m = Z.max 0 (Timeline.total_periods s - Timeline.current_period s) ->
  Timeline.trace ((r + 2) * S m) s = expected_trace r (S m)
  /\ Timeline.finished (Timeline.run ((r + 2) * S m) s) = true.
Proof.
  induction m as [|m IH]; intros s Hr Hf H0 HR Hm.
  - replace ((r + 2) * 1)%nat with ((r + 1) + 1)%nat by lia.
    destruct (trace_one_period r s) as [Ht Hrun]; auto.
    rewrite (trace_app (r + 1) 1), (run_app (r + 1) 1), Ht, Hrun.
    cbn [Timeline.trace Timeline.run].
    rewrite step_next_period by (cbn; first [assumption|lia]). cbn.
    destruct (Timeline.current_period s >=? Timeline.total_periods s) eqn:E.
    + cbn. split; [|reflexivity]. now rewrite <- app_assoc.
    + rewrite Z.geb_leb in E. apply Z.leb_gt in E. lia.
  - replace ((r + 2) * S (S m))%nat
      with (((r + 1) + 1) + (r + 2) * S m)%nat by lia.
    destruct (trace_one_period r s) as [Ht Hrun]; auto.
    rewrite (trace_app (r + 1 + 1)), (run_app (r + 1 + 1)).
    rewrite (trace_app (r + 1) 1), (run_app (r + 1) 1).
    rewrite Ht, Hrun. cbn [Timeline.trace Timeline.run].
    rewrite step_next_period by (cbn; first [assumption|lia]). cbn.
    destruct (Timeline.current_period s >=? Timeline.total_periods s) eqn:E.
    + rewrite Z.geb_leb in E. apply Z.leb_le in E. lia.
    + cbn [snd fst app].
      set (s' := Timeline.set_round 0 _).
      destruct (IH s') as [Ht' Hf']; cbn; auto; try lia.
      rewrite Ht', Hf'. split; [|reflexivity].
      cbn [expected_trace]. rewrite <- !app_assoc. reflexivity.
Qed.

Lemma trace_from_settlement_marker_witness :
  Timeline.trace 10 (Timeline.mk 2 3 1 0 false)
  = ["trading"; "trading"; "trading"; "period_end"; "settlement";
     "trading"; "trading"; "trading"; "period_end"; "finished"]
  /\ Timeline.finished (Timeline.run 10 (Timeline.mk 2 3 1 0 false)) = true.
Proof.
  apply (trace_from_settlement_marker 3 1 (Timeline.mk 2 3 1 0 false));
    try reflexivity; lia.
Defined.

(** X2.  The terminal state is sticky: once the [finished] flag is set,
    every later call of [step] returns "finished" and changes nothing. *)
Theorem finished_is_sticky (n : nat) (s : Timeline.t) :
  Timeline.finished s = true ->
  Timeline.trace n s = repeat "finished" n /\ Timeline.run n s = s.
Proof.
  intros Hf. induction n as [|n [IHt IHr]]; [split; reflexivity|].
  cbn [Timeline.trace Timeline.run repeat].
  unfold Timeline.step. rewrite Hf. cbn [snd].
  now rewrite IHt, IHr.
Qed.

Lemma finished_is_sticky_witness :
  Timeline.trace 3 (Timeline.mk 2 3 2 4 true) = repeat "finished" 3
  /\ Timeline.run 3 (Timeline.mk 2 3 2 4 true) = Timeline.mk 2 3 2 4 true.
Proof.
  apply (finished_is_sticky 3 (Timeline.mk 2 3 2 4 true)). reflexivity.
Defined.

(** X3.  With at least one round per period, [is_evolution_time] is
    false after every call of [step] that returned "trading" or
    "settlement"; after a call that returned "period_end" it tells
    whether the current period is a multiple of the (non-zero)
    interval. *)
Theorem evolution_time_only_after_period_end
    (s : Timeline.t) (evolve_interval : Z) :
  1 <= Timeline.rounds_per_period s ->
  Timeline.finished s = false ->
  (fst (Timeline.step s) = "trading" \/ fst (Timeline.step s) = "settlement" ->
   Timeline.is_evolution_time evolve_interval (snd (Timeline.step s)) = false)
  /\ (fst (Timeline.step s) = "period_end" -> evolve_interval <> 0 ->
      Timeline.is_evolution_time evolve_interval (snd (Timeline.step s))
      = (Timeline.current_period s mod evolve_interval =? 0)).
Proof.
  intros HR Hf. unfold Timeline.step. rewrite Hf.
  unfold Timeline.is_evolution_time.
  assert (Hgt : forall x, x <= Timeline.rounds_per_period s ->
                          (x >? Timeline.rounds_per_period s) = false).
  { intros x Hx. rewrite Z.gtb_ltb. apply Z.ltb_ge. exact Hx. }
  destruct (Timeline.current_round s =? 0) eqn:E1.
  { cbn. split; [intros _|discriminate]. now rewrite Hgt by lia. }
  destruct ((1 <=? Timeline.current_round s)
            && (Timeline.current_round s <? Timeline.rounds_per_period s))
    eqn:E2.
  { apply andb_true_iff in E2 as [_ E2]. apply Z.ltb_lt in E2.
    cbn. split; [intros _|discriminate]. now rewrite Hgt by lia. }
  destruct (Timeline.current_round s =? Timeline.rounds_per_period s) eqn:E3.
  { apply Z.eqb_eq in E3. cbn.
    split; [intros [H|H]; discriminate|intros _ _].
    assert (Hlt : (Timeline.current_round s + 1
                   >? Timeline.rounds_per_period s) = true).
    { rewrite Z.gtb_ltb. apply Z.ltb_lt. lia. }
    now rewrite Hlt. }
  destruct (Timeline.current_round s >? Timeline.rounds_per_period s) eqn:E4.
  - destruct (Timeline.current_period s >=? Timeline.total_periods s); cbn.
    + split; [intros [H|H]; discriminate|discriminate].
    + split; [intros _|discriminate]. now rewrite Hgt by lia.
  - cbn. split; [intros [H|H]; discriminate|discriminate].
Qed.

Lemma evolution_time_only_after_period_end_witness :
  Timeline.is_evolution_time 2
    (snd (Timeline.step (Timeline.mk 4 3 2 3 false)))
  = (2 mod 2 =? 0)
  /\ Timeline.is_evolution_time 2
       (snd (Timeline.step (Timeline.mk 4 3 2 1 false))) = false.
Proof.
  split.
  - apply (proj2 (evolution_time_only_after_period_end
                    (Timeline.mk 4 3 2 3 false) 2 ltac:(cbn; lia) eq_refl));
      [reflexivity|lia].
  - apply (proj1 (evolution_time_only_after_period_end
                    (Timeline.mk 4 3 2 1 false) 2 ltac:(cbn; lia) eq_refl)).
    left. reflexivity.
Defined.

(** ** The ledger: settlement, exposure and the budget guard *)

Lemma sum_stock_acc (l : list PendingTransfer) : forall a,
  fold_left (fun acc t => acc + stock_delta t) l a = a + sum_stock l.
Proof.
  unfold sum_stock. induction l as [|tr l IH]; intros a; cbn.
  - lia.
  - rewrite IH, (IH (0 + stock_delta tr)). lia.
Qed.

Lemma sum_stock_cons (tr : PendingTransfer) (l : list PendingTransfer) :
  sum_stock (tr :: l) = stock_delta tr + sum_stock l.
Proof. unfold sum_stock at 1. cbn. now rewrite sum_stock_acc. Qed.

Lemma sum_stock_app (l1 l2 : list PendingTransfer) :
  sum_stock (l1 ++ l2) = sum_stock l1 + sum_stock l2.
Proof.
  induction l1 as [|tr l1 IH]; [reflexivity|].
  cbn [app]. rewrite !sum_stock_cons, IH. lia.
Qed.

(** What the loop of [process_settlements] computes.  The cash is the
    old cash with the cash deltas of the due transfers added one by one,
    in list order, as the loop adds them. *)
Lemma settle_loop_spec ct (l : list PendingTransfer) : forall self rem,
  snd (Account.settle_loop ct l self rem)
  = rem ++ List.filter (fun tr => negb (due ct tr)) l
  /\ stock (fst (Account.settle_loop ct l self rem))
     = stock self + sum_stock (List.filter (due ct) l)
  /\ cash (fst (Account.settle_loop ct l self rem))
     = fold_left (fun c tr => (c + cash_delta tr)%Q)
         (List.filter (due ct) l) (cash self)
  /\ pending_transfers (fst (Account.settle_loop ct l self rem))
     = pending_transfers self.
Proof.
  induction l as [|tr l IH]; intros self rem; cbn [Account.settle_loop List.filter].
  - cbn. rewrite app_nil_r. repeat split; lia.
  - change (due ct tr) with (ct >=? release_time tr).
    destruct (ct >=? release_time tr) eqn:E; cbn [negb].
    + destruct (IH (set_stock (stock self + stock_delta tr)
                      (set_cash (cash self + cash_delta tr)%Q self)) rem)
        as (H1 & H2 & H3 & H4).
      rewrite H1, H2, H3, H4.
      cbn [stock cash set_stock set_cash pending_transfers fold_left].
      rewrite sum_stock_cons.
      repeat split; try reflexivity. lia.
    + destruct (IH self (rem ++ [tr])) as (H1 & H2 & H3 & H4).
      rewrite H1, H2, H3, H4. rewrite <- app_assoc.
      repeat split; reflexivity.
Qed.

(** What [process_settlements] returns and leaves. *)
Lemma process_settlements_effect (ct : Z) (st : AccountState) :
  let st' := snd (Account.process_settlements ct st) in
  fst (Account.process_settlements ct st) = Returns tt
  /\ pending_transfers st'
     = List.filter (fun tr => negb (due ct tr)) (pending_transfers st)
  /\ stock st'
     = stock st + sum_stock (List.filter (due ct) (pending_transfers st))
  /\ cash st'
     = fold_left (fun c tr => (c + cash_delta tr)%Q)
         (List.filter (due ct) (pending_transfers st)) (cash st)
  /\ budget_policy st' = budget_policy st
  /\ equity_includes_pending st' = equity_includes_pending st
  /\ exposure_includes_pending st' = exposure_includes_pending st
  /\ last_wealth st' = last_wealth st.
Proof.
  cbv zeta. rewrite process_settlements_eq. cbn [fst snd].
  destruct (settle_loop_spec ct (pending_transfers st) st [])
    as (H1 & H2 & H3 & H4).
  destruct (settle_loop_policy ct (pending_transfers st) st [])
    as (P1 & P2 & P3 & P4).
  cbn [pending_transfers set_pending_transfers stock cash budget_policy
       equity_includes_pending exposure_includes_pending last_wealth].
  rewrite H1. cbn [app].
  repeat split; auto.
Qed.

(** X4.  [process_settlements current_time] always returns.  It keeps,
    in their order, exactly the pending transfers that are not yet due,
    adds to the stock the stock deltas of the due ones, adds to the cash
    their cash deltas one by one in list order, and changes nothing
    else; every transfer it keeps is released strictly later than
    [current_time]. *)
Theorem process_settlements_splits_pending (ct : Z) (st : AccountState) :
  let st' := snd (Account.process_settlements ct st) in
  fst (Account.process_settlements ct st) = Returns tt
  /\ pending_transfers st'
     = List.filter (fun tr => negb (due ct tr)) (pending_transfers st)
  /\ stock st'
     = stock st + sum_stock (List.filter (due ct) (pending_transfers st))
  /\ cash st'
     = fold_left (fun c tr => (c + cash_delta tr)%Q)
         (List.filter (due ct) (pending_transfers st)) (cash st)
  /\ Forall (fun tr => ct < release_time tr) (pending_transfers st')
  /\ budget_policy st' = budget_policy st
  /\ equity_includes_pending st' = equity_includes_pending st
  /\ exposure_includes_pending st' = exposure_includes_pending st
  /\ last_wealth st' = last_wealth st.
Proof.
  cbv zeta.
  destruct (process_settlements_effect ct st)
    as (H0 & H1 & H2 & H3 & H4 & H5 & H6 & H7).
  split; [exact H0|]. split; [exact H1|]. split; [exact H2|].
  split; [exact H3|]. split; [|auto].
  rewrite H1. apply Forall_forall. intros tr Hin.
  apply list_elem_of_In, filter_In in Hin as [_ Hd].
  unfold due in Hd. apply negb_true_iff in Hd.
  rewrite Z.geb_leb in Hd. apply Z.leb_gt in Hd. exact Hd.
Qed.

(** X5.  Settling twice at the same time is settling once: a second
    [process_settlements] with the same [current_time] leaves the account
    exactly as the first one left it. *)
Theorem process_settlements_idempotent (ct : Z) (st : AccountState) :
  Account.process_settlements ct (snd (Account.process_settlements ct st))
  = (Returns tt, snd (Account.process_settlements ct st)).
Proof.
  rewrite (process_settlements_eq ct st). cbn [snd].
  rewrite process_settlements_eq.
  cbn [pending_transfers set_pending_transfers].
  set (R := snd (Account.settle_loop ct (pending_transfers st) st [])).
  assert (HR : Forall (fun x => (ct >=? release_time x) = false) R).
  { apply settle_loop_keeps_undue. constructor. }
  rewrite settle_loop_undue by exact HR. reflexivity.
Qed.

Lemma sum_stock_filter (f : PendingTransfer -> bool)
    (l : list PendingTransfer) :
  sum_stock l
  = sum_stock (List.filter f l)
    + sum_stock (List.filter (fun tr => negb (f tr)) l).
Proof.
  induction l as [|tr l IH]; [reflexivity|].
  cbn [List.filter]. destruct (f tr); cbn [negb];
    rewrite !sum_stock_cons, IH; lia.
Qed.

Lemma projected_stock_after_settlement (ct : Z) (st : AccountState) :
  projected_stock (snd (Account.process_settlements ct st))
  = projected_stock st.
Proof.
  destruct (process_settlements_effect ct st) as (_ & Hp & Hs & _).
  cbv zeta in *. unfold projected_stock. rewrite Hp, Hs.
  rewrite (sum_stock_filter (due ct) (pending_transfers st)). lia.
Qed.

(** X6.  Settlement moves stock from pending to settled and creates or
    loses none: settled plus pending stock is the same before and after
    [process_settlements], so [get_holdings] of an account whose
    exposure includes pending stock is unchanged by it. *)
Theorem settlement_conserves_projected_stock (ct : Z) (st : AccountState) :
  let st' := snd (Account.process_settlements ct st) in
  projected_stock st' = projected_stock st
  /\ (exposure_includes_pending st = true ->
      Account.get_holdings st' = Account.get_holdings st).
Proof.
  cbv zeta.
  pose proof (projected_stock_after_settlement ct st) as Hstock.
  destruct (process_settlements_effect ct st)
    as (_ & _ & _ & _ & _ & _ & He & _).
  split; [exact Hstock|].
  intros Hflag. unfold Account.get_holdings. rewrite He, Hflag.
  exact Hstock.
Qed.

Lemma settlement_conserves_projected_stock_witness :
  let st :=
    mkAccountState 100 5 [mkPendingTransfer 4 (-50) 1; mkPendingTransfer 6 20 (-2)]
      "include_pending" true true None in
  exposure_includes_pending st = true
  /\ stock (snd (Account.process_settlements 4 st)) = 6
  /\ Account.get_holdings (snd (Account.process_settlements 4 st))
     = Account.get_holdings st.
Proof.
  intros st. split; [reflexivity|]. split; [reflexivity|].
  apply (proj2 (settlement_conserves_projected_stock 4 st)).
  reflexivity.
Defined.

Lemma check_budget_constraint_outcome (cd : Q) (sd : Z) (st : AccountState) :
  (exists b, Account.check_budget_constraint cd sd st = (Returns b, st))
  \/ Account.check_budget_constraint cd sd st = (Raises ValueError, st).
Proof.
  unfold Account.check_budget_constraint, Account.baseline, bind, get, ret,
    raise.
  destruct (String.eqb (budget_policy st) "strict_available"); [left; eauto|].
  destruct (String.eqb (budget_policy st) "include_pending"); [left; eauto|].
  now right.
Qed.

(** The two outcomes of [apply_trade]: it raises and leaves the account
    as it was, or it returns with the deltas applied or deferred. *)
Lemma apply_trade_outcome (cd : Q) (sd t lag : Z) (enforce : bool)
    (st : AccountState) :
  Account.apply_trade cd sd t lag enforce st = (Raises ValueError, st)
  \/ (Account.apply_trade cd sd t lag enforce st
      = (Returns tt,
         if lag =? 0
         then set_stock (stock st + sd) (set_cash (cash st + cd)%Q st)
         else set_pending_transfers
                (pending_transfers st ++ [mkPendingTransfer (t + lag) cd sd]) st)
      /\ (enforce = true ->
          Account.check_budget_constraint cd sd st = (Returns true, st))).
Proof.
  unfold Account.apply_trade, bind.
  destruct enforce.
  - destruct (check_budget_constraint_outcome cd sd st) as [[[|] H]|H];
      rewrite H; cbn.
    + right. split; [|reflexivity]. now destruct (lag =? 0).
    + now left.
    + now left.
  - cbn. right. split; [|discriminate]. now destruct (lag =? 0).
Qed.

Lemma projected_stock_after_trade (st st' : AccountState) (cd : Q)
    (sd t lag : Z) (enforce : bool) :
  Account.apply_trade cd sd t lag enforce st = (Returns tt, st') ->
  projected_stock st' = projected_stock st + sd.
Proof.
  intros Hrun.
  destruct (apply_trade_outcome cd sd t lag enforce st) as [H|[H _]];
    rewrite H in Hrun; inversion Hrun as [Hst']; clear Hrun.
  unfold projected_stock.
  destruct (lag =? 0);
    cbn [stock pending_transfers set_stock set_cash set_pending_transfers];
    rewrite ?sum_stock_app, ?sum_stock_cons;
    change (sum_stock []) with 0; cbn [stock_delta]; lia.
Qed.

(** X7.  A trade that [apply_trade] accepts moves settled plus pending
    stock by [stock_delta], whatever the settlement lag.  So the
    holdings reported by [get_holdings] move by [stock_delta] at once
    when exposure includes pending stock; when it does not, they move
    only if the trade settles immediately. *)
Theorem apply_trade_moves_projected_stock
    (st st' : AccountState) (cd : Q) (sd t lag : Z) (enforce : bool) :
  Account.apply_trade cd sd t lag enforce st = (Returns tt, st') ->
  projected_stock st' = projected_stock st + sd
  /\ Account.get_holdings st'
     = Account.get_holdings st
       + (if exposure_includes_pending st || (lag =? 0) then sd else 0).
Proof.
  intros Hrun.
  split; [now apply (projected_stock_after_trade st st' cd sd t lag enforce)|].
  destruct (apply_trade_outcome cd sd t lag enforce st) as [H|[H _]];
    rewrite H in Hrun; inversion Hrun as [Hst']; clear Hrun.
  unfold Account.get_holdings.
  destruct (lag =? 0);
    cbn [stock pending_transfers exposure_includes_pending
         set_stock set_cash set_pending_transfers];
    rewrite ?sum_stock_app, ?sum_stock_cons;
    change (sum_stock []) with 0; cbn [stock_delta];
    destruct (exposure_includes_pending st); cbn [orb]; lia.
Qed.

Lemma apply_trade_moves_projected_stock_witness :
  let st := mkAccountState 100 5 [] "include_pending" true true None in
  let st' := snd (Account.apply_trade (-50) 1 3 1 true st) in
  stock st' = 5 /\ Account.get_holdings st' = Account.get_holdings st + 1.
Proof.
  intros st st'. split; [reflexivity|].
  apply (apply_trade_moves_projected_stock st st' (-50) 1 3 1 true).
  reflexivity.
Defined.

Lemma run_ledger_op_fields (op : ledger_op) (st : AccountState) :
  budget_policy (run_ledger_op op st) = budget_policy st
  /\ exposure_includes_pending (run_ledger_op op st)
     = exposure_includes_pending st
  /\ equity_includes_pending (run_ledger_op op st) = equity_includes_pending st
  /\ last_wealth (run_ledger_op op st) = last_wealth st.
Proof.
  destruct op as [cd sd t lag enforce|t]; cbn [run_ledger_op].
  - destruct (apply_trade_outcome cd sd t lag enforce st) as [H|[H _]];
      rewrite H; cbn [snd]; [tauto|].
    destruct (lag =? 0); cbn; tauto.
  - destruct (process_settlements_effect t st)
      as (_ & _ & _ & _ & H1 & H2 & H3 & H4).
    tauto.
Qed.

Lemma run_ledger_fields (ops : list ledger_op) : forall st,
  budget_policy (run_ledger ops st) = budget_policy st
  /\ exposure_includes_pending (run_ledger ops st)
     = exposure_includes_pending st
  /\ equity_includes_pending (run_ledger ops st) = equity_includes_pending st
  /\ last_wealth (run_ledger ops st) = last_wealth st.
Proof.
  unfold run_ledger.
  induction ops as [|op ops IH]; intros st; cbn [fold_left]; [tauto|].
  destruct (IH (run_ledger_op op st)) as (H1 & H2 & H3 & H4).
  destruct (run_ledger_op_fields op st) as (G1 & G2 & G3 & G4).
  repeat split; congruence.
Qed.

(** X8.  No bankruptcy before the first valuation: on an account built
    by the constructor, whatever trades and settlements are applied (and
    whether they raise or not), [is_bankrupt] is false for every
    threshold as long as [update_wealth_stats] has not been called; the
    first call of [update_wealth_stats] returns the wealth it caches,
    and from then on [is_bankrupt] compares that value with the
    threshold. *)
Theorem never_bankrupt_before_valuation
    (initial_cash : Q) (initial_stock : Z) (policy : string)
    (equity exposure : bool) (ops : list ledger_op) (st0 : AccountState) :
  Account.init initial_cash initial_stock policy equity exposure = Returns st0 ->
  (forall threshold,
      Account.is_bankrupt threshold (run_ledger ops st0) = false)
  /\ (forall price threshold,
        exists w st1,
          Account.update_wealth_stats price (run_ledger ops st0)
          = (Returns w, st1)
          /\ last_wealth st1 = Some w
          /\ Account.is_bankrupt threshold st1 = Qle_bool w threshold).
Proof.
  intros Hinit. inversion Hinit as [H0]. clear Hinit.
  set (st0' := mkAccountState _ _ _ _ _ _ _).
  destruct (run_ledger_fields ops st0') as (_ & _ & _ & Hw).
  split.
  - intros thr. unfold Account.is_bankrupt. now rewrite Hw.
  - intros price thr.
    unfold Account.update_wealth_stats, bind, get, put, ret.
    eexists. eexists. split; [reflexivity|]. split; reflexivity.
Qed.

Lemma never_bankrupt_before_valuation_witness :
  Account.is_bankrupt 1000
    (run_ledger [ApplyTrade (-50) 1 3 1 true; ProcessSettlements 4]
       (mkAccountState 100 5 [] "include_pending" true true None))
  = false.
Proof.
  apply (never_bankrupt_before_valuation 100 5 "include_pending" true true
           [ApplyTrade (-50) 1 3 1 true; ProcessSettlements 4]
           (mkAccountState 100 5 [] "include_pending" true true None)).
  reflexivity.
Defined.

Lemma check_include_pending (cd : Q) (sd : Z) (st : AccountState) :
  budget_policy st = "include_pending" ->
  Account.check_budget_constraint cd sd st = (Returns true, st) ->
  0 <= projected_stock st + sd.
Proof.
  intros Hp.
  unfold Account.check_budget_constraint, Account.baseline, bind, get, ret.
  rewrite Hp. cbn. intros Hc. inversion Hc as [Hb].
  apply andb_true_iff in Hb as [_ Hs]. apply Z.geb_le in Hs. exact Hs.
Qed.

Lemma check_strict_available (cd : Q) (sd : Z) (st : AccountState) :
  budget_policy st = "strict_available" ->
  Account.check_budget_constraint cd sd st = (Returns true, st) ->
  (cash_tolerance <= cash st + cd)%Q /\ 0 <= stock st + sd.
Proof.
  intros Hp.
  unfold Account.check_budget_constraint, Account.baseline, bind, get, ret.
  rewrite Hp. cbn. intros Hc. inversion Hc as [Hb].
  apply andb_true_iff in Hb as [Hq Hs].
  apply Qle_bool_iff in Hq. apply Z.geb_le in Hs. auto.
Qed.

(** X9.  Under the pending-inclusive budget basis the guard of
    [apply_trade] never lets an account promise stock it does not have:
    over any sequence of budget-enforcing trades, with any settlement
    lags, and of settlements, settled plus pending stock never becomes
    negative if it was not so at the start. *)
Theorem include_pending_guard_keeps_projected_stock
    (ops : list ledger_op) : forall st : AccountState,
  budget_policy st = "include_pending" ->
  Forall enforced ops ->
  0 <= projected_stock st ->
  0 <= projected_stock (run_ledger ops st).
Proof.
  unfold run_ledger.
  induction ops as [|op ops IH]; intros st Hp Hall Hs; cbn [fold_left];
    [exact Hs|].
  inversion Hall as [|? ? Hop Hall']; subst.
  destruct (run_ledger_op_fields op st) as (Hp' & _).
  apply IH; [congruence|exact Hall'|].
  destruct op as [cd sd t lag enforce|t]; cbn [run_ledger_op].
  - cbn in Hop. subst enforce.
    destruct (apply_trade_outcome cd sd t lag true st) as [H|[H Hchk]].
    + now rewrite H.
    + pose proof (check_include_pending cd sd st Hp (Hchk eq_refl)) as Hge.
      pose proof (projected_stock_after_trade st _ cd sd t lag true
                    ltac:(rewrite H; reflexivity)) as Hst.
      rewrite H in *. cbn [snd] in *. lia.
  - rewrite projected_stock_after_settlement. exact Hs.
Qed.

Lemma include_pending_guard_keeps_projected_stock_witness :
  let st := mkAccountState 100 1 [] "include_pending" true true None in
  let ops :=
    [ApplyTrade (-80) 1 3 1 true; ApplyTrade (-80) 1 3 1 true;
     ApplyTrade 50 (-2) 3 1 true; ApplyTrade 50 (-1) 3 1 true;
     ProcessSettlements 4] in
  0 <= projected_stock (run_ledger ops st).
Proof.
  intros st ops.
  apply (include_pending_guard_keeps_projected_stock ops st).
  - reflexivity.
  - repeat constructor.
  - vm_compute. discriminate.
Defined.

Lemma process_settlements_nothing_pending (ct : Z) (st : AccountState) :
  pending_transfers st = [] ->
  Account.process_settlements ct st = (Returns tt, st).
Proof.
  intros H. unfold Account.process_settlements, bind, get. now rewrite H.
Qed.

(** X10.  Under the strict basis with immediate settlement the guard
    keeps the settled balances themselves in range: over any sequence of
    budget-enforcing trades with lag 0 and of settlements, on an account
    with no pending transfer, the stock never becomes negative, the cash
    never falls below [-1e-9], and no pending transfer appears. *)
Theorem strict_guard_keeps_settled_balances
    (ops : list ledger_op) : forall st : AccountState,
  budget_policy st = "strict_available" ->
  pending_transfers st = [] ->
  Forall enforced_immediate ops ->
  0 <= stock st ->
  (cash_tolerance <= cash st)%Q ->
  0 <= stock (run_ledger ops st)
  /\ (cash_tolerance <= cash (run_ledger ops st))%Q
  /\ pending_transfers (run_ledger ops st) = [].
Proof.
  unfold run_ledger.
  induction ops as [|op ops IH]; intros st Hp Hpend Hall Hs Hc;
    cbn [fold_left]; [tauto|].
  inversion Hall as [|? ? Hop Hall']; subst.
  destruct (run_ledger_op_fields op st) as (Hp' & _).
  destruct op as [cd sd t lag enforce|t]; cbn [run_ledger_op] in *.
  - destruct Hop as [-> ->].
    destruct (apply_trade_outcome cd sd t 0 true st) as [H|[H Hchk]];
      rewrite H in *; cbn [snd] in *.
    + now apply IH.
    + destruct (check_strict_available cd sd st Hp (Hchk eq_refl))
        as [Hgc Hgs].
      apply IH; auto.
  - rewrite (process_settlements_nothing_pending t st Hpend). cbn [snd].
    now apply IH.
Qed.

Lemma strict_guard_keeps_settled_balances_witness :
  let st := mkAccountState 100 1 [] "strict_available" true true None in
  let ops :=
    [ApplyTrade (-80) 1 3 0 true; ApplyTrade (-80) 1 3 0 true;
     ApplyTrade 50 (-3) 3 0 true; ProcessSettlements 4] in
  0 <= stock (run_ledger ops st)
  /\ (cash_tolerance <= cash (run_ledger ops st))%Q
  /\ pending_transfers (run_ledger ops st) = [].
Proof.
  intros st ops.
  apply (strict_guard_keeps_settled_balances ops st).
  - reflexivity.
  - reflexivity.
  - repeat constructor.
  - vm_compute. discriminate.
  - vm_compute. discriminate.
Defined.

(** ** The price band *)

(** X11.  With the price-limit rule enabled and a reference price, the
    valid prices form an interval: a price between two valid prices is
    valid.  For a non-negative reference price and a non-negative
    threshold the reference price itself is valid. *)
Theorem price_band_is_an_interval (rule : PriceLimitRule) (ref : Q) :
  pl_enabled rule = true ->
  (forall p1 p p2 : Q,
      is_valid_price rule p1 (Some ref) = true ->
      is_valid_price rule p2 (Some ref) = true ->
      (p1 <= p)%Q -> (p <= p2)%Q ->
      is_valid_price rule p (Some ref) = true)
  /\ ((0 <= ref)%Q -> (0 <= pl_threshold rule)%Q ->
      is_valid_price rule ref (Some ref) = true).
Proof.
  intros He. unfold is_valid_price. rewrite He. cbn [negb].
  split.
  - intros p1 p p2 H1 H2 Hl Hu.
    apply andb_true_iff in H1 as [H1 _]. apply andb_true_iff in H2 as [_ H2].
    apply Qle_bool_iff in H1. apply Qle_bool_iff in H2.
    apply andb_true_iff. split; apply Qle_bool_iff; lra.
  - intros Hr Ht. apply andb_true_iff.
    split; apply Qle_bool_iff; nra.
Qed.

Lemma price_band_is_an_interval_witness :
  is_valid_price (mkPriceLimitRule true (1 # 10)) 100 (Some 100%Q) = true
  /\ is_valid_price (mkPriceLimitRule true (1 # 10)) 95 (Some 100%Q) = true.
Proof.
  destruct (price_band_is_an_interval (mkPriceLimitRule true (1 # 10)) 100
              eq_refl) as (H1 & H2).
  split.
  - apply H2; vm_compute; discriminate.
  - apply (H1 90%Q 95%Q 110%Q); vm_compute; first [reflexivity|discriminate].
Defined.

(** X12.  Whatever the settlement-cycle rule, its lag is 0 or 1, so a
    trade applied at period [t] with the rule's lag to an account with
    no other pending transfer is fully settled once the settlement of
    period [t + 1] has run: nothing is pending and the balances carry
    the two deltas. *)
Theorem trade_settled_by_next_period
    (rule : SettlementCycleRule) (st st1 : AccountState)
    (cd : Q) (sd t : Z) (enforce : bool) :
  pending_transfers st = [] ->
  Account.apply_trade cd sd t (settlement_lag rule) enforce st
  = (Returns tt, st1) ->
  (settlement_lag rule = 0 \/ settlement_lag rule = 1)
  /\ on_period_start (t + 1) st1
     = (Returns tt,
        mkAccountState (cash st + cd)%Q (stock st + sd) []
          (budget_policy st) (equity_includes_pending st)
          (exposure_includes_pending st) (last_wealth st)).
Proof.
  intros Hpend Hrun.
  assert (Hlag : settlement_lag rule = 0 \/ settlement_lag rule = 1).
  { unfold settlement_lag.
    destruct (sc_enabled rule && String.eqb (sc_cycle_type rule) "T+1"); auto. }
  split; [exact Hlag|].
  destruct (apply_trade_outcome cd sd t (settlement_lag rule) enforce st)
    as [H|[H _]]; rewrite H in Hrun; inversion Hrun as [Hst1]; clear Hrun.
  unfold on_period_start. subst st1.
  destruct st as [c k P bp eq ex lw]. cbn in Hpend. subst P.
  destruct Hlag as [E|E]; rewrite E; cbn [Z.eqb].
  - now rewrite process_settlements_nothing_pending.
  - rewrite process_settlements_eq.
    cbn [pending_transfers set_pending_transfers app].
    rewrite settle_loop_one_due by (cbn; apply Z.geb_le; lia).
    reflexivity.
Qed.

Lemma trade_settled_by_next_period_witness :
  on_period_start (3 + 1)
    (snd (Account.apply_trade (-50) 1 3
            (settlement_lag (mkSettlementCycleRule true "T+1")) true
            (mkAccountState 100 5 [] "include_pending" true true None)))
  = (Returns tt,
     mkAccountState (100 + -50)%Q (5 + 1) [] "include_pending" true true None).
Proof.
  apply (proj2 (trade_settled_by_next_period
                  (mkSettlementCycleRule true "T+1")
                  (mkAccountState 100 5 [] "include_pending" true true None)
                  _ (-50) 1 3 true eq_refl eq_refl)).
Defined.

(** ** Price-time priority of a new resting order *)

Lemma peek_best_ask_root (b : OrderBook) (it : item) (rest : list item) :
  asks b = it :: rest -> Book.peek_best_ask b = Some (snd it).
Proof.
  intros H. unfold Book.peek_best_ask. rewrite H. now destruct it as [[p t] e].
Qed.

Lemma peek_best_bid_root (b : OrderBook) (it : item) (rest : list item) :
  bids b = it :: rest -> Book.peek_best_bid b = Some (snd it).
Proof.
  intros H. unfold Book.peek_best_bid. rewrite H. now destruct it as [[p t] e].
Qed.

(** X13.  Price-time priority on the ask side.  On a well-formed book an
    accepted new order that is not a buy becomes the best ask exactly
    when the ask side is empty or its price is strictly below the
    current best ask; otherwise the best ask stays the entry it was,
    also when the new order has the same price. *)
Theorem add_limit_ask_priority (b : OrderBook) (order : Order.t) :
  book_wf b ->
  Order.direction order <> 1 ->
  0 < Order.quantity order ->
  (0 < Order.price order)%Q ->
  exists b',
    Book.add_limit order b = (Returns tt, b') /\ book_wf b'
    /\ let e := BookEntry.mk (Order.price order) (_counter b + 1) order
                  (Order.quantity order) in
       match Book.peek_best_ask b with
       | None => Book.peek_best_ask b' = Some e
       | Some best =>
           Book.peek_best_ask b'
           = Some (if Qlt_bool (Order.price order) (BookEntry.price best)
                   then e else best)
       end.
Proof.
  intros Hwf Hdir Hq Hp.
  destruct (add_limit_wf b order Hwf) as (b' & Hrun & Hwf' & Hcase).
  assert (Hq' : (Order.quantity order <=? 0) = false) by (apply Z.leb_gt; lia).
  assert (Hp' : Qle_bool (Order.price order) 0 = false).
  { destruct (Qle_bool (Order.price order) 0) eqn:E; [|reflexivity].
    apply Qle_bool_iff in E. lra. }
  assert (Hd' : (Order.direction order =? 1) = false) by now apply Z.eqb_neq.
  rewrite Hq', Hp', Hd' in Hcase. cbn [orb] in Hcase. cbv zeta in Hcase.
  destruct Hcase as (Hc & Hperm & Hbids).
  exists b'. split; [exact Hrun|]. split; [exact Hwf'|]. cbv zeta.
  set (e := BookEntry.mk _ _ _ _) in *.
  pose proof Hwf as ((_ & Hha & _ & Ka) & _ & Na & _ & Ca).
  pose proof Hwf' as ((_ & Hha' & _) & _).
  destruct (asks b') as [|r' rest'] eqn:E'.
  { apply Permutation_nil_cons in Hperm. contradiction. }
  rewrite (peek_best_ask_root b' r' rest' E').
  assert (Hr' : r' ∈ ask_item e :: asks b).
  { rewrite <- Hperm. now left. }
  assert (Hleast : forall y, y ∈ ask_item e :: asks b -> item_le r' y).
  { intros y Hy.
    apply (item_root_least (r' :: rest')); [exact Hha'|reflexivity|].
    now rewrite Hperm. }
  destruct (asks b) as [|it rest] eqn:E.
  - unfold Book.peek_best_ask. rewrite E.
    apply elem_of_cons in Hr' as [->|Hr']; [reflexivity|inversion Hr'].
  - rewrite (peek_best_ask_root b it rest E).
    assert (Hok : ask_item_ok it) by now inversion Ka.
    destruct Hok as (Hkp & Hkt & _).
    assert (Hcit : item_ts it <= _counter b) by now inversion Ca.
    assert (Hold : forall y, y ∈ it :: rest -> item_le it y).
    { intros y Hy.
      apply (item_root_least (it :: rest)); [exact Hha|reflexivity|].
      exact Hy. }
    destruct (Qlt_bool (Order.price order) (BookEntry.price (snd it))) eqn:El.
    + apply Qlt_bool_iff in El.
      apply elem_of_cons in Hr' as [->|Hr']; [reflexivity|].
      exfalso.
      pose proof (item_le_trans _ _ _ (Hold r' Hr')
                    (Hleast (ask_item e) ltac:(now left))) as Hle.
      unfold item_le in Hle. cbn [fst snd ask_item e BookEntry.price] in Hle.
      rewrite Hkp in Hle. lra.
    + assert (Hge : ~ (Order.price order < BookEntry.price (snd it))%Q).
      { intros H. apply Qlt_bool_iff in H. congruence. }
      apply elem_of_cons in Hr' as [->|Hr'].
      * exfalso.
        pose proof (Hleast it ltac:(right; now left)) as Hle.
        unfold item_le in Hle.
        cbn [fst snd ask_item e BookEntry.price BookEntry.timestamp] in Hle.
        rewrite Hkp in Hle. unfold item_ts in Hcit.
        destruct Hle as [Hlt|[_ Hts]]; [contradiction|lia].
      * f_equal. f_equal.
        apply (NoDup_map_inj item_ts (it :: rest)); auto.
        -- now left.
        -- apply item_le_antisym_ts.
           ++ apply Hleast. right. now left.
           ++ now apply Hold.
Qed.

(** X14.  Price-time priority on the bid side.  On a well-formed book an
    accepted new buy order becomes the best bid exactly when the bid
    side is empty or its price is strictly above the current best bid;
    otherwise the best bid stays the entry it was, also when the new
    order has the same price. *)
Theorem add_limit_bid_priority (b : OrderBook) (order : Order.t) :
  book_wf b ->
  Order.direction order = 1 ->
  0 < Order.quantity order ->
  (0 < Order.price order)%Q ->
  exists b',
    Book.add_limit order b = (Returns tt, b') /\ book_wf b'
    /\ let e := BookEntry.mk (Order.price order) (_counter b + 1) order
                  (Order.quantity order) in
       match Book.peek_best_bid b with
       | None => Book.peek_best_bid b' = Some e
       | Some best =>
           Book.peek_best_bid b'
           = Some (if Qlt_bool (BookEntry.price best) (Order.price order)
                   then e else best)
       end.
Proof.
  intros Hwf Hdir Hq Hp.
  destruct (add_limit_wf b order Hwf) as (b' & Hrun & Hwf' & Hcase).
  assert (Hq' : (Order.quantity order <=? 0) = false) by (apply Z.leb_gt; lia).
  assert (Hp' : Qle_bool (Order.price order) 0 = false).
  { destruct (Qle_bool (Order.price order) 0) eqn:E; [|reflexivity].
    apply Qle_bool_iff in E. lra. }
  assert (Hd' : (Order.direction order =? 1) = true) by now apply Z.eqb_eq.
  rewrite Hq', Hp', Hd' in Hcase. cbn [orb] in Hcase. cbv zeta in Hcase.
  destruct Hcase as (Hc & Hperm & Hasks).
  exists b'. split; [exact Hrun|]. split; [exact Hwf'|]. cbv zeta.
  set (e := BookEntry.mk _ _ _ _) in *.
  pose proof Hwf as ((Hha & _ & Ka & _) & Na & _ & Ca & _).
  pose proof Hwf' as ((Hha' & _) & _).
  destruct (bids b') as [|r' rest'] eqn:E'.
  { apply Permutation_nil_cons in Hperm. contradiction. }
  rewrite (peek_best_bid_root b' r' rest' E').
  assert (Hr' : r' ∈ bid_item e :: bids b).
  { rewrite <- Hperm. now left. }
  assert (Hleast : forall y, y ∈ bid_item e :: bids b -> item_le r' y).
  { intros y Hy.
    apply (item_root_least (r' :: rest')); [exact Hha'|reflexivity|].
    now rewrite Hperm. }
  destruct (bids b) as [|it rest] eqn:E.
  - unfold Book.peek_best_bid. rewrite E.
    apply elem_of_cons in Hr' as [->|Hr']; [reflexivity|inversion Hr'].
  - rewrite (peek_best_bid_root b it rest E).
    assert (Hok : bid_item_ok it) by now inversion Ka.
    destruct Hok as (Hkp & Hkt & _).
    assert (Hcit : item_ts it <= _counter b) by now inversion Ca.
    assert (Hold : forall y, y ∈ it :: rest -> item_le it y).
    { intros y Hy.
      apply (item_root_least (it :: rest)); [exact Hha|reflexivity|].
      exact Hy. }
    destruct (Qlt_bool (BookEntry.price (snd it)) (Order.price order)) eqn:El.
    + apply Qlt_bool_iff in El.
      apply elem_of_cons in Hr' as [->|Hr']; [reflexivity|].
      exfalso.
      pose proof (item_le_trans _ _ _ (Hold r' Hr')
                    (Hleast (bid_item e) ltac:(now left))) as Hle.
      unfold item_le in Hle. cbn [fst snd bid_item e BookEntry.price] in Hle.
      rewrite Hkp in Hle. lra.
    + assert (Hge : ~ (BookEntry.price (snd it) < Order.price order)%Q).
      { intros H. apply Qlt_bool_iff in H. congruence. }
      apply elem_of_cons in Hr' as [->|Hr'].
      * exfalso.
        pose proof (Hleast it ltac:(right; now left)) as Hle.
        unfold item_le in Hle.
        cbn [fst snd bid_item e BookEntry.price BookEntry.timestamp] in Hle.
        rewrite Hkp in Hle. unfold item_ts in Hcit.
        destruct Hle as [Hlt|[_ Hts]]; [lra|lia].
      * f_equal. f_equal.
        apply (NoDup_map_inj item_ts (it :: rest)); auto.
        -- now left.
        -- apply item_le_antisym_ts.
           ++ apply Hleast. right. now left.
           ++ now apply Hold.
Qed.

Lemma add_limit_ask_priority_witness :
  let b :=
    snd (Book.add_limit (Order.mk 1 (-1) "limit" 10 5) Book.init) in
  exists b',
    Book.add_limit (Order.mk 2 (-1) "limit" 10 3) b = (Returns tt, b')
    /\ Book.peek_best_ask b'
       = Some (BookEntry.mk 10 1 (Order.mk 1 (-1) "limit" 10 5) 5).
Proof.
  intros b.
  destruct (add_limit_ask_priority b (Order.mk 2 (-1) "limit" 10 3))
    as (b' & Hrun & _ & Hpeek).
  - apply book_wf_add_limit, book_wf_init.
  - discriminate.
  - reflexivity.
  - reflexivity.
  - exists b'. split; [exact Hrun|exact Hpeek].
Defined.

Lemma add_limit_bid_priority_witness :
  let b :=
    snd (Book.add_limit (Order.mk 1 1 "limit" 10 5) Book.init) in
  exists b',
    Book.add_limit (Order.mk 2 1 "limit" 11 3) b = (Returns tt, b')
    /\ Book.peek_best_bid b'
       = Some (BookEntry.mk 11 2 (Order.mk 2 1 "limit" 11 3) 3).
Proof.
  intros b.
  destruct (add_limit_bid_priority b (Order.mk 2 1 "limit" 11 3))
    as (b' & Hrun & _ & Hpeek).
  - apply book_wf_add_limit, book_wf_init.
  - reflexivity.
  - reflexivity.
  - reflexivity.
  - exists b'. split; [exact Hrun|exact Hpeek].
Defined.

(** ** One iteration of the matching loop *)

(** On a well-formed book, with quantity left to fill, one iteration of
    the loop either stops -- the opposite side is empty, the order does
    not cross the best opposite quote, or that quote fails the
    price-limit check -- or executes one trade at the best opposite
    quote for the smaller of the two quantities, records it, takes the
    entry off the opposite side and puts it back if quantity is left on
    it, and goes on. *)
Lemma match_loop_step (order : Order.t) (fuel : nat) (eng : CDAEngine)
    (remaining : Z) (trades : list Trade.t) :
  book_wf (book eng) -> 0 < remaining ->
  match opposite_side order (book eng) with
  | [] =>
      CDA.match_loop (S fuel) order remaining trades eng
      = (Returns (remaining, trades), eng)
  | it :: _ =>
      if does_not_cross order (quote_price order it)
         || negb (is_valid_price (pl_rule eng) (quote_price order it)
                    (last_close_price eng))
      then CDA.match_loop (S fuel) order remaining trades eng
           = (Returns (remaining, trades), eng)
      else
        let qty := Z.min remaining (BookEntry.remaining (snd it)) in
        let trade := trade_of order eng it qty in
        exists b2 side1,
          CDA.match_loop (S fuel) order remaining trades eng
          = CDA.match_loop fuel order (remaining - qty) (trades ++ [trade])
              (mkCDAEngine b2 (pl_rule eng) (tt_rule eng)
                 (last_close_price eng) (_trade_counter eng + 1)
                 (Some (quote_price order it))
                 (trades_this_period eng ++ [trade]))
          /\ book_wf b2 /\ _counter b2 = _counter (book eng)
          /\ own_side order b2 = own_side order (book eng)
          /\ opposite_side order (book eng) ≡ₚ it :: side1
          /\ if BookEntry.remaining (snd it) - qty >? 0
             then opposite_side order b2
                  ≡ₚ (fst it,
                      BookEntry.set_remaining
                        (BookEntry.remaining (snd it) - qty) (snd it))
                     :: side1
             else opposite_side order b2 = side1
  end.
Proof.
  intros Hwf Hrem.
  assert (Er : (remaining >? 0) = true).
  { rewrite Z.gtb_ltb. now apply Z.ltb_lt. }
  unfold trade_of, opposite_side, own_side, quote_price, does_not_cross.
  destruct (Order.direction order =? 1) eqn:Ed.
  - destruct (asks (book eng)) as [|it rest] eqn:Hside.
    { cbn [CDA.match_loop]. rewrite Er. unfold bind at 1. unfold get at 1.
      unfold Book.peek_best_ask, Book.best_ask, Book.peek_best_bid,
        Book.best_bid.
      rewrite Ed, Hside. reflexivity. }
    pose proof Hwf as ((_ & _ & _ & Ka) & _).
    assert (Hok : ask_item_ok it) by (rewrite Hside in Ka; now inversion Ka).
    destruct Hok as (Hkp & Hkt & _).
    destruct it as [[p t] e]. cbn [fst snd] in *.
    match goal with |- if ?c || _ then _ else _ => destruct c eqn:Ec end;
      cbn [orb].
    { cbn [CDA.match_loop]. rewrite Er. unfold bind at 1. unfold get at 1.
      unfold Book.peek_best_ask, Book.best_ask, Book.peek_best_bid,
        Book.best_bid.
      rewrite Ed, Hside. cbv beta iota. rewrite Ec. reflexivity. }
    match goal with |- if negb ?c then _ else _ => destruct c eqn:Ev end;
      cbn [negb].
    2: { cbn [CDA.match_loop]. rewrite Er. unfold bind at 1. unfold get at 1.
         unfold Book.peek_best_ask, Book.best_ask, Book.peek_best_bid,
           Book.best_bid.
         rewrite Ed, Hside. cbv beta iota. rewrite Ec, Ev. reflexivity. }
    cbv zeta.
    set (qty := Z.min remaining (BookEntry.remaining e)).
    destruct (fill_best_ask (book eng) (p, t, e) rest qty Hwf Hside) as
      (b1 & b2 & Hpop & Hre & Hwf2 & Hc2 & Hb2 & Hperm & Hcase).
    cbn [snd] in Hpop, Hre, Hcase.
    exists b2, (asks b1).
    split.
    { cbn [CDA.match_loop]. rewrite Er. unfold bind at 1. unfold get at 1.
      unfold Book.peek_best_ask, Book.best_ask, Book.peek_best_bid,
        Book.best_bid.
      rewrite Ed, Hside. cbv beta iota. rewrite Ec, Ev. cbn [negb].
      change (Z.min remaining (BookEntry.remaining e)) with qty.
      unfold bind at 1. unfold CDA.record_trade.
      unfold bind at 1. unfold get at 1.
      unfold bind at 1. unfold modify at 1.
      unfold bind at 1. unfold get at 1.
      unfold bind at 1. unfold modify at 1. unfold ret at 1.
      unfold bind at 1. unfold CDA.on_book at 1. unfold on_field.
      cbn [book]. rewrite Hpop.
      unfold bind at 1.
      set (popped := BookEntry.set_remaining (BookEntry.remaining e - qty) e)
        in *.
      set (eng1 := CDA.set_book b1 _).
      assert (Hre' :
        (if BookEntry.remaining popped >? 0
         then CDA.on_book (Book.reinsert popped) else ret tt) eng1
        = (Returns tt, CDA.set_book b2 eng1)).
      { destruct (BookEntry.remaining popped >? 0).
        - unfold CDA.on_book, on_field. cbn [book eng1 CDA.set_book].
          now rewrite Hre.
        - unfold ret in *. inversion Hre; subst b2. reflexivity. }
      rewrite Hre'. subst eng1. unfold CDA.set_book.
      cbn [book pl_rule tt_rule last_close_price _trade_counter
           last_transaction_price trades_this_period].
      rewrite ?Ed. reflexivity. }
    split; [exact Hwf2|]. split; [exact Hc2|]. split; [exact Hb2|].
    split; [rewrite <- Hside; exact Hperm|].
    cbn [BookEntry.remaining BookEntry.set_remaining] in Hcase.
    destruct (BookEntry.remaining e - qty >? 0); [|exact Hcase].
    destruct Hcase as [Hp2 _]. rewrite Hp2.
    unfold ask_item. cbn. now subst.
  - destruct (bids (book eng)) as [|it rest] eqn:Hside.
    { cbn [CDA.match_loop]. rewrite Er. unfold bind at 1. unfold get at 1.
      unfold Book.peek_best_ask, Book.best_ask, Book.peek_best_bid,
        Book.best_bid.
      rewrite Ed, Hside. reflexivity. }
    pose proof Hwf as ((_ & _ & Kb & _) & _).
    assert (Hok : bid_item_ok it) by (rewrite Hside in Kb; now inversion Kb).
    destruct Hok as (Hkp & Hkt & _).
    destruct it as [[p t] e]. cbn [fst snd] in *.
    match goal with |- if ?c || _ then _ else _ => destruct c eqn:Ec end;
      cbn [orb].
    { cbn [CDA.match_loop]. rewrite Er. unfold bind at 1. unfold get at 1.
      unfold Book.peek_best_ask, Book.best_ask, Book.peek_best_bid,
        Book.best_bid.
      rewrite Ed, Hside. cbv beta iota. rewrite Ec. reflexivity. }
    match goal with |- if negb ?c then _ else _ => destruct c eqn:Ev end;
      cbn [negb].
    2: { cbn [CDA.match_loop]. rewrite Er. unfold bind at 1. unfold get at 1.
         unfold Book.peek_best_ask, Book.best_ask, Book.peek_best_bid,
           Book.best_bid.
         rewrite Ed, Hside. cbv beta iota. rewrite Ec, Ev. reflexivity. }
    cbv zeta.
    set (qty := Z.min remaining (BookEntry.remaining e)).
    destruct (fill_best_bid (book eng) (p, t, e) rest qty Hwf Hside) as
      (b1 & b2 & Hpop & Hre & Hwf2 & Hc2 & Hb2 & Hperm & Hcase).
    cbn [snd] in Hpop, Hre, Hcase.
    exists b2, (bids b1).
    split.
    { cbn [CDA.match_loop]. rewrite Er. unfold bind at 1. unfold get at 1.
      unfold Book.peek_best_ask, Book.best_ask, Book.peek_best_bid,
        Book.best_bid.
      rewrite Ed, Hside. cbv beta iota. rewrite Ec, Ev. cbn [negb].
      change (Z.min remaining (BookEntry.remaining e)) with qty.
      unfold bind at 1. unfold CDA.record_trade.
      unfold bind at 1. unfold get at 1.
      unfold bind at 1. unfold modify at 1.
      unfold bind at 1. unfold get at 1.
      unfold bind at 1. unfold modify at 1. unfold ret at 1.
      unfold bind at 1. unfold CDA.on_book at 1. unfold on_field.
      cbn [book]. rewrite Hpop.
      unfold bind at 1.
      set (popped := BookEntry.set_remaining (BookEntry.remaining e - qty) e)
        in *.
      set (eng1 := CDA.set_book b1 _).
      assert (Hre' :
        (if BookEntry.remaining popped >? 0
         then CDA.on_book (Book.reinsert popped) else ret tt) eng1
        = (Returns tt, CDA.set_book b2 eng1)).
      { destruct (BookEntry.remaining popped >? 0).
        - unfold CDA.on_book, on_field. cbn [book eng1 CDA.set_book].
          now rewrite Hre.
        - unfold ret in *. inversion Hre; subst b2. reflexivity. }
      rewrite Hre'. subst eng1. unfold CDA.set_book.
      cbn [book pl_rule tt_rule last_close_price _trade_counter
           last_transaction_price trades_this_period].
      rewrite ?Ed. reflexivity. }
    split; [exact Hwf2|]. split; [exact Hc2|]. split; [exact Hb2|].
    split; [rewrite <- Hside; exact Hperm|].
    cbn [BookEntry.remaining BookEntry.set_remaining] in Hcase.
    destruct (BookEntry.remaining e - qty >? 0); [|exact Hcase].
    destruct Hcase as [Hp2 _]. rewrite Hp2.
    unfold bid_item. cbn. now subst.
Qed.

(** ** What the matching loop does to the trades and to the book *)

Lemma total_remaining_perm (l l' : list item) :
  l ≡ₚ l' -> total_remaining l = total_remaining l'.
Proof.
  unfold total_remaining.
  induction 1 as [|x l l' _ IH|x y l|l l' l'' _ IH1 _ IH2]; cbn; lia.
Qed.

Lemma book_pos_sides (order : Order.t) (b : OrderBook) :
  book_pos b
  <-> Forall (fun it => 0 < BookEntry.remaining (snd it)) (own_side order b)
      /\ Forall (fun it => 0 < BookEntry.remaining (snd it))
           (opposite_side order b).
Proof.
  unfold book_pos, own_side, opposite_side.
  destruct (Order.direction order =? 1); tauto.
Qed.

Lemma match_loop_done (order : Order.t) (fuel : nat) (eng : CDAEngine)
    (rem : Z) (trades : list Trade.t) :
  rem <= 0 ->
  CDA.match_loop fuel order rem trades eng = (Returns (rem, trades), eng).
Proof.
  intros H.
  assert (E : (rem >? 0) = false) by (rewrite Z.gtb_ltb; now apply Z.ltb_ge).
  destruct fuel; cbn [CDA.match_loop]; now rewrite E.
Qed.

Lemma loop_post_stop (order : Order.t) (eng : CDAEngine) (rem : Z) :
  book_wf (book eng) ->
  (0 < rem -> loop_blocked order eng) ->
  loop_post order eng rem rem [] eng.
Proof.
  intros Hwf Hb. unfold loop_post. cbn [length last sum_quantity fold_right].
  rewrite app_nil_r, !Z.sub_0_r, Z.add_0_r.
  repeat (split; [first [reflexivity|assumption|apply descends_refl]|]).
  split; [intros i t H; destruct i; discriminate|].
  split; [reflexivity|]. split; [reflexivity|]. split; [constructor|].
  split; [exact Hb|]. intros Hpos. auto.
Qed.

Lemma trade_ok_transfer (order : Order.t) (eng eng2 : CDAEngine)
    (side0 side2 : list item) (t : Trade.t) :
  pl_rule eng2 = pl_rule eng -> tt_rule eng2 = tt_rule eng ->
  last_close_price eng2 = last_close_price eng ->
  descends side0 side2 ->
  trade_ok order eng2 side2 t -> trade_ok order eng side0 t.
Proof.
  intros Hpl Htt Hlc Hdesc (Hv & Hc & Htax & it & Hin & Hp & Hq & Hb & Hs).
  rewrite Hpl, Hlc in Hv. rewrite Htt in Htax.
  destruct (Hdesc it Hin) as (it0 & Hin0 & Hk & _ & _ & Ho & Hr).
  unfold trade_ok. repeat (split; [assumption|]).
  exists it0. split; [exact Hin0|].
  unfold quote_price in *. rewrite Hk in Hp. rewrite Ho in Hb, Hs.
  repeat split; auto. lia.
Qed.

Lemma descends_fill (side side1 side2 : list item) (it : item) (r : Z) :
  side ≡ₚ it :: side1 ->
  side2 ≡ₚ (fst it, BookEntry.set_remaining r (snd it)) :: side1 ->
  r <= BookEntry.remaining (snd it) ->
  descends side side2.
Proof.
  intros Hperm Hperm2 Hr x Hx.
  rewrite Hperm2 in Hx. apply elem_of_cons in Hx as [->|Hx].
  - exists it. split; [rewrite Hperm; now left|].
    unfold same_entry_filled. cbn. auto.
  - exists x. split; [rewrite Hperm; now right|].
    apply same_entry_filled_refl.
Qed.

Lemma sum_quantity_cons (t : Trade.t) (l : list Trade.t) :
  sum_quantity (t :: l) = Trade.quantity t + sum_quantity l.
Proof. reflexivity. Qed.

Lemma total_remaining_cons (it : item) (l : list item) :
  total_remaining (it :: l) = BookEntry.remaining (snd it) + total_remaining l.
Proof. reflexivity. Qed.

(** One execution followed by a run of the loop. *)
Lemma loop_post_step (order : Order.t) (eng : CDAEngine) (rem : Z)
    (it : item) (rest side1 : list item) (b2 : OrderBook) (rem' : Z)
    (new2 : list Trade.t) (eng' : CDAEngine) :
  0 < rem ->
  opposite_side order (book eng) = it :: rest ->
  does_not_cross order (quote_price order it)
  || negb (is_valid_price (pl_rule eng) (quote_price order it)
             (last_close_price eng)) = false ->
  _counter b2 = _counter (book eng) ->
  own_side order b2 = own_side order (book eng) ->
  it :: rest ≡ₚ it :: side1 ->
  (if BookEntry.remaining (snd it)
      - Z.min rem (BookEntry.remaining (snd it)) >? 0
   then opposite_side order b2
        ≡ₚ (fst it,
            BookEntry.set_remaining
              (BookEntry.remaining (snd it)
               - Z.min rem (BookEntry.remaining (snd it))) (snd it))
           :: side1
   else opposite_side order b2 = side1) ->
  loop_post order
    (mkCDAEngine b2 (pl_rule eng) (tt_rule eng) (last_close_price eng)
       (_trade_counter eng + 1) (Some (quote_price order it))
       (trades_this_period eng
        ++ [trade_of order eng it (Z.min rem (BookEntry.remaining (snd it)))]))
    (rem - Z.min rem (BookEntry.remaining (snd it))) rem' new2 eng' ->
  loop_post order eng rem rem'
    (trade_of order eng it (Z.min rem (BookEntry.remaining (snd it)))
     :: new2) eng'.
Proof.
  intros Hrem Hside Hblk Hc2 Hown2 Hperm Hopp2 Hpost.
  set (qty := Z.min rem (BookEntry.remaining (snd it))) in *.
  set (trade := trade_of order eng it qty) in *.
  destruct Hpost as (Hwf' & Hc' & Hpl' & Htt' & Hlc' & Hown' & Hdesc' & Htc'
                     & Http' & Hltp' & Hts' & Hrem' & Htot' & Hok' & Hblk'
                     & Hpos').
  cbn [book pl_rule tt_rule last_close_price _trade_counter
       last_transaction_price trades_this_period] in *.
  assert (Hqty : qty <= BookEntry.remaining (snd it)) by apply Z.le_min_r.
  assert (Hqr : qty <= rem) by apply Z.le_min_l.
  assert (Hdesc2 : descends (it :: rest) (opposite_side order b2)).
  { destruct (BookEntry.remaining (snd it) - qty >? 0) eqn:E.
    - rewrite Z.gtb_ltb in E. apply Z.ltb_lt in E.
      eapply descends_fill; [exact Hperm|exact Hopp2|unfold qty in *; lia].
    - rewrite Hopp2. eapply descends_pop. exact Hperm. }
  assert (Htot2 : total_remaining (opposite_side order b2)
                  = total_remaining (it :: rest) - qty).
  { rewrite (total_remaining_perm _ _ Hperm), total_remaining_cons.
    destruct (BookEntry.remaining (snd it) - qty >? 0) eqn:E.
    - rewrite (total_remaining_perm _ _ Hopp2), total_remaining_cons.
      cbn [snd BookEntry.set_remaining BookEntry.remaining]. lia.
    - rewrite Hopp2. rewrite Z.gtb_ltb in E. apply Z.ltb_ge in E. lia. }
  apply orb_false_iff in Hblk as [Hcross Hvalid].
  apply negb_false_iff in Hvalid.
  unfold loop_post. rewrite Hside.
  split; [exact Hwf'|]. split; [congruence|].
  split; [exact Hpl'|]. split; [exact Htt'|]. split; [exact Hlc'|].
  split; [congruence|].
  split; [eapply descends_trans; eassumption|].
  split; [rewrite Htc'; cbn [length]; lia|].
  split; [rewrite Http', <- app_assoc; reflexivity|].
  split.
  { rewrite Hltp'. destruct new2 as [|t l]; [reflexivity|].
    change (last (trade :: t :: l)) with (last (t :: l)).
    destruct (last (t :: l)) eqn:E; [reflexivity|].
    apply last_None in E. discriminate. }
  split.
  { intros i t H. destruct i as [|i]; cbn in H.
    - injection H as <-. cbn. lia.
    - rewrite (Hts' i t H). lia. }
  split; [rewrite sum_quantity_cons; cbn [trade trade_of Trade.quantity]; lia|].
  split; [rewrite sum_quantity_cons; cbn [trade trade_of Trade.quantity]; lia|].
  split.
  { constructor.
    - unfold trade_ok. cbn [trade trade_of Trade.price Trade.quantity
                            Trade.tax_amount Trade.buyer_id Trade.seller_id].
      split; [exact Hvalid|]. split; [exact Hcross|]. split; [reflexivity|].
      exists it. split; [now left|]. auto.
    - eapply Forall_impl; [exact Hok'|]. intros t Ht.
      eapply (trade_ok_transfer order eng _ (it :: rest)); [..|exact Ht];
        [reflexivity|reflexivity|reflexivity|exact Hdesc2]. }
  split; [exact Hblk'|].
  intros Hpos. apply (book_pos_sides order) in Hpos as [Hpo Hpp].
  rewrite Hside in Hpp.
  assert (Hit : 0 < BookEntry.remaining (snd it)).
  { rewrite Forall_forall in Hpp. apply Hpp. now left. }
  destruct Hpos' as (Hp' & Hq' & Hr').
  { apply (book_pos_sides order). rewrite Hown2. split; [exact Hpo|].
    rewrite Forall_forall in Hpp. apply Forall_forall. intros x Hx.
    destruct (BookEntry.remaining (snd it) - qty >? 0) eqn:E.
    - rewrite Hopp2 in Hx. apply elem_of_cons in Hx as [->|Hx].
      + cbn. rewrite Z.gtb_ltb in E. now apply Z.ltb_lt in E.
      + apply Hpp. rewrite Hperm. now right.
    - rewrite Hopp2 in Hx. apply Hpp. rewrite Hperm. now right. }
  split; [exact Hp'|]. split.
  - constructor; [|exact Hq']. cbn [trade trade_of Trade.quantity].
    unfold qty. lia.
  - intros _. apply Hr'. lia.
Qed.

(** The matching loop on a well-formed book, within its budget of
    iterations: it returns, and [loop_post] relates what it leaves to
    what it found. *)
Lemma match_loop_trades (order : Order.t) (fuel : nat) :
  forall (eng : CDAEngine) (rem : Z) (trades : list Trade.t),
    book_wf (book eng) ->
    (0 < rem -> (length (opposite_side order (book eng)) < fuel)%nat) ->
    exists rem' new eng',
      CDA.match_loop fuel order rem trades eng
      = (Returns (rem', trades ++ new), eng')
      /\ loop_post order eng rem rem' new eng'.
Proof.
  induction fuel as [|fuel IH]; intros eng rem trades Hwf Hfuel.
  - assert (Hle : rem <= 0).
    { destruct (Z.le_gt_cases rem 0) as [H|H]; [exact H|].
      apply Hfuel in H. lia. }
    exists rem, [], eng. rewrite app_nil_r.
    split; [now apply match_loop_done|]. apply loop_post_stop; [exact Hwf|lia].
  - destruct (Z.le_gt_cases rem 0) as [Hle|Hgt].
    { exists rem, [], eng. rewrite app_nil_r.
      split; [now apply match_loop_done|].
      apply loop_post_stop; [exact Hwf|lia]. }
    pose proof (match_loop_step order fuel eng rem trades Hwf Hgt) as Hstep.
    specialize (Hfuel Hgt).
    destruct (opposite_side order (book eng)) as [|it rest] eqn:Hside.
    + exists rem, [], eng. rewrite app_nil_r. split; [exact Hstep|].
      apply loop_post_stop; [exact Hwf|]. intros _.
      unfold loop_blocked. now rewrite Hside.
    + destruct (does_not_cross order (quote_price order it)
                || negb (is_valid_price (pl_rule eng) (quote_price order it)
                           (last_close_price eng))) eqn:Hblk.
      * exists rem, [], eng. rewrite app_nil_r. split; [exact Hstep|].
        apply loop_post_stop; [exact Hwf|]. intros _.
        unfold loop_blocked. now rewrite Hside.
      * cbv zeta in Hstep.
        destruct Hstep as (b2 & side1 & Hrun & Hwf2 & Hc2 & Hown2 & Hperm
                           & Hopp2).
        match type of Hrun with
        | _ = CDA.match_loop _ _ ?r ?ts ?e =>
            destruct (IH e r ts) as (rem' & new2 & eng' & Hrun' & Hpost)
        end.
        { exact Hwf2. }
        { cbn [book]. intros Hpos.
          pose proof (Permutation_length Hperm) as Hlen. cbn [length] in *.
          destruct (BookEntry.remaining (snd it)
                    - Z.min rem (BookEntry.remaining (snd it)) >? 0) eqn:E.
          - rewrite Z.gtb_ltb in E. apply Z.ltb_lt in E. lia.
          - rewrite Hopp2. lia. }
        eexists rem', (_ :: new2), eng'. split.
        { rewrite Hrun, Hrun', <- app_assoc. reflexivity. }
        eapply loop_post_step; eassumption.
Qed.

(** ** [process_order]: what it returns and what it leaves *)

Lemma opposite_depth_length (order : Order.t) (eng : CDAEngine) :
  CDA.opposite_depth order eng = length (opposite_side order (book eng)).
Proof.
  unfold CDA.opposite_depth, opposite_side.
  now destruct (Order.direction order =? 1).
Qed.

Lemma process_order_rejected (eng : CDAEngine) (order : Order.t) :
  passes_validation order eng = false ->
  CDA.process_order order eng = (Returns [], eng).
Proof.
  unfold CDA.process_order, passes_validation. intros H.
  destruct (Order.quantity order <=? 0); cbn [negb andb] in *;
    [reflexivity|].
  destruct (String.eqb (Order.order_type order) "market"
            || String.eqb (Order.order_type order) "limit");
    cbn [negb andb] in *; [|reflexivity].
  destruct ((Order.direction order =? 1) || (Order.direction order =? -1));
    cbn [negb andb] in *; [|reflexivity].
  destruct (String.eqb (Order.order_type order) "limit"
            && Qle_bool (Order.price order) 0);
    cbn [negb andb] in *; [reflexivity|].
  unfold bind at 1. unfold get at 1.
  destruct (String.eqb (Order.order_type order) "limit"
            && negb (is_valid_price (pl_rule eng) (Order.price order)
                       (last_close_price eng)));
    cbn [negb andb] in *; [reflexivity|discriminate].
Qed.

Lemma set_book_same (eng : CDAEngine) : eng = CDA.set_book (book eng) eng.
Proof. now destruct eng. Qed.

(** A validated order on a well-formed book: the loop runs from the
    order's quantity and no trades, and the remainder is offered to the
    book the loop left. *)
Lemma process_order_full (eng : CDAEngine) (order : Order.t) :
  book_wf (book eng) -> passes_validation order eng = true ->
  exists rem trades eng1 eng',
    CDA.process_order order eng = (Returns trades, eng')
    /\ CDA.match_loop (S (CDA.opposite_depth order eng)) order
         (Order.quantity order) [] eng
       = (Returns (rem, trades), eng1)
    /\ loop_post order eng (Order.quantity order) rem trades eng1
    /\ eng' = CDA.set_book (book eng') eng1
    /\ book_wf (book eng')
    /\ if (0 <? rem) && Qlt_bool 0 (Order.price order)
          && is_valid_price (pl_rule eng) (Order.price order)
               (last_close_price eng)
       then rests order rem (book eng1) (book eng')
       else book eng' = book eng1.
Proof.
  intros Hwf Hval. unfold CDA.process_order.
  unfold passes_validation in Hval.
  destruct (Order.quantity order <=? 0); cbn [negb andb] in *;
    [discriminate|].
  destruct (String.eqb (Order.order_type order) "market"
            || String.eqb (Order.order_type order) "limit");
    cbn [negb andb] in *; [|discriminate].
  destruct ((Order.direction order =? 1) || (Order.direction order =? -1));
    cbn [negb andb] in *; [|discriminate].
  destruct (String.eqb (Order.order_type order) "limit"
            && Qle_bool (Order.price order) 0);
    cbn [negb andb] in *; [discriminate|].
  unfold bind at 1. unfold get at 1.
  destruct (String.eqb (Order.order_type order) "limit"
            && negb (is_valid_price (pl_rule eng) (Order.price order)
                       (last_close_price eng)));
    cbn [negb andb] in *; [discriminate|].
  destruct (match_loop_trades order (S (CDA.opposite_depth order eng)) eng
              (Order.quantity order) [] Hwf) as
    (rem & trades & eng1 & Hrun & Hpost).
  { intros _. rewrite opposite_depth_length. lia. }
  cbn [app] in Hrun.
  pose proof Hpost as (Hwf1 & _ & Hpl & _ & Hlc & _).
  unfold bind at 1. rewrite Hrun. cbn [fst snd].
  unfold bind at 1. unfold CDA.rest_remainder.
  unfold bind at 1. unfold get at 1.
  destruct (add_limit_wf (book eng1) (Order.replace_quantity rem order) Hwf1)
    as (b' & Hadd & Hwf' & Hcase).
  cbn [Order.replace_quantity Order.quantity Order.price Order.direction]
    in Hcase.
  assert (Hcond : (0 <? rem) && Qlt_bool 0 (Order.price order)
                  = negb ((rem <=? 0) || Qle_bool (Order.price order) 0)).
  { unfold Qlt_bool. rewrite negb_orb. f_equal. apply Z.ltb_antisym. }
  rewrite Hpl, Hlc.
  destruct (is_valid_price (pl_rule eng) (Order.price order)
              (last_close_price eng)) eqn:Ev.
  - unfold CDA.on_book, on_field. rewrite Hadd. unfold ret.
    exists rem, trades, eng1, (CDA.set_book b' eng1).
    split; [reflexivity|]. split; [reflexivity|]. split; [exact Hpost|].
    split; [reflexivity|]. split; [exact Hwf'|].
    rewrite Hcond, andb_true_r. cbn [book CDA.set_book].
    destruct ((rem <=? 0) || Qle_bool (Order.price order) 0);
      cbn [negb]; [exact Hcase|].
    unfold rests. exact Hcase.
  - unfold ret. exists rem, trades, eng1, eng1.
    split; [reflexivity|]. split; [reflexivity|]. split; [exact Hpost|].
    split; [apply set_book_same|]. split; [exact Hwf1|].
    now rewrite andb_false_r.
Qed.

(** The tuples of the opposite side carry their entry's price as the
    quote. *)
Lemma quote_price_entry (order : Order.t) (b : OrderBook) (it : item) :
  book_inv b -> it ∈ opposite_side order b ->
  quote_price order it = BookEntry.price (snd it).
Proof.
  intros (_ & _ & Kb & Ka) Hin. unfold opposite_side, quote_price in *.
  destruct (Order.direction order =? 1).
  - rewrite Forall_forall in Ka. now destruct (Ka it Hin).
  - rewrite Forall_forall in Kb. destruct (Kb it Hin) as [-> _].
    apply Qopp_opp.
Qed.

Lemma opposite_side_heap (order : Order.t) (b : OrderBook) :
  book_inv b -> heap_inv item_le (opposite_side order b).
Proof.
  intros (Hb & Ha & _). unfold opposite_side.
  now destruct (Order.direction order =? 1).
Qed.

Lemma item_le_Qle (a b : item) : item_le a b -> (fst (fst a) <= fst (fst b))%Q.
Proof.
  intros [H|[H _]]; [now apply Qlt_le_weak|]. rewrite H. apply Qle_refl.
Qed.

(** The root of the opposite side carries the best quote: the lowest
    for a buy order, the highest for any other. *)
Lemma quote_price_root (order : Order.t) (a b : item) :
  item_le a b ->
  if Order.direction order =? 1
  then (quote_price order a <= quote_price order b)%Q
  else (quote_price order b <= quote_price order a)%Q.
Proof.
  intros H%item_le_Qle. unfold quote_price.
  destruct (Order.direction order =? 1); [exact H|].
  now apply Qopp_le_compat.
Qed.

Lemma process_order_cases (eng : CDAEngine) (order : Order.t) :
  book_wf (book eng) ->
  exists trades eng',
    CDA.process_order order eng = (Returns trades, eng')
    /\ ((passes_validation order eng = false /\ trades = [] /\ eng' = eng)
        \/ (passes_validation order eng = true
            /\ exists rem eng1,
                 CDA.match_loop (S (CDA.opposite_depth order eng)) order
                   (Order.quantity order) [] eng
                 = (Returns (rem, trades), eng1)
                 /\ loop_post order eng (Order.quantity order) rem trades eng1
                 /\ eng' = CDA.set_book (book eng') eng1
                 /\ book_wf (book eng')
                 /\ if (0 <? rem) && Qlt_bool 0 (Order.price order)
                       && is_valid_price (pl_rule eng) (Order.price order)
                            (last_close_price eng)
                    then rests order rem (book eng1) (book eng')
                    else book eng' = book eng1)).
Proof.
  intros Hwf. destruct (passes_validation order eng) eqn:Hv.
  - destruct (process_order_full eng order Hwf Hv)
      as (rem & trades & eng1 & eng' & Hrun & H).
    exists trades, eng'. split; [exact Hrun|]. right.
    split; [reflexivity|]. now exists rem, eng1.
  - exists [], eng. split; [now apply process_order_rejected|]. now left.
Qed.

Lemma Forall_resting (P : BookEntry.t -> Prop) (side : list item) :
  Forall (fun it => P (snd it)) side <-> forall e, e ∈ resting side -> P e.
Proof.
  rewrite Forall_forall. split.
  - intros H e (it & Hit & <-)%resting_elem. now apply H.
  - intros H it Hit. apply H. unfold resting.
    now apply list_elem_of_In, in_map, list_elem_of_In.
Qed.

Lemma book_pos_resting (order : Order.t) (b : OrderBook) :
  book_pos b
  <-> (forall e, e ∈ resting (own_side order b) -> 0 < BookEntry.remaining e)
      /\ (forall e, e ∈ resting (opposite_side order b) ->
            0 < BookEntry.remaining e).
Proof.
  rewrite (book_pos_sides order).
  now rewrite !(Forall_resting (fun e => 0 < BookEntry.remaining e)).
Qed.

Lemma prices_valid_resting (order : Order.t) (eng : CDAEngine) :
  prices_valid eng
  <-> (forall e, e ∈ resting (own_side order (book eng)) ->
         is_valid_price (pl_rule eng) (BookEntry.price e)
           (last_close_price eng) = true)
      /\ (forall e, e ∈ resting (opposite_side order (book eng)) ->
            is_valid_price (pl_rule eng) (BookEntry.price e)
              (last_close_price eng) = true).
Proof.
  unfold prices_valid.
  rewrite !(Forall_resting
              (fun e => is_valid_price (pl_rule eng) (BookEntry.price e)
                          (last_close_price eng) = true)).
  unfold own_side, opposite_side.
  destruct (Order.direction order =? 1); tauto.
Qed.

Lemma uncrossed_sides (order : Order.t) (b : OrderBook) :
  uncrossed b
  <-> forall eo ep,
        eo ∈ resting (own_side order b) ->
        ep ∈ resting (opposite_side order b) ->
        if Order.direction order =? 1
        then (BookEntry.price eo < BookEntry.price ep)%Q
        else (BookEntry.price ep < BookEntry.price eo)%Q.
Proof.
  unfold uncrossed, own_side, opposite_side.
  destruct (Order.direction order =? 1); split; intros H x y Hx Hy;
    now apply H.
Qed.

Lemma rests_sides (order : Order.t) (rem : Z) (b1 b' : OrderBook) :
  rests order rem b1 b' ->
  exists it,
    own_side order b' ≡ₚ it :: own_side order b1
    /\ opposite_side order b' = opposite_side order b1
    /\ BookEntry.price (snd it) = Order.price order
    /\ BookEntry.remaining (snd it) = rem.
Proof.
  unfold rests, own_side, opposite_side.
  destruct (Order.direction order =? 1); intros (_ & Hp & Hs);
    eexists; (split; [exact Hp|]); (split; [exact Hs|]); now cbn.
Qed.

Lemma descends_resting (s0 s : list item) (e : BookEntry.t) :
  descends s0 s -> e ∈ resting s ->
  exists e0, e0 ∈ resting s0 /\ BookEntry.price e = BookEntry.price e0
             /\ BookEntry.order e = BookEntry.order e0
             /\ BookEntry.timestamp e = BookEntry.timestamp e0
             /\ BookEntry.remaining e <= BookEntry.remaining e0.
Proof.
  intros Hd (it & Hit & <-)%resting_elem.
  destruct (Hd it Hit) as (it0 & Hit0 & _ & Hp & Ht & Ho & Hr).
  exists (snd it0). split; [|auto].
  unfold resting. now apply list_elem_of_In, in_map, list_elem_of_In.
Qed.

(** Where the loop stopped with quantity left on a book whose resting
    prices pass the price-limit check, the order's limit crosses no
    quote of the opposite side. *)
Lemma blocked_no_cross (order : Order.t) (eng1 : CDAEngine) :
  book_inv (book eng1) ->
  (forall e, e ∈ resting (opposite_side order (book eng1)) ->
     is_valid_price (pl_rule eng1) (BookEntry.price e)
       (last_close_price eng1) = true) ->
  loop_blocked order eng1 ->
  forall ep, ep ∈ resting (opposite_side order (book eng1)) ->
    if Order.direction order =? 1
    then (Order.price order < BookEntry.price ep)%Q
    else (BookEntry.price ep < Order.price order)%Q.
Proof.
  intros Hinv Hv Hblk ep Hep.
  pose proof (opposite_side_heap order _ Hinv) as Hheap.
  assert (Hq : forall it, it ∈ opposite_side order (book eng1) ->
                 quote_price order it = BookEntry.price (snd it)).
  { intros it. now apply quote_price_entry. }
  apply resting_elem in Hep as (x & Hx & <-).
  unfold loop_blocked in Hblk.
  destruct (opposite_side order (book eng1)) as [|it0 rest] eqn:Hside;
    [inversion Hx|].
  assert (H0 : it0 ∈ it0 :: rest) by now left.
  rewrite (Hq it0 H0) in Hblk.
  rewrite Hv in Hblk.
  2:{ unfold resting. now apply list_elem_of_In, in_map, list_elem_of_In. }
  cbn [negb] in Hblk. rewrite orb_false_r in Hblk.
  unfold does_not_cross in Hblk. apply andb_true_iff in Hblk as [_ Hblk].
  assert (Hle : item_le it0 x).
  { apply (item_root_least (it0 :: rest)); [exact Hheap|reflexivity|exact Hx]. }
  pose proof (quote_price_root order it0 x Hle) as Hroot.
  rewrite (Hq it0 H0), (Hq x Hx) in Hroot.
  destruct (Order.direction order =? 1) eqn:Ed; cbn [andb orb] in Hblk.
  - apply Z.eqb_eq in Ed. rewrite Ed in Hblk. cbn [Z.eqb andb] in Hblk.
    rewrite orb_false_r in Hblk. apply Qlt_bool_iff in Hblk.
    eapply Qlt_le_trans; eassumption.
  - apply andb_true_iff in Hblk as [_ Hblk]. apply Qlt_bool_iff in Hblk.
    eapply Qle_lt_trans; eassumption.
Qed.

(** [process_order] keeps the invariant of the book. *)
Lemma process_order_inv (eng : CDAEngine) (order : Order.t) :
  market_inv eng ->
  exists trades eng',
    CDA.process_order order eng = (Returns trades, eng')
    /\ market_inv eng'
    /\ pl_rule eng' = pl_rule eng /\ tt_rule eng' = tt_rule eng
    /\ last_close_price eng' = last_close_price eng.
Proof.
  intros (Hwf & Hpos & Hval & Hunc).
  destruct (process_order_cases eng order Hwf)
    as (trades & eng' & Hrun
        & [(_ & -> & ->)
          |(_ & rem & eng1 & _ & Hpost & Heng' & Hwf' & Hrest)]).
  { exists [], eng. split; [exact Hrun|]. unfold market_inv. auto 10. }
  exists trades, eng'. split; [exact Hrun|].
  destruct Hpost as (Hwf1 & _ & Hpl & Htt & Hlc & Hown & Hdesc & _ & _ & _
                     & _ & _ & _ & _ & Hblk & Hp1).
  destruct (Hp1 Hpos) as (Hpos1 & _ & _).
  assert (Hpl' : pl_rule eng' = pl_rule eng) by (now rewrite Heng').
  assert (Htt' : tt_rule eng' = tt_rule eng) by (now rewrite Heng').
  assert (Hlc' : last_close_price eng' = last_close_price eng)
    by (now rewrite Heng').
  apply (book_pos_resting order) in Hpos1 as [Hpo1 Hpp1].
  apply (prices_valid_resting order) in Hval as [Hvo Hvp].
  rewrite (uncrossed_sides order) in Hunc.
  assert (Hopp' : opposite_side order (book eng')
                  = opposite_side order (book eng1)).
  { destruct ((0 <? rem) && Qlt_bool 0 (Order.price order)
              && is_valid_price (pl_rule eng) (Order.price order)
                   (last_close_price eng)).
    - now destruct (rests_sides _ _ _ _ Hrest) as (it & _ & H & _).
    - now rewrite Hrest. }
  assert (Hown' : forall e, e ∈ resting (own_side order (book eng')) ->
            e ∈ resting (own_side order (book eng))
            \/ (BookEntry.price e = Order.price order
                /\ BookEntry.remaining e = rem /\ 0 < rem
                /\ is_valid_price (pl_rule eng) (Order.price order)
                     (last_close_price eng) = true)).
  { intros e He.
    destruct ((0 <? rem) && Qlt_bool 0 (Order.price order)
              && is_valid_price (pl_rule eng) (Order.price order)
                   (last_close_price eng)) eqn:Ec.
    - destruct (rests_sides _ _ _ _ Hrest) as (it & Hp & _ & Hpr & Hre).
      apply resting_elem in He as (x & Hx & <-).
      rewrite Hp in Hx. apply elem_of_cons in Hx as [->|Hx].
      + right. apply andb_true_iff in Ec as [Ec Ev].
        apply andb_true_iff in Ec as [Ec _]. apply Z.ltb_lt in Ec. auto.
      + left. rewrite <- Hown. unfold resting.
        now apply list_elem_of_In, in_map, list_elem_of_In.
    - left. now rewrite <- Hown, <- Hrest. }
  assert (Hvp1 : forall e, e ∈ resting (opposite_side order (book eng1)) ->
            is_valid_price (pl_rule eng1) (BookEntry.price e)
              (last_close_price eng1) = true).
  { intros e He.
    destruct (descends_resting _ _ e Hdesc He) as (e0 & He0 & Hp & _).
    rewrite Hpl, Hlc, Hp. now apply Hvp. }
  split; [|auto].
  split; [exact Hwf'|]. split; [|split].
  - apply (book_pos_resting order). split.
    + intros e He. destruct (Hown' e He) as [H|(_ & -> & H & _)]; [|exact H].
      rewrite <- Hown in H. now apply Hpo1.
    + rewrite Hopp'. exact Hpp1.
  - apply (prices_valid_resting order). rewrite Hpl', Hlc'. split.
    + intros e He. destruct (Hown' e He) as [H|(-> & _ & _ & H)]; [|exact H].
      now apply Hvo.
    + rewrite Hopp'. intros e He. rewrite <- Hpl, <- Hlc. now apply Hvp1.
  - apply (uncrossed_sides order). rewrite Hopp'. intros eo ep Heo Hep.
    destruct (Hown' eo Heo) as [H|(-> & _ & Hr & _)].
    + destruct (descends_resting _ _ ep Hdesc Hep) as (e0 & He0 & -> & _).
      now apply Hunc.
    + apply (blocked_no_cross order eng1); [apply Hwf1|exact Hvp1| |exact Hep].
      apply Hblk. exact Hr.
Qed.

Lemma peek_opposite_root (order : Order.t) (b : OrderBook) (it : item)
    (rest : list item) :
  opposite_side order b = it :: rest ->
  (if Order.direction order =? 1 then Book.peek_best_ask b
   else Book.peek_best_bid b) = Some (snd it).
Proof.
  unfold opposite_side. destruct (Order.direction order =? 1).
  - apply peek_best_ask_root.
  - apply peek_best_bid_root.
Qed.

Lemma passes_validation_facts (order : Order.t) (eng : CDAEngine) :
  passes_validation order eng = true ->
  0 < Order.quantity order
  /\ (Order.direction order =? 1) || (Order.direction order =? -1) = true.
Proof.
  unfold passes_validation. intros H.
  repeat (apply andb_true_iff in H as [H ?]).
  split; [|assumption]. apply negb_true_iff, Z.leb_gt in H. exact H.
Qed.

(** ** The order in which the loop executes *)

Lemma step_descends (order : Order.t) (rem : Z) (it : item)
    (rest side1 : list item) (b2 : OrderBook) :
  0 < rem ->
  it :: rest ≡ₚ it :: side1 ->
  (if BookEntry.remaining (snd it)
      - Z.min rem (BookEntry.remaining (snd it)) >? 0
   then opposite_side order b2
        ≡ₚ (fst it,
            BookEntry.set_remaining
              (BookEntry.remaining (snd it)
               - Z.min rem (BookEntry.remaining (snd it))) (snd it))
           :: side1
   else opposite_side order b2 = side1) ->
  descends (it :: rest) (opposite_side order b2).
Proof.
  intros Hrem Hperm Hopp2.
  destruct (BookEntry.remaining (snd it)
            - Z.min rem (BookEntry.remaining (snd it)) >? 0) eqn:E.
  - rewrite Z.gtb_ltb in E. apply Z.ltb_lt in E.
    eapply descends_fill; [exact Hperm|exact Hopp2|lia].
  - rewrite Hopp2. eapply descends_pop. exact Hperm.
Qed.

Lemma quote_price_fst (order : Order.t) (a b : item) :
  fst a = fst b -> quote_price order a = quote_price order b.
Proof. unfold quote_price. now intros ->. Qed.

(** The loop executes against the root of the opposite side first, and
    the prices of its trades never improve. *)
Lemma match_loop_walk (order : Order.t) (fuel : nat) :
  forall (eng : CDAEngine) (rem : Z) (trades : list Trade.t),
    book_wf (book eng) ->
    (0 < rem -> (length (opposite_side order (book eng)) < fuel)%nat) ->
    exists rem' new eng',
      CDA.match_loop fuel order rem trades eng
      = (Returns (rem', trades ++ new), eng')
      /\ (new = [] -> rem' = rem /\ eng' = eng)
      /\ (forall t, head new = Some t ->
            exists it rest,
              opposite_side order (book eng) = it :: rest
              /\ t = trade_of order eng it
                       (Z.min rem (BookEntry.remaining (snd it))))
      /\ prices_walk order new.
Proof.
  assert (Hstop : forall (eng : CDAEngine) (rem : Z) (trades : list Trade.t),
             exists rem' new eng',
               (Returns (rem, trades), eng)
               = (Returns (rem', trades ++ new), eng')
               /\ (new = [] -> rem' = rem /\ eng' = eng)
               /\ (forall t, head new = Some t ->
                     exists it rest,
                       opposite_side order (book eng) = it :: rest
                       /\ t = trade_of order eng it
                                (Z.min rem (BookEntry.remaining (snd it))))
               /\ prices_walk order new).
  { intros eng rem trades. exists rem, [], eng. rewrite app_nil_r.
    split; [reflexivity|]. split; [auto|].
    split; [intros t H; discriminate|]. intros i t t' H. destruct i; discriminate. }
  induction fuel as [|fuel IH]; intros eng rem trades Hwf Hfuel.
  - assert (Hle : rem <= 0).
    { destruct (Z.le_gt_cases rem 0) as [H|H]; [exact H|].
      apply Hfuel in H. lia. }
    rewrite match_loop_done by exact Hle. apply Hstop.
  - destruct (Z.le_gt_cases rem 0) as [Hle|Hgt].
    { rewrite match_loop_done by exact Hle. apply Hstop. }
    pose proof (match_loop_step order fuel eng rem trades Hwf Hgt) as Hstep.
    pose proof (opposite_side_heap order _ (proj1 Hwf)) as Hheap.
    specialize (Hfuel Hgt).
    destruct (opposite_side order (book eng)) as [|it rest] eqn:Hside.
    { rewrite Hstep. destruct (Hstop eng rem trades) as (r & n & e & H1 & H2 & H3 & H4).
      exists r, n, e. split; [exact H1|]. split; [exact H2|]. split; [|exact H4].
      intros t Ht. destruct (H3 t Ht) as (x & y & Hxy & _).
      rewrite Hside in Hxy. discriminate. }
    destruct (does_not_cross order (quote_price order it)
              || negb (is_valid_price (pl_rule eng) (quote_price order it)
                         (last_close_price eng))) eqn:Hblk.
    { rewrite Hstep. exists rem, [], eng. rewrite app_nil_r.
      split; [reflexivity|]. split; [auto|].
      split; [intros t H; discriminate|].
      intros i t t' H. destruct i; discriminate. }
    cbv zeta in Hstep.
    destruct Hstep as (b2 & side1 & Hrun & Hwf2 & Hc2 & Hown2 & Hperm & Hopp2).
    pose proof (step_descends order rem it rest side1 b2 Hgt Hperm Hopp2)
      as Hdesc2.
    match type of Hrun with
    | _ = CDA.match_loop _ _ ?r ?ts ?e =>
        destruct (IH e r ts) as (rem' & new2 & eng' & Hrun' & _ & Hhd & Hwalk)
    end.
    { exact Hwf2. }
    { cbn [book]. intros Hpos.
      pose proof (Permutation_length Hperm) as Hlen. cbn [length] in *.
      destruct (BookEntry.remaining (snd it)
                - Z.min rem (BookEntry.remaining (snd it)) >? 0) eqn:E.
      - rewrite Z.gtb_ltb in E. apply Z.ltb_lt in E. lia.
      - rewrite Hopp2. lia. }
    cbn [book] in Hhd.
    eexists rem', (_ :: new2), eng'. split.
    { rewrite Hrun, Hrun', <- app_assoc. reflexivity. }
    split; [discriminate|]. split.
    { intros t Ht. injection Ht as <-. now exists it, rest. }
    intros i t t' Hi Hi'. destruct i as [|i].
    + injection Hi as <-. cbn in Hi'.
      assert (Hh : head new2 = Some t') by (now destruct new2).
      destruct (Hhd t' Hh) as (it2 & rest2 & Hside2 & ->).
      assert (Hin2 : it2 ∈ opposite_side order b2)
        by (rewrite Hside2; now left).
      destruct (Hdesc2 it2 Hin2) as (it0 & Hin0 & Hk & _).
      assert (Hle : item_le it it0).
      { apply (item_root_least (it :: rest)); [exact Hheap|reflexivity|exact Hin0]. }
      pose proof (quote_price_root order it it0 Hle) as Hroot.
      cbn [trade_of Trade.price].
      now rewrite (quote_price_fst order it2 it0 Hk).
    + exact (Hwalk i t t' Hi Hi').
Qed.

(** ** Arrival numbers across the fills of the matching loop *)

Lemma opposite_side_nodup (order : Order.t) (b : OrderBook) :
  book_wf b -> NoDup (map item_ts (opposite_side order b)).
Proof.
  intros (_ & Nb & Na & _). unfold opposite_side.
  now destruct (Order.direction order =? 1).
Qed.

(** A tuple put back under the key of the old root is the new root. *)
Lemma reinserted_is_root (order : Order.t) (b b2 : OrderBook)
    (it x : item) (rest side1 : list item) :
  book_wf b -> book_wf b2 ->
  opposite_side order b = it :: rest ->
  it :: rest ≡ₚ it :: side1 ->
  opposite_side order b2 ≡ₚ x :: side1 ->
  fst x = fst it ->
  exists rest2, opposite_side order b2 = x :: rest2.
Proof.
  intros Hwf Hwf2 Hside Hperm Hperm2 Hkey.
  pose proof (opposite_side_heap order b (proj1 Hwf)) as Hheap.
  pose proof (opposite_side_heap order b2 (proj1 Hwf2)) as Hheap2.
  pose proof (opposite_side_nodup order b Hwf) as Hnd.
  rewrite Hside in Hheap, Hnd.
  rewrite (map_item_ts_perm _ _ Hperm) in Hnd. cbn [map] in Hnd.
  apply NoDup_cons in Hnd as [Hfresh _].
  destruct (opposite_side order b2) as [|r rest2] eqn:E2.
  { apply Permutation_nil_cons in Hperm2. contradiction. }
  assert (Hr : r ∈ x :: side1) by (rewrite <- Hperm2; now left).
  apply elem_of_cons in Hr as [->|Hr]; [now exists rest2|].
  exfalso. apply Hfresh.
  assert (Hle1 : item_le r x).
  { apply (item_root_least (r :: rest2)); [exact Hheap2|reflexivity|].
    rewrite Hperm2. now left. }
  assert (Hle2 : item_le it r).
  { apply (item_root_least (it :: rest)); [exact Hheap|reflexivity|].
    rewrite Hperm. now right. }
  apply (item_le_fst_r _ _ it Hkey) in Hle1.
  rewrite (item_le_antisym_ts _ _ Hle2 Hle1).
  now apply list_elem_of_In, in_map, list_elem_of_In.
Qed.

(** An iteration of the matching loop that fills the best entry of the
    opposite side only in part: the loop executes the rest of the
    incoming quantity against it, puts it back under its own key, and
    stops. *)
Lemma partial_fill_in_loop (order : Order.t) (fuel : nat) (eng : CDAEngine)
    (remaining : Z) (trades : list Trade.t) (it : item) (rest : list item) :
  book_wf (book eng) ->
  opposite_side order (book eng) = it :: rest ->
  does_not_cross order (quote_price order it)
  || negb (is_valid_price (pl_rule eng) (quote_price order it)
             (last_close_price eng)) = false ->
  0 < remaining -> remaining < BookEntry.remaining (snd it) ->
  let filled :=
    BookEntry.set_remaining (BookEntry.remaining (snd it) - remaining)
      (snd it) in
  let trade := trade_of order eng it remaining in
  exists b2,
    CDA.match_loop (S fuel) order remaining trades eng
    = (Returns (0, trades ++ [trade]),
       mkCDAEngine b2 (pl_rule eng) (tt_rule eng) (last_close_price eng)
         (_trade_counter eng + 1) (Some (quote_price order it))
         (trades_this_period eng ++ [trade]))
    /\ book_wf b2 /\ _counter b2 = _counter (book eng)
    /\ own_side order b2 = own_side order (book eng)
    /\ opposite_side order b2 ≡ₚ (fst it, filled) :: rest
    /\ (if Order.direction order =? 1 then Book.peek_best_ask b2
        else Book.peek_best_bid b2) = Some filled.
Proof.
  intros Hwf Hside Hblk Hpos Hlt filled trade.
  pose proof (match_loop_step order fuel eng remaining trades Hwf Hpos)
    as Hstep.
  rewrite Hside, Hblk in Hstep. cbv zeta in Hstep.
  rewrite (Z.min_l remaining (BookEntry.remaining (snd it))) in Hstep by lia.
  destruct Hstep as (b2 & side1 & Hrun & Hwf2 & Hc2 & Hown2 & Hperm & Hopp2).
  assert (Hgt : (BookEntry.remaining (snd it) - remaining >? 0) = true).
  { rewrite Z.gtb_ltb. apply Z.ltb_lt. lia. }
  rewrite Hgt in Hopp2.
  rewrite Z.sub_diag in Hrun.
  rewrite (match_loop_done order fuel _ 0) in Hrun by lia.
  destruct (reinserted_is_root order (book eng) b2 it (fst it, filled)
              rest side1 Hwf Hwf2 Hside Hperm Hopp2 eq_refl)
    as (rest2 & Hroot).
  exists b2. split; [exact Hrun|]. split; [exact Hwf2|].
  split; [exact Hc2|]. split; [exact Hown2|]. split.
  - rewrite Hopp2. constructor. symmetry.
    eapply Permutation_cons_inv. exact Hperm.
  - now rewrite (peek_opposite_root order b2 _ rest2 Hroot).
Qed.

(** The same seen from [process_order]: an incoming order that is
    smaller than the best entry it crosses. *)
Lemma partial_fill_in_process_order (eng : CDAEngine) (order : Order.t)
    (it : item) (rest : list item) :
  book_wf (book eng) ->
  passes_validation order eng = true ->
  opposite_side order (book eng) = it :: rest ->
  does_not_cross order (quote_price order it)
  || negb (is_valid_price (pl_rule eng) (quote_price order it)
             (last_close_price eng)) = false ->
  Order.quantity order < BookEntry.remaining (snd it) ->
  let filled :=
    BookEntry.set_remaining
      (BookEntry.remaining (snd it) - Order.quantity order) (snd it) in
  exists eng',
    CDA.process_order order eng
    = (Returns [trade_of order eng it (Order.quantity order)], eng')
    /\ book_wf (book eng')
    /\ _counter (book eng') = _counter (book eng)
    /\ own_side order (book eng') = own_side order (book eng)
    /\ opposite_side order (book eng') ≡ₚ (fst it, filled) :: rest
    /\ (if Order.direction order =? 1 then Book.peek_best_ask (book eng')
        else Book.peek_best_bid (book eng')) = Some filled.
Proof.
  intros Hwf Hv Hside Hblk Hlt filled.
  destruct (passes_validation_facts _ _ Hv) as [Hq _].
  destruct (process_order_full eng order Hwf Hv)
    as (rem & trades & eng1 & eng' & Hrun & Hloop & _ & Heng' & Hwf' & Hrest).
  destruct (partial_fill_in_loop order (CDA.opposite_depth order eng) eng
              (Order.quantity order) [] it rest Hwf Hside Hblk Hq Hlt)
    as (b2 & Hrun2 & Hwf2 & Hc2 & Hown2 & Hperm2 & Hpeek2).
  rewrite Hloop in Hrun2. cbn [app] in Hrun2.
  injection Hrun2 as -> -> ->.
  cbn [andb Z.ltb Z.compare book] in Hrest.
  exists eng'. rewrite Hrest. split; [exact Hrun|]. auto.
Qed.

(** C2.  On a well-formed book, an entry that the matching loop popped
    and that still has positive remaining quantity is put back by
    [reinsert] under the arrival number it already had: the call
    returns, issues no new arrival number, adds to the entry's side one
    tuple keyed by the entry's own price and arrival number, and the
    entry is again the best of its side, ahead of every other resting
    entry.  And over any number of [process_order] calls, every tuple
    left on either side under an arrival number issued before the calls
    is a tuple that was resting before them, with the same key, price,
    arrival number and order, and with no more remaining quantity.  The
    matching loop itself does so: an iteration that fills the best entry
    of the opposite side only in part records the trade, leaves that
    entry on its side under its own key (its price and the arrival
    number it had) with the remaining quantity reduced by the fill and
    every other tuple as it was, issues no new arrival number, and the
    entry is still the first of its side; and so does a call of
    [process_order] with an order smaller than the best entry it
    crosses. *)
Theorem reinsert_keeps_arrival_number :
  (forall (b b1 : OrderBook) (e : BookEntry.t) (r : Z),
      book_wf b -> Book.pop_best_ask b = (Returns e, b1) -> 0 < r ->
      exists b2,
        Book.reinsert (BookEntry.set_remaining r e) b1 = (Returns tt, b2)
        /\ book_wf b2 /\ _counter b2 = _counter b
        /\ asks b2
           ≡ₚ (BookEntry.price e, BookEntry.timestamp e,
               BookEntry.set_remaining r e) :: asks b1
        /\ bids b2 = bids b
        /\ Book.peek_best_ask b2 = Some (BookEntry.set_remaining r e))
  /\ (forall (b b1 : OrderBook) (e : BookEntry.t) (r : Z),
        book_wf b -> Book.pop_best_bid b = (Returns e, b1) -> 0 < r ->
        exists b2,
          Book.reinsert (BookEntry.set_remaining r e) b1 = (Returns tt, b2)
          /\ book_wf b2 /\ _counter b2 = _counter b
          /\ bids b2
             ≡ₚ ((- BookEntry.price e)%Q, BookEntry.timestamp e,
                 BookEntry.set_remaining r e) :: bids b1
          /\ asks b2 = asks b
          /\ Book.peek_best_bid b2 = Some (BookEntry.set_remaining r e))
  /\ (forall (orders : list Order.t) (eng : CDAEngine),
        book_wf (book eng) ->
        exists trades eng',
          process_orders orders eng = (Returns trades, eng')
          /\ book_wf (book eng')
          /\ (forall it, it ∈ bids (book eng') ->
                item_ts it <= _counter (book eng) ->
                exists it0,
                  it0 ∈ bids (book eng) /\ same_entry_filled it0 it)
          /\ (forall it, it ∈ asks (book eng') ->
                item_ts it <= _counter (book eng) ->
                exists it0,
                  it0 ∈ asks (book eng) /\ same_entry_filled it0 it))
  /\ (forall (order : Order.t) (fuel : nat) (eng : CDAEngine)
             (remaining : Z) (trades : list Trade.t) (it : item)
             (rest : list item),
        book_wf (book eng) ->
        opposite_side order (book eng) = it :: rest ->
        does_not_cross order (quote_price order it)
        || negb (is_valid_price (pl_rule eng) (quote_price order it)
                   (last_close_price eng)) = false ->
        0 < remaining -> remaining < BookEntry.remaining (snd it) ->
        let filled :=
          BookEntry.set_remaining (BookEntry.remaining (snd it) - remaining)
            (snd it) in
        let trade := trade_of order eng it remaining in
        exists b2,
          CDA.match_loop (S fuel) order remaining trades eng
          = (Returns (0, trades ++ [trade]),
             mkCDAEngine b2 (pl_rule eng) (tt_rule eng) (last_close_price eng)
               (_trade_counter eng + 1) (Some (quote_price order it))
               (trades_this_period eng ++ [trade]))
          /\ book_wf b2 /\ _counter b2 = _counter (book eng)
          /\ own_side order b2 = own_side order (book eng)
          /\ opposite_side order b2 ≡ₚ (fst it, filled) :: rest
          /\ BookEntry.timestamp filled = BookEntry.timestamp (snd it)
          /\ (if Order.direction order =? 1 then Book.peek_best_ask b2
              else Book.peek_best_bid b2) = Some filled)
  /\ (forall (eng : CDAEngine) (order : Order.t) (it : item)
             (rest : list item),
        book_wf (book eng) ->
        passes_validation order eng = true ->
        opposite_side order (book eng) = it :: rest ->
        does_not_cross order (quote_price order it)
        || negb (is_valid_price (pl_rule eng) (quote_price order it)
                   (last_close_price eng)) = false ->
        Order.quantity order < BookEntry.remaining (snd it) ->
        let filled :=
          BookEntry.set_remaining
            (BookEntry.remaining (snd it) - Order.quantity order) (snd it) in
        exists eng',
          CDA.process_order order eng
          = (Returns [trade_of order eng it (Order.quantity order)], eng')
          /\ book_wf (book eng')
          /\ _counter (book eng') = _counter (book eng)
          /\ own_side order (book eng') = own_side order (book eng)
          /\ opposite_side order (book eng') ≡ₚ (fst it, filled) :: rest
          /\ BookEntry.timestamp filled = BookEntry.timestamp (snd it)
          /\ (if Order.direction order =? 1
              then Book.peek_best_ask (book eng')
              else Book.peek_best_bid (book eng')) = Some filled).
Proof.
  split; [exact reinsert_popped_ask|]. split; [exact reinsert_popped_bid|].
  split; [|split].
  - intros orders eng Hwf.
    destruct (process_orders_descends orders eng Hwf) as
      (trades & eng' & Hrun & Hwf' & _ & Hb & Ha).
    exists trades, eng'. auto.
  - intros order fuel eng remaining trades it rest Hwf Hside Hblk Hpos Hlt.
    destruct (partial_fill_in_loop order fuel eng remaining trades it rest
                Hwf Hside Hblk Hpos Hlt)
      as (b2 & H1 & H2 & H3 & H4 & H5 & H6).
    exists b2. cbv zeta. auto 10.
  - intros eng order it rest Hwf Hv Hside Hblk Hlt.
    destruct (partial_fill_in_process_order eng order it rest
                Hwf Hv Hside Hblk Hlt)
      as (eng' & H1 & H2 & H3 & H4 & H5 & H6).
    exists eng'. cbv zeta. auto 10.
Qed.

Lemma reinsert_keeps_arrival_number_witness :
  let b := snd (Book.add_limit (Order.mk 2 1 "limit" 10 4)
             (snd (Book.add_limit (Order.mk 1 1 "limit" 10 5) Book.init))) in
  let e := BookEntry.mk 10 1 (Order.mk 1 1 "limit" 10 5) 5 in
  let e2 := BookEntry.mk 10 2 (Order.mk 2 1 "limit" 10 4) 4 in
  let b1 := snd (Book.pop_best_bid b) in
  Book.pop_best_bid b = (Returns e, b1)
  /\ (exists b2,
        Book.reinsert (BookEntry.set_remaining 2 e) b1 = (Returns tt, b2)
        /\ book_wf b2 /\ _counter b2 = _counter b
        /\ bids b2
           ≡ₚ ((- BookEntry.price e)%Q, BookEntry.timestamp e,
               BookEntry.set_remaining 2 e) :: bids b1
        /\ asks b2 = asks b
        /\ Book.peek_best_bid b2 = Some (BookEntry.set_remaining 2 e))
  /\ (exists trades eng',
        process_orders
          [Order.mk 1 1 "limit" 10 5; Order.mk 2 (-1) "limit" 9 3;
           Order.mk 3 (-1) "limit" 10 4]
          (CDA.init (Some 10%Q) (mkPriceLimitRule true (1 # 10))
             (mkTransactionTaxRule true (1 # 1000)))
        = (Returns trades, eng')
        /\ book_wf (book eng'))
  /\ (let eng :=
        CDA.set_book b
          (CDA.init (Some 10%Q) (mkPriceLimitRule true (1 # 10))
             (mkTransactionTaxRule true (1 # 1000))) in
      let order := Order.mk 3 (-1) "limit" 9 3 in
      exists eng',
        CDA.process_order order eng
        = (Returns [trade_of order eng (bid_item e) 3], eng')
        /\ _counter (book eng') = _counter b
        /\ asks (book eng') = asks b
        /\ bids (book eng')
           ≡ₚ [((- BookEntry.price e)%Q, BookEntry.timestamp e,
                BookEntry.set_remaining 2 e); bid_item e2]
        /\ Book.peek_best_bid (book eng')
           = Some (BookEntry.set_remaining 2 e)).
Proof.
  intros b e e2 b1.
  assert (Hpop : Book.pop_best_bid b = (Returns e, b1)) by reflexivity.
  assert (Hwf : book_wf b)
    by apply book_wf_add_limit, book_wf_add_limit, book_wf_init.
  split; [exact Hpop|].
  pose proof reinsert_keeps_arrival_number as (_ & Hbid & Hrun & _ & Hpo).
  split; [|split].
  - apply (Hbid b b1 e 2); [exact Hwf|exact Hpop|lia].
  - destruct (Hrun
                [Order.mk 1 1 "limit" 10 5; Order.mk 2 (-1) "limit" 9 3;
                 Order.mk 3 (-1) "limit" 10 4]
                (CDA.init (Some 10%Q) (mkPriceLimitRule true (1 # 10))
                   (mkTransactionTaxRule true (1 # 1000)))
                book_wf_init) as (trades & eng' & H1 & H2 & _).
    exists trades, eng'. split; [exact H1|exact H2].
  - intros eng order.
    destruct (Hpo eng order (bid_item e) [bid_item e2])
      as (eng' & H1 & H2 & H3 & H4 & H5 & H6 & H7).
    + exact Hwf.
    + vm_compute. reflexivity.
    + vm_compute. reflexivity.
    + vm_compute. reflexivity.
    + vm_compute. reflexivity.
    + exists eng'. split; [exact H1|]. split; [exact H3|].
      split; [exact H4|]. split; [exact H5|exact H7].
Defined.

(** ** [CDAEngine.process_order]: what a caller can rely on *)

Ltac loop_post_facts H :=
  destruct H as (Hwf1 & Hc1 & Hpl & Htt & Hlc & Hown & Hdesc & Htc & Http
                 & Hltp & Hts & Hrem & Htot & Hok & Hblk & Hp1).

Ltac bool_atom x :=
  lazymatch x with
  | andb _ _ => fail
  | orb _ _ => fail
  | negb _ => fail
  | _ => destruct x
  end.

Ltac bool_cases :=
  repeat first
    [ progress cbn [andb orb negb]
    | match goal with
      | |- context [andb ?x _] => bool_atom x
      | |- context [orb ?x _] => bool_atom x
      | |- context [negb ?x] => bool_atom x
      end ];
  try reflexivity; try discriminate.

Lemma market_inv_empty (eng : CDAEngine) :
  book eng = Book.init -> market_inv eng.
Proof.
  intros H. unfold market_inv, book_pos, prices_valid, uncrossed. rewrite H.
  split; [apply book_wf_init|]. cbn.
  split; [split; constructor|]. split; [split; constructor|].
  intros eb ea Hb. inversion Hb.
Qed.

Lemma market_inv_after (eng : CDAEngine) (order : Order.t) :
  market_inv eng -> market_inv (snd (CDA.process_order order eng)).
Proof.
  intros H.
  destruct (process_order_inv eng order H) as (trades & eng' & Hrun & H' & _).
  now rewrite Hrun.
Qed.

Lemma book_wf_after (eng : CDAEngine) (order : Order.t) :
  book_wf (book eng) -> book_wf (book (snd (CDA.process_order order eng))).
Proof.
  intros H.
  destruct (process_order_spec eng order H) as (trades & eng' & Hrun & H' & _).
  now rewrite Hrun.
Qed.

(** X15.  [process_order] drops an order that fails its validation: a
    quantity that is not positive, a type other than "market" and
    "limit", a direction other than 1 and -1, or a limit price that is
    not positive or fails the price-limit check.  It returns no trades,
    raises nothing and leaves the engine as it was: the book, the trade
    counter and the trade log. *)
Theorem invalid_orders_are_dropped (eng : CDAEngine) (order : Order.t) :
  Order.quantity order <= 0
  \/ (Order.order_type order <> "market" /\ Order.order_type order <> "limit")
  \/ (Order.direction order <> 1 /\ Order.direction order <> -1)
  \/ (Order.order_type order = "limit"
      /\ ((Order.price order <= 0)%Q
          \/ is_valid_price (pl_rule eng) (Order.price order)
               (last_close_price eng) = false)) ->
  CDA.process_order order eng = (Returns [], eng).
Proof.
  intros H. apply process_order_rejected. unfold passes_validation.
  destruct H as [H|[[H1 H2]|[[H1 H2]|[H1 [H2|H2]]]]].
  - apply Z.leb_le in H. rewrite H. reflexivity.
  - apply String.eqb_neq in H1, H2. rewrite H1, H2. bool_cases.
  - apply Z.eqb_neq in H1, H2. rewrite H1, H2. bool_cases.
  - apply String.eqb_eq in H1. apply Qle_bool_iff in H2.
    rewrite H1, H2. bool_cases.
  - apply String.eqb_eq in H1. rewrite H1, H2. bool_cases.
Qed.

Lemma invalid_orders_are_dropped_witness :
  let eng :=
    snd (CDA.process_order (Order.mk 1 (-1) "limit" 10 5)
           (CDA.init (Some 10%Q) (mkPriceLimitRule true (1 # 10))
              (mkTransactionTaxRule true (1 # 1000)))) in
  let order := Order.mk 2 1 "limit" 12 3 in
  is_valid_price (pl_rule eng) (Order.price order) (last_close_price eng)
  = false
  /\ CDA.process_order order eng = (Returns [], eng).
Proof.
  intros eng order.
  assert (H : is_valid_price (pl_rule eng) (Order.price order)
                (last_close_price eng) = false) by (vm_compute; reflexivity).
  split; [exact H|].
  apply (invalid_orders_are_dropped eng order).
  right. right. right. split; [reflexivity|]. right. exact H.
Defined.

(** X16.  On a well-formed book [process_order] returns, and every trade
    it returns was executed against an entry that was resting on the
    opposite side when the order arrived: at that entry's price, for no
    more than that entry's remaining quantity, and between the order's
    agent and that entry's agent, the buyer being the one whose order
    has direction 1. *)
Theorem trades_execute_at_resting_quotes (eng : CDAEngine)
    (order : Order.t) :
  book_wf (book eng) ->
  exists trades eng',
    CDA.process_order order eng = (Returns trades, eng')
    /\ forall t, t ∈ trades ->
         exists e,
           e ∈ resting (opposite_side order (book eng))
           /\ Trade.price t = BookEntry.price e
           /\ Trade.quantity t <= BookEntry.remaining e
           /\ Trade.buyer_id t
              = (if Order.direction order =? 1 then Order.agent_id order
                 else Order.agent_id (BookEntry.order e))
           /\ Trade.seller_id t
              = (if Order.direction order =? 1
                 then Order.agent_id (BookEntry.order e)
                 else Order.agent_id order).
Proof.
  intros Hwf.
  destruct (process_order_cases eng order Hwf)
    as (trades & eng' & Hrun
        & [(_ & -> & ->)|(_ & rem & eng1 & _ & Hpost & _)]).
  { exists [], eng. split; [exact Hrun|]. intros t Ht. inversion Ht. }
  exists trades, eng'. split; [exact Hrun|].
  loop_post_facts Hpost. rewrite Forall_forall in Hok.
  intros t Ht.
  destruct (Hok t Ht) as (_ & _ & _ & it & Hin & Hp & Hq & Hb & Hs).
  exists (snd it). split.
  { unfold resting. now apply list_elem_of_In, in_map, list_elem_of_In. }
  rewrite (quote_price_entry order (book eng) it (proj1 Hwf) Hin) in Hp.
  auto.
Qed.

Lemma trades_execute_at_resting_quotes_witness :
  let eng :=
    snd (CDA.process_order (Order.mk 1 (-1) "limit" 10 5)
           (CDA.init (Some 10%Q) (mkPriceLimitRule true (1 # 10))
              (mkTransactionTaxRule true (1 # 1000)))) in
  let order := Order.mk 2 1 "limit" 10 3 in
  book_wf (book eng)
  /\ exists trades eng',
       CDA.process_order order eng = (Returns trades, eng')
       /\ forall t, t ∈ trades ->
            exists e,
              e ∈ resting (opposite_side order (book eng))
              /\ Trade.price t = BookEntry.price e
              /\ Trade.quantity t <= BookEntry.remaining e
              /\ Trade.buyer_id t
                 = (if Order.direction order =? 1 then Order.agent_id order
                    else Order.agent_id (BookEntry.order e))
              /\ Trade.seller_id t
                 = (if Order.direction order =? 1
                    then Order.agent_id (BookEntry.order e)
                    else Order.agent_id order).
Proof.
  intros eng order.
  assert (Hwf : book_wf (book eng)) by (apply book_wf_after, book_wf_init).
  split; [exact Hwf|].
  exact (trades_execute_at_resting_quotes eng order Hwf).
Defined.

(** X17.  On a well-formed book every trade [process_order] returns has
    a price that passes the engine's price-limit check, carries the tax
    [calculate_tax] gives for its price and quantity, and respects the
    limit of a limit order: a buy never pays more than its limit price
    and a sell never receives less. *)
Theorem trades_respect_band_tax_and_limit (eng : CDAEngine)
    (order : Order.t) :
  book_wf (book eng) ->
  exists trades eng',
    CDA.process_order order eng = (Returns trades, eng')
    /\ forall t, t ∈ trades ->
         is_valid_price (pl_rule eng) (Trade.price t) (last_close_price eng)
         = true
         /\ Trade.tax_amount t
            = calculate_tax (tt_rule eng) (Trade.price t) (Trade.quantity t)
         /\ (Order.order_type order = "limit" ->
             if Order.direction order =? 1
             then (Trade.price t <= Order.price order)%Q
             else (Order.price order <= Trade.price t)%Q).
Proof.
  intros Hwf.
  destruct (process_order_cases eng order Hwf)
    as (trades & eng' & Hrun
        & [(_ & -> & ->)|(Hv & rem & eng1 & _ & Hpost & _)]).
  { exists [], eng. split; [exact Hrun|]. intros t Ht. inversion Ht. }
  exists trades, eng'. split; [exact Hrun|].
  apply passes_validation_facts in Hv as [_ Hdir].
  loop_post_facts Hpost. rewrite Forall_forall in Hok.
  intros t Ht. destruct (Hok t Ht) as (Hvalid & Hcross & Htax & _).
  split; [exact Hvalid|]. split; [exact Htax|].
  intros Hlim. apply String.eqb_eq in Hlim.
  unfold does_not_cross in Hcross. rewrite Hlim in Hcross.
  cbn [andb] in Hcross. apply orb_false_iff in Hcross as [H1 H2].
  unfold Qlt_bool in H1, H2.
  destruct (Order.direction order =? 1); cbn [andb orb] in *.
  - apply negb_false_iff in H1. now apply Qle_bool_iff.
  - rewrite Hdir in H2. cbn [andb] in H2.
    apply negb_false_iff in H2. now apply Qle_bool_iff.
Qed.

Lemma trades_respect_band_tax_and_limit_witness :
  let eng :=
    snd (CDA.process_order (Order.mk 1 (-1) "limit" 10 5)
           (CDA.init (Some 10%Q) (mkPriceLimitRule true (1 # 10))
              (mkTransactionTaxRule true (1 # 1000)))) in
  let order := Order.mk 2 1 "limit" (21 # 2) 3 in
  book_wf (book eng)
  /\ exists trades eng',
       CDA.process_order order eng = (Returns trades, eng')
       /\ forall t, t ∈ trades ->
            is_valid_price (pl_rule eng) (Trade.price t)
              (last_close_price eng) = true
            /\ Trade.tax_amount t
               = calculate_tax (tt_rule eng) (Trade.price t)
                   (Trade.quantity t)
            /\ (Order.order_type order = "limit" ->
                if Order.direction order =? 1
                then (Trade.price t <= Order.price order)%Q
                else (Order.price order <= Trade.price t)%Q).
Proof.
  intros eng order.
  assert (Hwf : book_wf (book eng)) by (apply book_wf_after, book_wf_init).
  split; [exact Hwf|].
  exact (trades_respect_band_tax_and_limit eng order Hwf).
Defined.

(** X18.  On a well-formed book [process_order] numbers and logs its
    trades: the trade counter grows by the number of trades returned,
    the trades carry the consecutive numbers after the old counter in
    the order returned, they are appended in that order to
    [trades_this_period], and [last_transaction_price] becomes the price
    of the last trade, or stays as it was when there is none.  The
    rules and the reference price are not changed. *)
Theorem trades_are_numbered_and_logged (eng : CDAEngine)
    (order : Order.t) :
  book_wf (book eng) ->
  exists trades eng',
    CDA.process_order order eng = (Returns trades, eng')
    /\ _trade_counter eng' = _trade_counter eng + Z.of_nat (length trades)
    /\ (forall i t, trades !! i = Some t ->
          Trade.timestamp t = _trade_counter eng + 1 + Z.of_nat i)
    /\ trades_this_period eng' = trades_this_period eng ++ trades
    /\ last_transaction_price eng'
       = match last trades with
         | Some t => Some (Trade.price t)
         | None => last_transaction_price eng
         end
    /\ pl_rule eng' = pl_rule eng /\ tt_rule eng' = tt_rule eng
    /\ last_close_price eng' = last_close_price eng.
Proof.
  intros Hwf.
  destruct (process_order_cases eng order Hwf)
    as (trades & eng' & Hrun
        & [(_ & -> & ->)|(_ & rem & eng1 & _ & Hpost & Heng' & _)]).
  { exists [], eng. split; [exact Hrun|]. cbn [length last].
    rewrite app_nil_r, Z.add_0_r. repeat split; try reflexivity.
    intros i t H. destruct i; discriminate. }
  exists trades, eng'. split; [exact Hrun|].
  loop_post_facts Hpost. rewrite Heng'.
  cbn [CDA.set_book _trade_counter trades_this_period last_transaction_price
       pl_rule tt_rule last_close_price].
  auto 10.
Qed.

Lemma trades_are_numbered_and_logged_witness :
  let eng :=
    snd (CDA.process_order (Order.mk 1 (-1) "limit" 10 5)
           (CDA.init (Some 10%Q) (mkPriceLimitRule true (1 # 10))
              (mkTransactionTaxRule true (1 # 1000)))) in
  let order := Order.mk 2 1 "market" 0 7 in
  book_wf (book eng)
  /\ exists trades eng',
       CDA.process_order order eng = (Returns trades, eng')
       /\ _trade_counter eng' = _trade_counter eng + Z.of_nat (length trades)
       /\ (forall i t, trades !! i = Some t ->
             Trade.timestamp t = _trade_counter eng + 1 + Z.of_nat i)
       /\ trades_this_period eng' = trades_this_period eng ++ trades
       /\ last_transaction_price eng'
          = match last trades with
            | Some t => Some (Trade.price t)
            | None => last_transaction_price eng
            end
       /\ pl_rule eng' = pl_rule eng /\ tt_rule eng' = tt_rule eng
       /\ last_close_price eng' = last_close_price eng.
Proof.
  intros eng order.
  assert (Hwf : book_wf (book eng)) by (apply book_wf_after, book_wf_init).
  split; [exact Hwf|].
  exact (trades_are_numbered_and_logged eng order Hwf).
Defined.

Lemma total_remaining_app_perm (it : item) (l l' : list item) :
  l' ≡ₚ it :: l ->
  total_remaining l' = BookEntry.remaining (snd it) + total_remaining l.
Proof. intros H. now rewrite (total_remaining_perm _ _ H). Qed.

(** X19.  Quantity is conserved by [process_order] on a well-formed book
    whose resting quantities are positive.  Every trade has a positive
    quantity and the trades fill no more than the quantity ordered; the
    quantity resting on the opposite side falls by exactly the quantity
    traded; the quantity resting on the order's own side grows by the
    unfilled rest of the order when the remainder rests, and is
    unchanged otherwise. *)
Theorem order_quantity_is_conserved (eng : CDAEngine) (order : Order.t) :
  book_wf (book eng) -> book_pos (book eng) ->
  exists trades eng',
    CDA.process_order order eng = (Returns trades, eng')
    /\ Forall (fun t => 0 < Trade.quantity t) trades
    /\ sum_quantity trades <= Z.max 0 (Order.quantity order)
    /\ total_remaining (opposite_side order (book eng'))
       = total_remaining (opposite_side order (book eng))
         - sum_quantity trades
    /\ total_remaining (own_side order (book eng'))
       = total_remaining (own_side order (book eng))
         + (if remainder_rests order eng trades
            then Order.quantity order - sum_quantity trades else 0).
Proof.
  intros Hwf Hpos. unfold remainder_rests.
  destruct (process_order_cases eng order Hwf)
    as (trades & eng' & Hrun
        & [(Hv & -> & ->)
          |(Hv & rem & eng1 & _ & Hpost & Heng' & Hwf' & Hrest)]).
  { exists [], eng. split; [exact Hrun|]. rewrite Hv.
    cbn [sum_quantity fold_right andb]. split; [constructor|].
    split; [lia|]. split; lia. }
  exists trades, eng'. split; [exact Hrun|]. rewrite Hv. cbn [andb].
  destruct (passes_validation_facts _ _ Hv) as [Hq _].
  loop_post_facts Hpost. destruct (Hp1 Hpos) as (_ & Hqs & Hr).
  split; [exact Hqs|]. split; [lia|].
  assert (Hc : (0 <? rem) = (sum_quantity trades <? Order.quantity order)).
  { destruct (Z.ltb_spec 0 rem), (Z.ltb_spec (sum_quantity trades)
                                    (Order.quantity order)); lia. }
  rewrite Hc in Hrest.
  destruct ((sum_quantity trades <? Order.quantity order)
            && Qlt_bool 0 (Order.price order)
            && is_valid_price (pl_rule eng) (Order.price order)
                 (last_close_price eng)).
  - destruct (rests_sides _ _ _ _ Hrest) as (it & Hp & Ho & _ & Hre).
    rewrite Ho, (total_remaining_app_perm _ _ _ Hp), Hre, Hown. lia.
  - rewrite Hrest, Hown. lia.
Qed.

Lemma order_quantity_is_conserved_witness :
  let eng :=
    snd (CDA.process_order (Order.mk 1 (-1) "limit" 10 5)
           (CDA.init (Some 10%Q) (mkPriceLimitRule true (1 # 10))
              (mkTransactionTaxRule true (1 # 1000)))) in
  let order := Order.mk 2 1 "limit" 10 7 in
  book_wf (book eng) /\ book_pos (book eng)
  /\ exists trades eng',
       CDA.process_order order eng = (Returns trades, eng')
       /\ Forall (fun t => 0 < Trade.quantity t) trades
       /\ sum_quantity trades <= Z.max 0 (Order.quantity order)
       /\ total_remaining (opposite_side order (book eng'))
          = total_remaining (opposite_side order (book eng))
            - sum_quantity trades
       /\ total_remaining (own_side order (book eng'))
          = total_remaining (own_side order (book eng))
            + (if remainder_rests order eng trades
               then Order.quantity order - sum_quantity trades else 0).
Proof.
  intros eng order.
  assert (Hinv : market_inv eng).
  { apply market_inv_after, market_inv_empty. reflexivity. }
  destruct Hinv as (Hwf & Hpos & _).
  split; [exact Hwf|]. split; [exact Hpos|].
  exact (order_quantity_is_conserved eng order Hwf Hpos).
Defined.

(** X20.  [process_order] keeps the invariant of the engine's book: a
    well-formed book on which every resting quantity is positive, every
    resting price passes the price-limit check and no bid is at or above
    an ask is left in that state by any order, valid or not, and the
    call returns. *)
Theorem process_order_keeps_market_invariant (eng : CDAEngine)
    (order : Order.t) :
  market_inv eng ->
  exists trades eng',
    CDA.process_order order eng = (Returns trades, eng')
    /\ book_wf (book eng') /\ book_pos (book eng')
    /\ prices_valid eng' /\ uncrossed (book eng').
Proof.
  intros H.
  destruct (process_order_inv eng order H) as (trades & eng' & Hrun & H' & _).
  exists trades, eng'. split; [exact Hrun|exact H'].
Qed.

Lemma process_order_keeps_market_invariant_witness :
  let eng :=
    snd (CDA.process_order (Order.mk 1 (-1) "limit" 10 5)
           (CDA.init (Some 10%Q) (mkPriceLimitRule true (1 # 10))
              (mkTransactionTaxRule true (1 # 1000)))) in
  let order := Order.mk 2 1 "limit" (19 # 2) 7 in
  market_inv eng
  /\ exists trades eng',
       CDA.process_order order eng = (Returns trades, eng')
       /\ book_wf (book eng') /\ book_pos (book eng')
       /\ prices_valid eng' /\ uncrossed (book eng').
Proof.
  intros eng order.
  assert (Hinv : market_inv eng).
  { apply market_inv_after, market_inv_empty. reflexivity. }
  split; [exact Hinv|].
  exact (process_order_keeps_market_invariant eng order Hinv).
Defined.

Lemma process_orders_inv (orders : list Order.t) :
  forall eng : CDAEngine,
    market_inv eng ->
    exists trades eng',
      process_orders orders eng = (Returns trades, eng')
      /\ market_inv eng'
      /\ pl_rule eng' = pl_rule eng /\ tt_rule eng' = tt_rule eng
      /\ last_close_price eng' = last_close_price eng.
Proof.
  induction orders as [|order orders IH]; intros eng Hinv.
  - exists [], eng. auto.
  - destruct (process_order_inv eng order Hinv)
      as (tr1 & eng1 & Hrun1 & Hinv1 & Hpl1 & Htt1 & Hlc1).
    destruct (IH eng1 Hinv1) as (tr2 & eng2 & Hrun2 & Hinv2 & Hpl2 & Htt2 & Hlc2).
    exists (tr1 ++ tr2), eng2. cbn [process_orders].
    unfold bind at 1. rewrite Hrun1. unfold bind at 1. rewrite Hrun2.
    split; [reflexivity|]. split; [exact Hinv2|]. repeat split; congruence.
Qed.

Lemma uncrossed_snapshot (eng : CDAEngine) (bb ba : Q) :
  book_inv (book eng) -> uncrossed (book eng) ->
  get_market_snapshot eng = (Some bb, Some ba) -> (bb < ba)%Q.
Proof.
  intros (_ & _ & Kb & Ka) Hunc.
  unfold get_market_snapshot, Book.snapshot, Book.best_bid, Book.best_ask.
  unfold uncrossed in Hunc.
  destruct (bids (book eng)) as [|[[pb tb] eb] bs]; [discriminate|].
  destruct (asks (book eng)) as [|[[pa ta] ea] aks]; [discriminate|].
  intros H. injection H as <- <-.
  apply Forall_cons in Kb as [(Hb & _) _]. apply Forall_cons in Ka as [(Ha & _) _].
  cbn [fst snd] in Hb, Ha. rewrite Hb, Ha, Qopp_opp.
  apply Hunc; cbn; now left.
Qed.

(** X21.  During a trading period the spread stays positive.  From a
    new engine, or after [set_reference_price_and_reset_book], any
    sequence of orders whatever is processed without an exception, and
    it leaves a book on which every resting quantity is positive, every
    resting price passes the price-limit check against the period's
    reference price, and no bid is at or above an ask; so whenever the
    snapshot shows both a best bid and a best ask, the best bid is
    strictly below the best ask. *)
Theorem order_stream_keeps_spread_positive (eng0 : CDAEngine)
    (initial_price : option Q) (pl : PriceLimitRule)
    (tax : TransactionTaxRule) (last_close : Q) (orders : list Order.t) :
  (exists trades eng',
     process_orders orders (CDA.init initial_price pl tax)
     = (Returns trades, eng')
     /\ last_close_price eng' = initial_price
     /\ book_pos (book eng') /\ prices_valid eng' /\ uncrossed (book eng')
     /\ forall bb ba, get_market_snapshot eng' = (Some bb, Some ba) ->
                      (bb < ba)%Q)
  /\ (exists eng1 trades eng',
        CDA.set_reference_price_and_reset_book last_close eng0
        = (Returns tt, eng1)
        /\ _trade_counter eng1 = _trade_counter eng0
        /\ process_orders orders eng1 = (Returns trades, eng')
        /\ last_close_price eng' = Some last_close
        /\ book_pos (book eng') /\ prices_valid eng' /\ uncrossed (book eng')
        /\ forall bb ba, get_market_snapshot eng' = (Some bb, Some ba) ->
                         (bb < ba)%Q).
Proof.
  split.
  - destruct (process_orders_inv orders (CDA.init initial_price pl tax))
      as (trades & eng' & Hrun & (Hwf & Hpos & Hval & Hunc) & _ & _ & Hlc).
    { now apply market_inv_empty. }
    exists trades, eng'. split; [exact Hrun|]. split; [exact Hlc|].
    split; [exact Hpos|]. split; [exact Hval|]. split; [exact Hunc|].
    intros bb ba. apply uncrossed_snapshot; [apply Hwf|exact Hunc].
  - destruct (CDA.set_reference_price_and_reset_book last_close eng0)
      as [r eng1] eqn:Hreset.
    unfold CDA.set_reference_price_and_reset_book, bind, modify, CDA.on_book,
      on_field, Book.clear, put in Hreset.
    cbn in Hreset. injection Hreset as <- <-.
    match goal with
    | |- exists e1 _ _, (_, ?e) = (_, e1) /\ _ =>
        destruct (process_orders_inv orders e)
          as (trades & eng' & Hrun & (Hwf & Hpos & Hval & Hunc) & _ & _ & Hlc)
    end.
    { now apply market_inv_empty. }
    eexists _, trades, eng'. split; [reflexivity|]. split; [reflexivity|].
    split; [exact Hrun|]. split; [exact Hlc|].
    split; [exact Hpos|]. split; [exact Hval|]. split; [exact Hunc|].
    intros bb ba. apply uncrossed_snapshot; [apply Hwf|exact Hunc].
Qed.

Lemma order_stream_keeps_spread_positive_witness :
  let pl := mkPriceLimitRule true (1 # 10) in
  let tax := mkTransactionTaxRule true (1 # 1000) in
  let orders :=
    [Order.mk 1 (-1) "limit" 10 5; Order.mk 2 1 "limit" 9 3;
     Order.mk 3 1 "market" 0 2; Order.mk 4 (-1) "limit" (19 # 2) 1] in
  let eng' := snd (process_orders orders (CDA.init (Some 10%Q) pl tax)) in
  get_market_snapshot eng' = (Some 9%Q, Some (19 # 2)%Q)
  /\ (9 < 19 # 2)%Q.
Proof.
  intros pl tax orders eng'.
  assert (Hsnap : get_market_snapshot eng' = (Some 9%Q, Some (19 # 2)%Q))
    by (vm_compute; reflexivity).
  split; [exact Hsnap|].
  destruct (order_stream_keeps_spread_positive
              (CDA.init None pl tax) (Some 10%Q) pl tax 10 orders)
    as [(trades & e & Hrun & _ & _ & _ & _ & Hs) _].
  apply Hs.
  assert (He : e = eng') by (unfold eng'; rewrite Hrun; reflexivity).
  rewrite He. exact Hsnap.
Defined.

(** X22.  [process_order] walks the book from the best quote outward.
    On a well-formed book its first trade is against the entry
    [peek_best_ask] (for a buy) or [peek_best_bid] (for any other order)
    showed when the order arrived, at that entry's price and for the
    smaller of the quantity ordered and that entry's remaining quantity;
    and the prices of successive trades never improve: they do not fall
    for a buy and do not rise for a sell. *)
Theorem executions_walk_the_book (eng : CDAEngine) (order : Order.t) :
  book_wf (book eng) ->
  exists trades eng',
    CDA.process_order order eng = (Returns trades, eng')
    /\ (forall t, head trades = Some t ->
          exists e,
            (if Order.direction order =? 1
             then Book.peek_best_ask (book eng)
             else Book.peek_best_bid (book eng)) = Some e
            /\ Trade.price t = BookEntry.price e
            /\ Trade.quantity t
               = Z.min (Order.quantity order) (BookEntry.remaining e))
    /\ prices_walk order trades.
Proof.
  intros Hwf.
  destruct (process_order_cases eng order Hwf)
    as (trades & eng' & Hrun
        & [(_ & -> & ->)|(_ & rem & eng1 & Hloop & _)]).
  { exists [], eng. split; [exact Hrun|].
    split; [intros t H; discriminate|].
    intros i t t' H. destruct i; discriminate. }
  exists trades, eng'. split; [exact Hrun|].
  destruct (match_loop_walk order (S (CDA.opposite_depth order eng)) eng
              (Order.quantity order) [] Hwf)
    as (rem' & new & eng1' & Hrun' & _ & Hhd & Hwalk).
  { intros _. rewrite opposite_depth_length. lia. }
  rewrite Hloop in Hrun'. cbn [app] in Hrun'. injection Hrun' as _ <- _.
  split; [|exact Hwalk].
  intros t Ht. destruct (Hhd t Ht) as (it & rest & Hside & ->).
  exists (snd it). split; [now apply (peek_opposite_root order _ it rest)|].
  cbn [trade_of Trade.price Trade.quantity]. split; [|reflexivity].
  apply (quote_price_entry order (book eng)); [apply Hwf|].
  rewrite Hside. now left.
Qed.

Lemma executions_walk_the_book_witness :
  let eng :=
    snd (CDA.process_order (Order.mk 3 (-1) "limit" 10 2)
           (snd (CDA.process_order (Order.mk 1 (-1) "limit" (21 # 2) 5)
                   (CDA.init (Some 10%Q) (mkPriceLimitRule true (1 # 10))
                      (mkTransactionTaxRule true (1 # 1000)))))) in
  let order := Order.mk 2 1 "market" 0 4 in
  book_wf (book eng)
  /\ exists trades eng',
       CDA.process_order order eng = (Returns trades, eng')
       /\ (forall t, head trades = Some t ->
             exists e,
               (if Order.direction order =? 1
                then Book.peek_best_ask (book eng)
                else Book.peek_best_bid (book eng)) = Some e
               /\ Trade.price t = BookEntry.price e
               /\ Trade.quantity t
                  = Z.min (Order.quantity order) (BookEntry.remaining e))
       /\ prices_walk order trades.
Proof.
  intros eng order.
  assert (Hwf : book_wf (book eng)).
  { apply book_wf_after, book_wf_after, book_wf_init. }
  split; [exact Hwf|].
  exact (executions_walk_the_book eng order Hwf).
Defined.

(** A valid market order that finds the opposite side not empty trades
    against its root at once, and does not rest when its price is not
    positive. *)
Lemma market_order_fills (eng : CDAEngine) (order : Order.t) :
  market_inv eng -> passes_validation order eng = true ->
  Order.order_type order = "market" ->
  opposite_side order (book eng) <> [] ->
  exists t trades eng' it rest,
    CDA.process_order order eng = (Returns (t :: trades), eng')
    /\ opposite_side order (book eng) = it :: rest
    /\ t = trade_of order eng it
             (Z.min (Order.quantity order) (BookEntry.remaining (snd it)))
    /\ (Qlt_bool 0 (Order.price order) = false ->
        own_side order (book eng') = own_side order (book eng)).
Proof.
  intros (Hwf & Hpos & Hval & Hunc) Hv Htype Hne.
  destruct (process_order_full eng order Hwf Hv)
    as (rem & trades & eng1 & eng' & Hrun & Hloop & Hpost & Heng' & Hwf'
        & Hrest).
  destruct (match_loop_walk order (S (CDA.opposite_depth order eng)) eng
              (Order.quantity order) [] Hwf)
    as (rem' & new & eng1' & Hrun' & Hnil & Hhd & _).
  { intros _. rewrite opposite_depth_length. lia. }
  rewrite Hloop in Hrun'. cbn [app] in Hrun'. injection Hrun' as <- <- <-.
  destruct (passes_validation_facts _ _ Hv) as [Hq _].
  loop_post_facts Hpost.
  destruct trades as [|t trades].
  { exfalso. destruct (Hnil eq_refl) as [-> ->].
    specialize (Hblk Hq). unfold loop_blocked in Hblk.
    apply (prices_valid_resting order) in Hval as [_ Hvp].
    destruct (opposite_side order (book eng)) as [|it rest] eqn:Hside;
      [now apply Hne|].
    assert (Hin : it ∈ opposite_side order (book eng))
      by (rewrite Hside; now left).
    rewrite (quote_price_entry order (book eng) it (proj1 Hwf) Hin) in Hblk.
    rewrite Hvp in Hblk.
    2:{ unfold resting. rewrite <- Hside.
        now apply list_elem_of_In, in_map, list_elem_of_In. }
    unfold does_not_cross in Hblk. rewrite Htype in Hblk.
    cbn in Hblk. discriminate. }
  destruct (Hhd t eq_refl) as (it & rest & Hside & Ht).
  exists t, trades, eng', it, rest.
  split; [exact Hrun|]. split; [exact Hside|]. split; [exact Ht|].
  intros Hp0. rewrite Hp0, andb_false_r in Hrest. cbn [andb] in Hrest.
  now rewrite Hrest.
Qed.

Lemma market_decision_cases (id order_size : Z) (pr : Q) (bb ba : option Q) :
  Order.order_type (_make_cda_decision id order_size pr bb ba) = "market" ->
  (exists a, ba = Some a /\ (a < pr)%Q
             /\ _make_cda_decision id order_size pr bb ba
                = Order.mk id 1 "market" 0 order_size)
  \/ (exists b, bb = Some b /\ (pr < b)%Q
                /\ _make_cda_decision id order_size pr bb ba
                   = Order.mk id (-1) "market" 0 order_size).
Proof.
  unfold _make_cda_decision. intros H.
  destruct ba as [a|].
  - destruct (Qlt_bool a pr) eqn:E1.
    + left. exists a. apply Qlt_bool_iff in E1. auto.
    + destruct bb as [b|].
      * destruct (Qlt_bool pr b) eqn:E2; [|cbn in H; discriminate].
        right. exists b. apply Qlt_bool_iff in E2. auto.
      * cbn in H. discriminate.
  - destruct bb as [b|].
    + destruct (Qlt_bool pr b) eqn:E2; [|cbn in H; discriminate].
      right. exists b. apply Qlt_bool_iff in E2. auto.
    + cbn in H. discriminate.
Qed.

(** X23.  An agent's market order is filled at the quote the agent saw.
    When [_make_cda_decision], called with the engine's snapshot and a
    positive order size, returns a market order, and the book is in the
    state every order stream leaves it in, [process_order] on that
    engine returns at least one trade: the first one is executed at the
    best ask of the snapshot, below the agent's reservation price, with
    the agent as buyer, or at the best bid of the snapshot, above the
    reservation price, with the agent as seller.  Whatever is left of
    the market order does not rest on the book. *)
Theorem market_decision_fills_at_seen_quote (eng : CDAEngine)
    (id order_size : Z) (pr : Q) :
  market_inv eng -> 0 < order_size ->
  let snap := get_market_snapshot eng in
  let order := _make_cda_decision id order_size pr (fst snap) (snd snap) in
  Order.order_type order = "market" ->
  exists t trades eng',
    CDA.process_order order eng = (Returns (t :: trades), eng')
    /\ (if Order.direction order =? 1
        then snd snap = Some (Trade.price t) /\ (Trade.price t < pr)%Q
             /\ Trade.buyer_id t = id
        else fst snap = Some (Trade.price t) /\ (pr < Trade.price t)%Q
             /\ Trade.seller_id t = id)
    /\ own_side order (book eng') = own_side order (book eng).
Proof.
  intros Hinv Hsize snap order Htype.
  assert (Hleb : (order_size <=? 0) = false) by now apply Z.leb_gt.
  unfold get_market_snapshot, Book.snapshot in snap.
  subst snap. cbn [fst snd] in *.
  destruct (market_decision_cases _ _ _ _ _ Htype)
    as [(a & Ha & Hlt & Hord)|(b & Hb & Hlt & Hord)];
    subst order; rewrite Hord in *; clear Hord.
  - destruct (market_order_fills eng (Order.mk id 1 "market" 0 order_size)
                Hinv)
      as (t & trades & eng' & it & rest & Hrun & Hside & Ht & Hown).
    { unfold passes_validation.
      cbn [Order.quantity Order.order_type Order.direction Order.price].
      rewrite Hleb. reflexivity. }
    { reflexivity. }
    { unfold opposite_side. cbn. unfold Book.best_ask in Ha.
      destruct (asks (book eng)); [discriminate|discriminate]. }
    exists t, trades, eng'. split; [exact Hrun|].
    split; [|now apply Hown].
    unfold opposite_side in Hside. cbn in Hside.
    unfold Book.best_ask in Ha |- *. rewrite Hside in Ha |- *.
    destruct it as [[p ts] e]. injection Ha as ->.
    subst t. cbn. auto.
  - destruct (market_order_fills eng (Order.mk id (-1) "market" 0 order_size)
                Hinv)
      as (t & trades & eng' & it & rest & Hrun & Hside & Ht & Hown).
    { unfold passes_validation.
      cbn [Order.quantity Order.order_type Order.direction Order.price].
      rewrite Hleb. reflexivity. }
    { reflexivity. }
    { unfold opposite_side. cbn. unfold Book.best_bid in Hb.
      destruct (bids (book eng)); [discriminate|discriminate]. }
    exists t, trades, eng'. split; [exact Hrun|].
    split; [|now apply Hown].
    unfold opposite_side in Hside. cbn in Hside.
    unfold Book.best_bid in Hb |- *. rewrite Hside in Hb |- *.
    destruct it as [[p ts] e]. injection Hb as <-.
    subst t. cbn. auto.
Qed.

Lemma market_decision_fills_at_seen_quote_witness :
  let eng :=
    snd (CDA.process_order (Order.mk 1 (-1) "limit" 10 5)
           (CDA.init (Some 10%Q) (mkPriceLimitRule true (1 # 10))
              (mkTransactionTaxRule true (1 # 1000)))) in
  let snap := get_market_snapshot eng in
  let order := _make_cda_decision 2 3 11 (fst snap) (snd snap) in
  market_inv eng /\ 0 < 3 /\ Order.order_type order = "market"
  /\ exists t trades eng',
       CDA.process_order order eng = (Returns (t :: trades), eng')
       /\ (if Order.direction order =? 1
           then snd snap = Some (Trade.price t) /\ (Trade.price t < 11)%Q
                /\ Trade.buyer_id t = 2
           else fst snap = Some (Trade.price t) /\ (11 < Trade.price t)%Q
                /\ Trade.seller_id t = 2)
       /\ own_side order (book eng') = own_side order (book eng).
Proof.
  intros eng snap order.
  assert (Hinv : market_inv eng).
  { apply market_inv_after, market_inv_empty. reflexivity. }
  assert (Hty : Order.order_type order = "market")
    by (vm_compute; reflexivity).
  split; [exact Hinv|]. split; [lia|]. split; [exact Hty|].
  exact (market_decision_fills_at_seen_quote eng 2 3 11 Hinv ltac:(lia) Hty).
Defined.
